(** * Enrollment pipeline: identifier allocator and notification dispatcher

    A shallow embedding of the core of the enrollment pipeline:
    - [redcap_client.py]: [RedcapApiError] and the REDCap client;
    - [eligible_id_assigner.py]: [EligibleIDAssigner];
    - [common/email_sender.py]: [RateLimiter], [CircuitBreaker] and
      [MultiProviderEmailSender].

    Python integers are [Z]; strings are [string] restricted to ASCII;
    dictionaries are [gmap].  The rate limiter computes on Python floats
    (IEEE 754 binary64); the clock readings of the circuit breaker, which
    only subtracts and compares them, are exact integers in a fixed clock
    unit. *)

From Stdlib Require Import ZArith List Bool Ascii String QArith Qminmax.
From Stdlib Require Import Floats.SpecFloat.
From stdpp Require Import base gmap strings list pretty.

Local Open Scope Z_scope.
Local Open Scope string_scope.

(** ** Python string primitives *)

Module PyStr.

(** [str.lower()] on ASCII text. *)
Definition lower_ascii (c : ascii) : ascii :=
  let n := nat_of_ascii c in
  if andb (Nat.leb 65 n) (Nat.leb n 90) then ascii_of_nat (n + 32) else c.

Fixpoint lower (s : string) : string :=
  match s with
  | EmptyString => EmptyString
  | String c s' => String (lower_ascii c) (lower s')
  end.

(** [str.startswith]. *)
Fixpoint startswith (s p : string) {struct p} : bool :=
  match p, s with
  | EmptyString, _ => true
  | String _ _, EmptyString => false
  | String a p', String b s' => if Ascii.eqb a b then startswith s' p' else false
  end.

(** The [in] operator on strings: [contains sub s] is [sub in s]. *)
Fixpoint contains (sub s : string) : bool :=
  if startswith s sub then true
  else match s with
       | EmptyString => false
       | String _ s' => contains sub s'
       end.

(** [str.endswith]. *)
Definition endswith (s suf : string) : bool :=
  startswith (String.rev s) (String.rev suf).

(** ASCII characters for which [str.isspace] holds. *)
Definition isspace (c : ascii) : bool :=
  let n := nat_of_ascii c in
  orb (andb (Nat.leb 9 n) (Nat.leb n 13)) (andb (Nat.leb 28 n) (Nat.leb n 32)).

Fixpoint lstrip (s : string) : string :=
  match s with
  | EmptyString => EmptyString
  | String c s' => if isspace c then lstrip s' else s
  end.

(** [str.strip()] with no argument. *)
Definition strip (s : string) : string :=
  String.rev (lstrip (String.rev (lstrip s))).

(** Truthiness of a string: non-empty. *)
Definition truthy (s : string) : bool :=
  match s with EmptyString => false | _ => true end.

Fixpoint all_digits (s : string) : bool :=
  match s with
  | EmptyString => true
  | String c s' =>
      let n := nat_of_ascii c in
      andb (andb (Nat.leb 48 n) (Nat.leb n 57)) (all_digits s')
  end.

(** [str.isdigit()]: non-empty and made of digits. *)
Definition isdigit (s : string) : bool := andb (truthy s) (all_digits s).

Definition digit_of (c : ascii) : option Z :=
  let n := nat_of_ascii c in
  if andb (Nat.leb 48 n) (Nat.leb n 57) then Some (Z.of_nat (n - 48)) else None.

(** Digits of a decimal literal; a single underscore may separate two
    digits, as [int()] accepts.  [acc] is the value read so far and the
    previous character was a digit. *)
Fixpoint int_digits (acc : Z) (s : string) : option Z :=
  match s with
  | EmptyString => Some acc
  | String c s' =>
      match digit_of c with
      | Some d => int_digits (10 * acc + d) s'
      | None =>
          if Ascii.eqb c "_"%char then
            match s' with
            | String c' s'' =>
                match digit_of c' with
                | Some d => int_digits (10 * acc + d) s''
                | None => None
                end
            | EmptyString => None
            end
          else None
      end
  end.

Definition int_unsigned (s : string) : option Z :=
  match s with
  | String c s' =>
      match digit_of c with
      | Some d => int_digits d s'
      | None => None
      end
  | EmptyString => None
  end.

(** [int(s)] in base ten; [None] stands for [ValueError]. *)
Definition int (s : string) : option Z :=
  match strip s with
  | String "-" s' => Z.opp <$> int_unsigned s'
  | String "+" s' => int_unsigned s'
  | s' => int_unsigned s'
  end.

End PyStr.

(** ** [redcap_client.py]: the API error and its classifier *)

Record RedcapApiError := mkRedcapApiError {
  message : string;
  status_code : option Z;
  response_body : option string;
  detection_strings : list string
}.

Definition default_detection_strings : list string :=
  ["unique constraint"; "duplicate"; "already exists"].

(** [RedcapApiError.__init__]: [detection_strings or [...]] falls back to
    the defaults for [None] and for the empty list. *)
Definition RedcapApiError_init (msg : string) (sc : option Z)
    (body : option string) (ds : option (list string)) : RedcapApiError :=
  {| message := msg;
     status_code := sc;
     response_body := body;
     detection_strings :=
       match ds with
       | Some (d :: l) => d :: l
       | _ => default_detection_strings
       end |}.

Definition collision_status_codes : list Z := [400; 409; 422].

Definition status_in (sc : option Z) (l : list Z) : bool :=
  match sc with
  | Some c => existsb (Z.eqb c) l
  | None => false
  end.

(** The [for detection_str in self.detection_strings] loop. *)
Fixpoint any_detection (body_lower : string) (ds : list string) : bool :=
  match ds with
  | [] => false
  | d :: ds' =>
      if PyStr.contains (PyStr.lower d) body_lower then true
      else any_detection body_lower ds'
  end.

Definition is_unique_constraint_violation (e : RedcapApiError) : bool :=
  match response_body e with
  | Some body =>
      if status_in (status_code e) collision_status_codes && PyStr.truthy body
      then any_detection (PyStr.lower body) (detection_strings e)
      else false
  | None => false
  end.

(** ** Programs with external calls

    Code that talks to the outside world is a tree: it returns, raises, or
    performs an external call [ev] and continues with the answer.  All
    loops of the modelled code are bounded, so the trees are finite. *)

Inductive Prog (E : Type -> Type) (Ex A : Type) : Type :=
| Ret (a : A)
| Raise (e : Ex)
| Vis {X : Type} (ev : E X) (k : X -> Prog E Ex A).

Arguments Ret {E Ex A} a.
Arguments Raise {E Ex A} e.
Arguments Vis {E Ex A X} ev k.

Fixpoint bind {E Ex A B} (m : Prog E Ex A) (f : A -> Prog E Ex B)
  : Prog E Ex B :=
  match m with
  | Ret a => f a
  | Raise e => Raise e
  | Vis ev k => Vis ev (fun x => bind (k x) f)
  end.

#[export] Instance Prog_ret {E Ex} : MRet (Prog E Ex) := fun _ a => Ret a.
#[export] Instance Prog_bind {E Ex} : MBind (Prog E Ex) :=
  fun _ _ f m => bind m f.

Definition call {E Ex X} (ev : E X) : Prog E Ex X := Vis ev Ret.

Inductive Result (Ex A : Type) : Type :=
| Ok (a : A)
| Err (e : Ex).

Arguments Ok {Ex A} a.
Arguments Err {Ex A} e.

(** [try: m except: ...] with the exception reified, so that the handler
    can be written as a [match] and still see the local variables. *)
Fixpoint try_ {E Ex A} (m : Prog E Ex A) : Prog E Ex (Result Ex A) :=
  match m with
  | Ret a => Ret (Ok a)
  | Raise e => Ret (Err e)
  | Vis ev k => Vis ev (fun x => try_ (k x))
  end.

Definition lift_result {E Ex A} (r : Result Ex A) : Prog E Ex A :=
  match r with
  | Ok a => Ret a
  | Err e => Raise e
  end.

(** One external call together with the answer it got. *)
Inductive Event (E : Type -> Type) : Type :=
| Ev {X : Type} (ev : E X) (x : X).

Arguments Ev {E X} ev x.

Inductive Outcome (Ex A : Type) : Type :=
| Returned (a : A)
| Raised (e : Ex)
| Starved.

Arguments Returned {Ex A} a.
Arguments Raised {Ex A} e.
Arguments Starved {Ex A}.

(** An environment answers calls from its own state; [None] means it has
    no answer left. *)
Definition Handler (E : Type -> Type) (W : Type) : Type :=
  forall X, E X -> W -> option (X * W).

(** Run a program against an environment; the trace lists the calls made,
    in order, with their answers. *)
Fixpoint run {E Ex A W} (h : Handler E W) (p : Prog E Ex A) (w : W)
  : Outcome Ex A * W * list (Event E) :=
  match p with
  | Ret a => (Returned a, w, [])
  | Raise e => (Raised e, w, [])
  | Vis ev k =>
      match h _ ev w with
      | Some (x, w') =>
          let '(o, w'', t) := run h (k x) w' in (o, w'', Ev ev x :: t)
      | None => (Starved, w, [])
      end
  end.

(** ** [redcap_client.py]: REDCapClient *)

Record Response := mkResponse {
  resp_status_code : Z;
  resp_text : string
}.

(** What [session.post] gives back, after the transport-level retries of
    the session's adapter: a response, or a [RequestException]. *)
Inductive PostResult : Type :=
| PostResponse (response : Response)
| PostRequestException (msg : string).

(** One record of an import payload: the [record_id] entry (which is
    [record.get('record_id')], possibly [None]) and the other entries in
    insertion order. *)
Record Update := mkUpdate {
  upd_record_id : option string;
  upd_fields : list (string * string)
}.

(** The [data] dictionary of a request, by the entries the callers set. *)
Inductive Request : Type :=
| ExportRecords (fields : list string) (filter_logic : option string)
| ImportRecords (records : list Update) (overwrite : string).

Inductive RepoE : Type -> Type :=
| Post (data : Request) : RepoE PostResult
| Sleep (seconds : Q) : RepoE unit.

Inductive Exn : Type :=
| ApiError (e : RedcapApiError)
| ValueError (msg : string)
| KeyError (key : string)
| UnboundLocalError (name : string).

Record REDCapClient := mkClient {
  concurrency_detection_list : list string
}.

Definition _make_request (client : REDCapClient) (data : Request)
  : Prog RepoE Exn Response :=
  res ← call (Post data);
  match res with
  | PostResponse response =>
      if (400 <=? resp_status_code response)%Z then
        Raise (ApiError (RedcapApiError_init
                 ("REDCap API Error: HTTP " ++ pretty (resp_status_code response))
                 (Some (resp_status_code response))
                 (Some (resp_text response))
                 (Some (concurrency_detection_list client))))
      else Ret response
  | PostRequestException e =>
      Raise (ApiError (RedcapApiError_init
               ("Network or Request Error: " ++ e) None None None))
  end.

(** [json.loads] and the view of a decoded export as a list of flat
    records are an interface of the client; [None] is [JSONDecodeError],
    a subclass of [ValueError].  The records of an export are
    dictionaries with string values, as the repository's flat JSON
    export gives them; a decoded body of another shape (not a list, or
    with a field that is not a string), on which the record loop would
    raise [AttributeError], is outside the embedding. *)
Class JsonCodec := {
  Json : Type;
  json_loads : string -> option Json;
  json_records : Json -> list (gmap string string)
}.

(** The eligibility checker is a collaborator of the assigner: it maps a
    record to a status and the list of reasons. *)
Class EligibilityChecker := {
  check_eligibility : gmap string string -> string * list string
}.

Section Client.
Context {codec : JsonCodec}.

Definition loads (text : string) : Prog RepoE Exn Json :=
  match json_loads text with
  | Some j => Ret j
  | None => Raise (ValueError "JSONDecodeError")
  end.

(** What [json.loads(response.text)] gives. *)
Definition decoded (response : Response) : Outcome Exn Json :=
  match json_loads (resp_text response) with
  | Some j => Returned j
  | None => Raised (ValueError "JSONDecodeError")
  end.

Definition export_records (client : REDCapClient) (fields : list string)
    (filter_logic : option string) : Prog RepoE Exn (list (gmap string string)) :=
  let filter :=
    match filter_logic with
    | Some f => if PyStr.truthy f then Some f else None
    | None => None
    end in
  response ← _make_request client (ExportRecords fields filter);
  j ← loads (resp_text response);
  Ret (json_records j).

Definition import_records (client : REDCapClient) (records : list Update)
    (overwrite : string) : Prog RepoE Exn Json :=
  response ← _make_request client (ImportRecords records overwrite);
  loads (resp_text response).

(** ** [eligible_id_assigner.py]: EligibleIDAssigner *)

Record IdRange := mkRange { rmin : Z; rmax : Z }.

Definition ID_RANGES : gmap string IdRange :=
  {[ "healthy_control" := mkRange 3000 10199;
     "mdd_participant" := mkRange 10200 20000 ]}.

Definition F_record_id := "record_id".
Definition F_assigned_study_id := "assigned_study_id_a690e9".
Definition F_status := "pipeline_processing_status".
Definition F_reasons := "pipeline_ineligibility_reasons".
Definition F_qids := "qids_score_screening_42b0d5_v2_1d2371".
Definition F_consent := "agree_participate_2950df_d76555_d11eb3_v2_2c0e90".

(** [record.get(key, default)]. *)
Definition record_get (record : gmap string string) (key dflt : string)
  : string :=
  match record !! key with
  | Some v => v
  | None => dflt
  end.

Definition in_range (id_range : IdRange) (v : Z) : bool :=
  ((rmin id_range <=? v) && (v <=? rmax id_range))%Z.

(** The [for record in records] loop of [get_next_dynamic_id], appending
    to [existing_ids]. *)
Fixpoint collect_existing_ids (id_range : IdRange)
    (records : list (gmap string string)) (existing_ids : list Z) : list Z :=
  match records with
  | [] => existing_ids
  | record :: rest =>
      let id_str := PyStr.strip (record_get record F_assigned_study_id "") in
      let existing_ids' :=
        if PyStr.truthy id_str then
          match PyStr.int id_str with
          | Some id_value =>
              if in_range id_range id_value
              then (existing_ids ++ [id_value])%list
              else existing_ids
          | None => existing_ids
          end
        else existing_ids in
      collect_existing_ids id_range rest existing_ids'
  end.

(** [max] of a non-empty list. *)
Definition py_max (x : Z) (xs : list Z) : Z := fold_left Z.max xs x.

Definition exhausted_message (group_type : string) (id_range : IdRange)
  : string :=
  "ID range exhausted for " ++ group_type ++ ". Max ID "
    ++ pretty (rmax id_range) ++ " reached.".

(** The part of [get_next_dynamic_id] after the export. *)
Definition next_dynamic_id (group_type : string)
    (records : list (gmap string string)) : Result Exn Z :=
  match ID_RANGES !! group_type with
  | None => Err (KeyError group_type)
  | Some id_range =>
      match collect_existing_ids id_range records [] with
      | x :: xs =>
          let max_id := py_max x xs in
          let next_id := max_id + 1 in
          if (rmax id_range <? next_id)%Z
          then Err (ValueError (exhausted_message group_type id_range))
          else Ok next_id
      | [] => Ok (rmin id_range)
      end
  end.

(** [get_next_dynamic_id]; its [except RedcapApiError] clause logs and
    re-raises, which leaves the program unchanged. *)
Definition get_next_dynamic_id (client : REDCapClient) (group_type : string)
  : Prog RepoE Exn Z :=
  records ← export_records client [F_record_id; F_assigned_study_id] None;
  lift_result (next_dynamic_id group_type records).

Definition determine_group (qids_score : Z) : Result Exn (string * string) :=
  if (qids_score <=? 10)%Z then Ok ("healthy_control", "Healthy Control")
  else if (qids_score <=? 20)%Z then Ok ("mdd_participant", "MDD Participant")
  else Err (ValueError ("QIDS score " ++ pretty qids_score
              ++ " is ≥21 and should have been marked ineligible")).

Record Stats := mkStats {
  processed : Z;
  assigned_healthy : Z;
  assigned_mdd : Z;
  not_eligible : Z;
  review_required : Z;
  skipped : Z;
  errors : Z
}.

(** The local variables of [process_records] that live across loop
    iterations: the counters and [new_id], unbound until first assigned. *)
Record Locals := mkLocals {
  stats : Stats;
  new_id : option Z
}.

Definition bump_errors (loc : Locals) : Locals :=
  let s := stats loc in
  mkLocals (mkStats (processed s) (assigned_healthy s) (assigned_mdd s)
              (not_eligible s) (review_required s) (skipped s) (errors s + 1))
           (new_id loc).

Definition bump_not_eligible (loc : Locals) : Locals :=
  let s := stats loc in
  mkLocals (mkStats (processed s) (assigned_healthy s) (assigned_mdd s)
              (not_eligible s + 1) (review_required s) (skipped s) (errors s))
           (new_id loc).

Definition bump_review_required (loc : Locals) : Locals :=
  let s := stats loc in
  mkLocals (mkStats (processed s) (assigned_healthy s) (assigned_mdd s)
              (not_eligible s) (review_required s + 1) (skipped s) (errors s))
           (new_id loc).

Definition bump_assigned (group_type : string) (loc : Locals) : Locals :=
  let s := stats loc in
  let hc := String.eqb group_type "healthy_control" in
  mkLocals (mkStats (processed s + 1)
              (if hc then assigned_healthy s + 1 else assigned_healthy s)
              (if hc then assigned_mdd s else assigned_mdd s + 1)
              (not_eligible s) (review_required s) (skipped s) (errors s))
           (new_id loc).

Definition set_new_id (loc : Locals) (v : Z) : Locals :=
  mkLocals (stats loc) (Some v).

Definition MAX_RETRIES : nat := 3.

(** [0.5 * (2 ** attempt)] seconds. *)
Definition backoff (attempt : nat) : Q :=
  ((1 # 2) * inject_Z (2 ^ Z.of_nat attempt))%Q.

Definition update_data (record_id : option string) (new_id : Z) : Update :=
  mkUpdate record_id
    [(F_assigned_study_id, pretty new_id); (F_status, "eligible_id_assigned")].

Definition update_data_with_flag (record_id : option string) (new_id : Z)
  : Update :=
  mkUpdate record_id
    (upd_fields (update_data record_id new_id) ++ [("id_assigned", "1")])%list.

(** The two writes of one attempt: with the [id_assigned] flag and, when
    that raises any [RedcapApiError], once more without it. *)
Definition write_assignment (client : REDCapClient)
    (record_id : option string) (new_id : Z) : Prog RepoE Exn Json :=
  r ← try_ (import_records client [update_data_with_flag record_id new_id]
                           "overwrite");
  match r with
  | Ok result => Ret result
  | Err (ApiError _) =>
      import_records client [update_data record_id new_id] "overwrite"
  | Err e => Raise e
  end.

(** The [except] clauses of the retry loop.  [continue_] is the rest of
    the loop; the result is [(assignment_successful, attempt, locals)] at
    the exit of the loop. *)
Definition on_error (attempt : nat) (e : Exn) (loc : Locals)
    (continue_ : Prog RepoE Exn (bool * nat * Locals))
  : Prog RepoE Exn (bool * nat * Locals) :=
  match e with
  | ApiError err =>
      if is_unique_constraint_violation err then
        match new_id loc with
        | None => Raise (UnboundLocalError "new_id")
        | Some _ =>
            if (attempt <? MAX_RETRIES - 1)%nat
            then _ ← call (Sleep (backoff attempt)); continue_
            else continue_
        end
      else Ret (false, attempt, bump_errors loc)
  | ValueError _ => Ret (false, attempt, bump_errors loc)
  | _ => Raise e
  end.

(** [for attempt in range(MAX_RETRIES)], over the attempts still to run. *)
Fixpoint retry_loop (client : REDCapClient) (record_id : option string)
    (group_type : string) (attempts : list nat) (last_attempt : nat)
    (loc : Locals) : Prog RepoE Exn (bool * nat * Locals) :=
  match attempts with
  | [] => Ret (false, last_attempt, loc)
  | attempt :: rest =>
      r ← try_ (get_next_dynamic_id client group_type);
      match r with
      | Ok nid =>
          let loc := set_new_id loc nid in
          w ← try_ (write_assignment client record_id nid);
          match w with
          | Ok _ => Ret (true, attempt, bump_assigned group_type loc)
          | Err e =>
              on_error attempt e loc
                (retry_loop client record_id group_type rest attempt loc)
          end
      | Err e =>
          on_error attempt e loc
            (retry_loop client record_id group_type rest attempt loc)
      end
  end.

(** Lines 207-267: the retry loop for one record and the check after it. *)
Definition assign_id (client : REDCapClient) (record_id : option string)
    (group_type : string) (loc : Locals) : Prog RepoE Exn Locals :=
  '(assignment_successful, attempt, loc') ←
    retry_loop client record_id group_type (seq 0 MAX_RETRIES) 0%nat loc;
  Ret (if negb assignment_successful && (attempt =? MAX_RETRIES - 1)%nat
       then bump_errors loc' else loc').

Context {checker : EligibilityChecker}.

Definition status_map_get (status : string) : string :=
  if String.eqb status "INELIGIBLE" then "ineligible"
  else if String.eqb status "REVIEW_REQUIRED" then "manual_review_required"
  else "pending".

(** The body of [for record in all_records]. *)
Definition process_record (client : REDCapClient)
    (record : gmap string string) (loc : Locals) : Prog RepoE Exn Locals :=
  let record_id := record !! F_record_id in
  let '(status, reasons) := check_eligibility record in
  if negb (String.eqb status "ELIGIBLE") then
    let upd := mkUpdate record_id
                 [(F_status, status_map_get status);
                  (F_reasons, String.concat ", " reasons)] in
    r ← try_ (import_records client [upd] "normal");
    match r with
    | Ok _ =>
        Ret (if String.eqb status "INELIGIBLE"
             then bump_not_eligible loc else bump_review_required loc)
    | Err (ApiError _) => Ret (bump_errors loc)
    | Err e => Raise e
    end
  else
    let qids_score_str := PyStr.strip (record_get record F_qids "") in
    if negb (PyStr.truthy qids_score_str) then Ret loc
    else
      match PyStr.int qids_score_str with
      | None => Ret (bump_errors loc)
      | Some qids_score =>
          match determine_group qids_score with
          | Ok (group_type, _) => assign_id client record_id group_type loc
          | Err _ => Ret (bump_not_eligible loc)
          end
      end.

Fixpoint process_loop (client : REDCapClient)
    (all_records : list (gmap string string)) (loc : Locals)
  : Prog RepoE Exn Locals :=
  match all_records with
  | [] => Ret loc
  | record :: rest =>
      loc' ← process_record client record loc;
      process_loop client rest loc'
  end.

Definition fields_to_fetch : list string :=
  [F_record_id; F_consent; F_assigned_study_id; F_status; F_reasons; F_qids;
   "participant_email_a29017_723fd8_6c173d_v2_98aab5";
   "age_c4982e_ee0b48_0fa205_v2_fdabe5";
   "travel_e4c69a_ec4b4a_09fbe2_v2_1b9f19";
   "english_5c066f_a95c48_a35a95_v2_f6426d";
   "tms_contra_d3aef1_4917df_ffe8d8_v2_3ff65f"].

Definition filter_logic_pending : string :=
  "([pipeline_processing_status] = '' or [pipeline_processing_status] = 'pending') and "
  ++ "[assigned_study_id_a690e9] = '' and "
  ++ "[agree_participate_2950df_d76555_d11eb3_v2_2c0e90] = '1'".

Definition initial_locals : Locals :=
  mkLocals (mkStats 0 0 0 0 0 0 0) None.

(** [process_records]: the result is the number of records assigned. *)
Definition process_records (client : REDCapClient) (retroactive : bool)
  : Prog RepoE Exn Z :=
  r ← try_ (if retroactive
            then export_records client fields_to_fetch None
            else export_records client fields_to_fetch
                   (Some filter_logic_pending));
  match r with
  | Err (ApiError _) => Ret 0
  | Err e => Raise e
  | Ok all_records =>
      loc ← process_loop client all_records initial_locals;
      Ret (processed (stats loc))
  end.

End Client.

(** A scripted repository: the answers to the successive [session.post]
    calls are read off a list; sleeping consumes nothing. *)
Definition scripted : Handler RepoE (list PostResult) :=
  fun X ev =>
    match ev in RepoE X
          return list PostResult -> option (X * list PostResult) with
    | Post _ => fun w => match w with
                         | res :: w' => Some (res, w')
                         | [] => None
                         end
    | Sleep _ => fun w => Some (tt, w)
    end.

(** ** The record repository shared by concurrent workers *)







Definition is_failure (res : PostResult) : Prop :=
  match res with
  | PostResponse response => 400 <= resp_status_code response
  | PostRequestException _ => True
  end.





(** ** [common/email_sender.py]: RateLimiter *)

(** The readings of [time.time()] and the wait time are Python floats:
    IEEE 754 binary64 values, with operations rounded to nearest, ties
    to even. *)
Definition float_add : spec_float -> spec_float -> spec_float := SFadd 53 1024.
Definition float_sub : spec_float -> spec_float -> spec_float := SFsub 53 1024.

(** The conversion of the [int] operand of a mixed operation such as
    [now - self.time_window]: the nearest float; [None] is the
    [OverflowError] of an integer too large for a float. *)
Definition float_of_int (z : Z) : option spec_float :=
  match binary_normalize 53 1024 z 0 false with
  | S754_infinity _ => None
  | f => Some f
  end.

(** The float of a whole number of seconds, for writing down readings. *)
Definition seconds (z : Z) : spec_float := binary_normalize 53 1024 z 0 false.

Record RateLimiter := mkRateLimiter {
  max_calls : Z;
  time_window : Z;
  calls : list spec_float
}.

Definition RateLimiter_init (max_calls time_window : Z) : RateLimiter :=
  mkRateLimiter max_calls time_window [].

(** [while self.calls and self.calls[0] <= now - self.time_window:
    self.calls.popleft()], with [window] the converted [time_window]. *)
Fixpoint evict (now window : spec_float) (calls : list spec_float)
  : list spec_float :=
  match calls with
  | c :: rest =>
      if SFleb c (float_sub now window) then evict now window rest else calls
  | [] => []
  end.

Inductive Acquired : Type :=
| Allowed
| WaitTime (wait_time : spec_float)
| IndexError
| OverflowError.

(** [acquire] at clock reading [now]: [True], the wait time, or the
    [IndexError] of [self.calls[0]] on an empty deque.  On an empty deque
    the loop does no arithmetic; otherwise its first comparison converts
    [time_window]. *)
Definition acquire (rl : RateLimiter) (now : spec_float)
  : Acquired * RateLimiter :=
  match calls rl with
  | [] =>
      if (0 <? max_calls rl)%Z then
        (Allowed, mkRateLimiter (max_calls rl) (time_window rl) [now])
      else (IndexError, rl)
  | _ :: _ =>
      match float_of_int (time_window rl) with
      | None => (OverflowError, rl)
      | Some window =>
          let calls1 := evict now window (calls rl) in
          if (Z.of_nat (length calls1) <? max_calls rl)%Z then
            (Allowed,
             mkRateLimiter (max_calls rl) (time_window rl)
               (calls1 ++ [now])%list)
          else
            match calls1 with
            | oldest_call :: _ =>
                (WaitTime (float_sub (float_add oldest_call window) now),
                 mkRateLimiter (max_calls rl) (time_window rl) calls1)
            | [] =>
                (IndexError,
                 mkRateLimiter (max_calls rl) (time_window rl) calls1)
            end
      end
  end.

(** A limiter after a sequence of [acquire] calls at the given readings. *)
Definition acquire_all (rl : RateLimiter) (times : list spec_float)
  : RateLimiter :=
  foldl (fun r now => (acquire r now).2) rl times.

(** The recorded timestamps that [acquire] at [now] would keep. *)
Definition in_window (window : spec_float) (rl : RateLimiter)
    (now : spec_float) : list spec_float :=
  List.filter (fun t => negb (SFleb t (float_sub now window))) (calls rl).

(** Readings just before the clock passes [2 ^ 31] seconds: the first is
    [2 ^ 31 - 60 + 2 ^ -22], the second [2 ^ 31 - 30]. *)
Definition reading_before_2_31 : spec_float :=
  S754_finite false 9007199003082753 (-22).

Definition half_minute_before_2_31 : spec_float := seconds (2 ^ 31 - 30).

(** ** [common/email_sender.py]: CircuitBreaker *)

Inductive CircuitState : Type := CLOSED | OPEN | HALF_OPEN.

Record CircuitBreaker := mkBreaker {
  failure_threshold : Z;
  recovery_timeout : Z;
  success_threshold : Z;
  failure_count : Z;
  success_count : Z;
  last_failure_time : option Z;
  state : CircuitState
}.

Definition CircuitBreaker_init (failure_threshold recovery_timeout
    success_threshold : Z) : CircuitBreaker :=
  mkBreaker failure_threshold recovery_timeout success_threshold 0 0 None CLOSED.

(** [CircuitBreaker()] with the default arguments. *)
Definition CircuitBreaker_default : CircuitBreaker := CircuitBreaker_init 5 60 2.

Definition is_half_open (s : CircuitState) : bool :=
  match s with HALF_OPEN => true | _ => false end.

Definition record_success (cb : CircuitBreaker) : CircuitBreaker :=
  let success_count' := success_count cb + 1 in
  mkBreaker (failure_threshold cb) (recovery_timeout cb) (success_threshold cb)
    0 success_count' (last_failure_time cb)
    (if is_half_open (state cb) && (success_threshold cb <=? success_count')%Z
     then CLOSED else state cb).

(** [record_failure], with [now] the reading of [time.time()]. *)
Definition record_failure (cb : CircuitBreaker) (now : Z) : CircuitBreaker :=
  let failure_count' := failure_count cb + 1 in
  mkBreaker (failure_threshold cb) (recovery_timeout cb) (success_threshold cb)
    failure_count' 0 (Some now)
    (if (failure_threshold cb <=? failure_count')%Z then OPEN else state cb).

(** Truthiness of [self.last_failure_time]: set, and not zero. *)
Definition time_truthy (t : option Z) : bool :=
  match t with
  | Some v => negb (v =? 0)%Z
  | None => false
  end.

(** [can_attempt], with [now] the reading of [time.time()] (only looked
    at when the breaker is open and has a failure time). *)
Definition can_attempt (cb : CircuitBreaker) (now : Z) : bool * CircuitBreaker :=
  match state cb with
  | CLOSED => (true, cb)
  | OPEN =>
      match last_failure_time cb with
      | Some t =>
          if time_truthy (Some t) && (recovery_timeout cb <? now - t)%Z then
            (true, mkBreaker (failure_threshold cb) (recovery_timeout cb)
                     (success_threshold cb) (failure_count cb)
                     (success_count cb) (last_failure_time cb) HALF_OPEN)
          else (false, cb)
      | None => (false, cb)
      end
  | HALF_OPEN => (true, cb)
  end.

(** The breaker after [record_failure] at each of the readings. *)
Definition record_failures (cb : CircuitBreaker) (times : list Z)
  : CircuitBreaker :=
  foldl record_failure cb times.

(** Successive [can_attempt] calls: the answers and the final breaker. *)
Fixpoint can_attempts (cb : CircuitBreaker) (times : list Z)
  : list bool * CircuitBreaker :=
  match times with
  | [] => ([], cb)
  | now :: rest =>
      let '(ok, cb1) := can_attempt cb now in
      let '(oks, cb2) := can_attempts cb1 rest in
      (ok :: oks, cb2)
  end.

(** The operations on a breaker, and the breakers a process can hold. *)
Inductive BreakerOp : Type :=
| OpSuccess
| OpFailure (now : Z)
| OpCanAttempt (now : Z).

Definition apply_op (cb : CircuitBreaker) (op : BreakerOp) : CircuitBreaker :=
  match op with
  | OpSuccess => record_success cb
  | OpFailure now => record_failure cb now
  | OpCanAttempt now => (can_attempt cb now).2
  end.

(** ** [common/email_sender.py]: MultiProviderEmailSender *)

(** A provider object: [get_provider_name()] and an identity that tells
    two providers of the same name apart. *)
Record Provider := mkProvider {
  provider_name : string;
  provider_id : nat
}.

Record EmailData := mkEmailData {
  to_email : string;
  subject : string;
  body : string
}.

(** The dictionary returned by a provider's [send_email], by the keys the
    dispatcher reads. *)
Record ProviderResult := mkProviderResult {
  res_success : bool;
  res_provider : option string;
  res_error : option string;
  res_retry : bool;
  res_status_code : option Z;
  res_guidance : option string
}.

Inductive SendOutcome : Type :=
| SendReturned (result : ProviderResult)
| SendRaised (msg : string).

Inductive MailE : Type -> Type :=
| SendEmail (provider : Provider) (email_data : EmailData) : MailE SendOutcome
| IsHealthy (provider : Provider) : MailE bool
| Time : MailE Z
| RandomUniform : MailE Q
| SleepFor (seconds : Q) : MailE unit.

(** An entry of the [attempts] list. *)
Record Attempt := mkAttempt {
  att_provider : string;
  att_attempt : Z;
  att_result : option ProviderResult;
  att_error : option string
}.

(** The dictionary returned by [_send_with_providers]; [result] holds the
    provider's dictionary merged in by [**result] on success. *)
Record Delivery := mkDelivery {
  success : bool;
  provider : option string;
  attempts : list Attempt;
  error : option string;
  guidance : option string;
  result : option ProviderResult
}.

Record MultiProviderEmailSender := mkSender {
  providers : list Provider;
  max_retries : Z;
  circuit_breakers : gmap string CircuitBreaker
}.

Definition MultiProviderEmailSender_init (providers : list Provider)
    (max_retries : Z) : MultiProviderEmailSender :=
  mkSender providers max_retries
    (foldl (fun m p => <[provider_name p := CircuitBreaker_default]> m) ∅ providers).

(** [sorted(xs, key=key)]: a stable sort, by insertion from the right. *)
Fixpoint insert_by_key {A} (key : A -> nat) (x : A) (l : list A) : list A :=
  match l with
  | [] => [x]
  | y :: l' =>
      if (key x <=? key y)%nat then x :: l else y :: insert_by_key key x l'
  end.

Fixpoint sorted {A} (xs : list A) (key : A -> nat) : list A :=
  match xs with
  | [] => []
  | x :: xs' => insert_by_key key x (sorted xs' key)
  end.

Definition is_stanford_recipient (email_data : EmailData) : bool :=
  PyStr.endswith (PyStr.lower (to_email email_data)) "@stanford.edu".

Definition key_stanford (p : Provider) : nat :=
  if String.eqb (provider_name p) "sendgrid" then 0
  else if String.eqb (provider_name p) "stanford_smtp" then 1 else 2.

Definition key_external (p : Provider) : nat :=
  if String.eqb (provider_name p) "sendgrid" then 0
  else if String.eqb (provider_name p) "stanford_smtp" then 2 else 1.

Definition provider_order (providers : list Provider) (email_data : EmailData)
  : list Provider :=
  if is_stanford_recipient email_data
  then sorted providers key_stanford
  else sorted providers key_external.

Definition transient_status_codes : list Z := [429; 500; 502; 503; 504].

(** [min(2 ** attempt + random.uniform(0, 1), 30)]. *)
Definition retry_delay (attempt : nat) (u : Q) : Q :=
  Qmin (inject_Z (2 ^ Z.of_nat attempt) + u)%Q (inject_Z 30).

Definition backoff_sleep {Ex} (attempt : nat) : Prog MailE Ex unit :=
  u ← call RandomUniform;
  call (SleepFor (retry_delay attempt u)).

(** [str(last_error)] inside the final message. *)
Definition str_option (s : option string) : string :=
  match s with
  | Some e => e
  | None => "None"
  end.

Definition all_failed (last_error : option string) (attempts : list Attempt)
  : Delivery :=
  mkDelivery false None attempts
    (Some ("All providers failed. Last error: " ++ str_option last_error))
    (match last attempts with
     | Some a => match att_result a with
                 | Some r => res_guidance r
                 | None => None
                 end
     | None => None
     end)
    None.

(** The dictionary built on success: [**result] comes last, so its
    [provider] entry, when present, replaces the dispatcher's. *)
Definition delivered (provider_name : string) (attempts : list Attempt)
    (r : ProviderResult) : Delivery :=
  mkDelivery (res_success r)
    (Some (default provider_name (res_provider r)))
    attempts (res_error r) (res_guidance r) (Some r).

(** [for attempt in range(self.max_retries)] for one provider.  The left
    result is the [return] from inside the loop, with the breaker after
    [record_success]; the right one is the end of the loop ([break]
    included), with [last_error] and [attempts]. *)
Fixpoint attempt_loop {Ex} (max_retries : Z) (p : Provider)
    (circuit_breaker : CircuitBreaker) (email_data : EmailData)
    (todo : list nat) (last_error : option string) (attempts : list Attempt)
  : Prog MailE Ex (Delivery * CircuitBreaker + option string * list Attempt) :=
  match todo with
  | [] => Ret (inr (last_error, attempts))
  | attempt :: rest =>
      out ← call (SendEmail p email_data);
      match out with
      | SendReturned r =>
          let attempts1 :=
            (attempts ++ [mkAttempt (provider_name p) (Z.of_nat attempt + 1)
                            (Some r) None])%list in
          if res_success r then
            Ret (inl (delivered (provider_name p) attempts1 r,
                      record_success circuit_breaker))
          else
            let last_error1 := Some (default "Unknown error" (res_error r)) in
            if res_retry r || status_in (res_status_code r) transient_status_codes
            then
              if (Z.of_nat attempt <? max_retries - 1)%Z then
                _ ← backoff_sleep attempt;
                attempt_loop max_retries p circuit_breaker email_data rest
                  last_error1 attempts1
              else
                attempt_loop max_retries p circuit_breaker email_data rest
                  last_error1 attempts1
            else Ret (inr (last_error1, attempts1))
      | SendRaised e =>
          let attempts1 :=
            (attempts ++ [mkAttempt (provider_name p) (Z.of_nat attempt + 1)
                            None (Some e)])%list in
          if (Z.of_nat attempt <? max_retries - 1)%Z then
            _ ← backoff_sleep attempt;
            attempt_loop max_retries p circuit_breaker email_data rest
              (Some e) attempts1
          else
            attempt_loop max_retries p circuit_breaker email_data rest
              (Some e) attempts1
      end
  end.

Inductive MailExn : Type :=
| BreakerKeyError (key : string).

(** [circuit_breaker.can_attempt()]: the clock is read only by an open
    breaker that has a failure time. *)
Definition can_attempt_now (cb : CircuitBreaker)
  : Prog MailE MailExn (bool * CircuitBreaker) :=
  match state cb with
  | OPEN =>
      if time_truthy (last_failure_time cb)
      then now ← call Time; Ret (can_attempt cb now)
      else Ret (can_attempt cb 0)
  | _ => Ret (can_attempt cb 0)
  end.

(** [for provider in provider_order]. *)
Fixpoint provider_loop (max_retries : Z) (email_data : EmailData)
    (order : list Provider) (cbs : gmap string CircuitBreaker)
    (last_error : option string) (attempts : list Attempt)
  : Prog MailE MailExn (Delivery * gmap string CircuitBreaker) :=
  match order with
  | [] => Ret (all_failed last_error attempts, cbs)
  | p :: rest =>
      match cbs !! provider_name p with
      | None => Raise (BreakerKeyError (provider_name p))
      | Some cb =>
          '(ok, cb1) ← can_attempt_now cb;
          let cbs1 := <[provider_name p := cb1]> cbs in
          if negb ok then
            provider_loop max_retries email_data rest cbs1 last_error attempts
          else
            healthy ← call (IsHealthy p);
            if negb healthy then
              provider_loop max_retries email_data rest cbs1 last_error attempts
            else
              r ← attempt_loop max_retries p cb1 email_data
                     (seq 0 (Z.to_nat max_retries)) last_error attempts;
              match r with
              | inl (d, cb2) => Ret (d, <[provider_name p := cb2]> cbs1)
              | inr (last_error', attempts') =>
                  now ← call Time;
                  provider_loop max_retries email_data rest
                    (<[provider_name p := record_failure cb1 now]> cbs1)
                    last_error' attempts'
              end
      end
  end.

Definition _send_with_providers (sender : MultiProviderEmailSender)
    (email_data : EmailData)
  : Prog MailE MailExn (Delivery * gmap string CircuitBreaker) :=
  provider_loop (max_retries sender) email_data
    (provider_order (providers sender) email_data)
    (circuit_breakers sender) None [].

(** The [send_email] calls of a trace, in order, with what came back. *)
Fixpoint sends_of (t : list (Event MailE)) : list (string * SendOutcome) :=
  match t with
  | [] => []
  | Ev ev x :: t' =>
      match ev in MailE X return X -> list (string * SendOutcome) with
      | SendEmail p _ => fun out => (provider_name p, out) :: sends_of t'
      | _ => fun _ => sends_of t'
      end x
  end.




(** The identifier a record carries, when its field parses as an
    integer. *)
Definition parsed_id (record : gmap string string) : option Z :=
  PyStr.int (PyStr.strip (record_get record F_assigned_study_id "")).

(** The assigned identifiers that parse as integers and lie in the
    range, in repository order. *)
Definition ids_in_range (id_range : IdRange)
    (records : list (gmap string string)) : list Z :=
  List.filter (in_range id_range) (omap parsed_id records).

(** Scenario A: identifiers 3000, 3001 and 3005 are assigned. *)
Definition scenario_A_records : list (gmap string string) :=
  [ {[ F_record_id := "1"; F_assigned_study_id := "3000" ]};
    {[ F_record_id := "2"; F_assigned_study_id := "3001" ]};
    {[ F_record_id := "3"; F_assigned_study_id := "3005" ]};
    {[ F_record_id := "4"; F_assigned_study_id := "" ]} ].

(** The upper end of the healthy-control range is assigned. *)
Definition exhausted_records : list (gmap string string) :=
  [ {[ F_record_id := "7"; F_assigned_study_id := "10199" ]} ].

(** Sequencing of runs: what [run] gives for [m ≫= f], from the run of
    [m] and the runs of [f]. *)
Definition run_then {E Ex A B W}
    (r : Outcome Ex A * W * list (Event E))
    (k : A -> W -> Outcome Ex B * W * list (Event E))
  : Outcome Ex B * W * list (Event E) :=
  match r with
  | (Returned a, w, t) => let '(o, w', t') := k a w in (o, w', (t ++ t')%list)
  | (Raised e, w, t) => (Raised e, w, t)
  | (Starved, w, t) => (Starved, w, t)
  end.

(** What [run] gives for [try_ m], from the run of [m]. *)
Definition run_caught {E Ex A W} (r : Outcome Ex A * W * list (Event E))
  : Outcome Ex (Result Ex A) * W * list (Event E) :=
  match r with
  | (Returned a, w, t) => (Returned (Ok a), w, t)
  | (Raised e, w, t) => (Returned (Err e), w, t)
  | (Starved, w, t) => (Starved, w, t)
  end.

(** What [_make_request] makes of the answer to its [session.post]. *)
Definition request_outcome (client : REDCapClient) (res : PostResult)
  : Outcome Exn Response :=
  match res with
  | PostResponse response =>
      if (400 <=? resp_status_code response)%Z then
        Raised (ApiError (RedcapApiError_init
                  ("REDCap API Error: HTTP " ++ pretty (resp_status_code response))
                  (Some (resp_status_code response))
                  (Some (resp_text response))
                  (Some (concurrency_detection_list client))))
      else Returned response
  | PostRequestException e =>
      Raised (ApiError (RedcapApiError_init
                ("Network or Request Error: " ++ e) None None None))
  end.

Definition outcome_bind {Ex A B} (o : Outcome Ex A) (f : A -> Outcome Ex B)
  : Outcome Ex B :=
  match o with
  | Returned a => f a
  | Raised e => Raised e
  | Starved => Starved
  end.

Definition outcome_of_result {Ex A} (r : Result Ex A) : Outcome Ex A :=
  match r with
  | Ok a => Returned a
  | Err e => Raised e
  end.

Section ClientOutcomes.
Context {codec : JsonCodec}.

(** What [get_next_dynamic_id] makes of the answer to its export. *)
Definition read_outcome (client : REDCapClient) (group_type : string)
    (res : PostResult) : Outcome Exn Z :=
  outcome_bind (outcome_bind (request_outcome client res) decoded)
    (fun j => outcome_of_result (next_dynamic_id group_type (json_records j))).

(** What [import_records] makes of the answer to its import. *)
Definition write_outcome (client : REDCapClient) (res : PostResult)
  : Outcome Exn Json :=
  outcome_bind (request_outcome client res) decoded.

End ClientOutcomes.

Definition read_request : Request :=
  ExportRecords [F_record_id; F_assigned_study_id] None.

Definition flag_write (record_id : option string) (new_id : Z) : Request :=
  ImportRecords [update_data_with_flag record_id new_id] "overwrite".

Definition plain_write (record_id : option string) (new_id : Z) : Request :=
  ImportRecords [update_data record_id new_id] "overwrite".

Definition is_read (ev : Event RepoE) : bool :=
  match ev with
  | Ev (Post (ExportRecords _ _)) _ => true
  | _ => false
  end.

Definition is_write (ev : Event RepoE) : bool :=
  match ev with
  | Ev (Post (ImportRecords _ _)) _ => true
  | _ => false
  end.

(** [reads_at_most n p]: on every path, [p] exports at most [n] times. *)
Fixpoint reads_at_most {A} (n : nat) (p : Prog RepoE Exn A) : Prop :=
  match p with
  | Ret _ | Raise _ => True
  | Vis ev k =>
      match ev with
      | Post (ExportRecords _ _) =>
          match n with
          | O => False
          | S n' => forall x, reads_at_most n' (k x)
          end
      | _ => forall x, reads_at_most n (k x)
      end
  end.

(** A codec given by a table of texts and their decodings, for running
    the programs on concrete answers. *)
Definition table_codec (table : list (string * list (gmap string string)))
  : JsonCodec :=
  {| Json := list (gmap string string);
     json_loads := fun text =>
       snd <$> List.find (fun kv => String.eqb (fst kv) text) table;
     json_records := fun j => j |}.

(** ** [eligibility_checker.py]: EligibilityChecker *)

(** [record.get(key) == value]. *)
Definition field_is (record : gmap string string) (key value : string) : bool :=
  match record !! key with
  | Some v => String.eqb v value
  | None => false
  end.

Definition append_if (b : bool) (reason : string) (reasons : list string)
  : list string :=
  if b then (reasons ++ [reason])%list else reasons.

(** The self-reported QIDS score: whether it needs review, and the
    reasons it adds. *)
Definition check_qids (qids_score_str : string) : bool * list string :=
  if negb (PyStr.truthy qids_score_str) then
    (true, ["QIDS score is missing"])
  else
    match PyStr.int qids_score_str with
    | Some qids_score =>
        if negb ((0 <=? qids_score) && (qids_score <=? 27))%Z then
          (true, ["QIDS score out of valid range (0-27): " ++ pretty qids_score])
        else if (21 <=? qids_score)%Z then
          (false, ["QIDS score too high (" ++ pretty qids_score ++ " ≥ 21)"])
        else (false, [])
    | None =>
        (true, ["QIDS score is not a valid integer: '" ++ qids_score_str ++ "'"])
    end.

(** [check_eligibility].  [int(age)] is only reached for an [age] that
    [isdigit] accepts; for an age of ASCII characters, at most 4300 of
    them, it then succeeds, and this is the case embedded here.  For
    other digit characters, or more digits, Python raises [ValueError]
    out of [check_eligibility]. *)
Definition EligibilityChecker_check_eligibility (record : gmap string string)
  : string * list string :=
  if negb (field_is record F_consent "1") then
    ("INELIGIBLE", ["Did not agree to participate in screening"])
  else
    let age := record_get record "age_c4982e_ee0b48_0fa205_v2_fdabe5" "" in
    let under_age :=
      negb (PyStr.truthy age) || negb (PyStr.isdigit age)
      || match PyStr.int age with
         | Some a => (a <? 18)%Z
         | None => true
         end in
    let reasons := append_if under_age "Age: Must be 18 or older" [] in
    let reasons :=
      append_if (negb (field_is record "travel_e4c69a_ec4b4a_09fbe2_v2_1b9f19" "1"))
        "Unable to travel to Palo Alto for study visits" reasons in
    let reasons :=
      append_if (negb (field_is record "english_5c066f_a95c48_a35a95_v2_f6426d" "1"))
        "English fluency required for study participation" reasons in
    let reasons :=
      append_if (field_is record "tms_contra_d3aef1_4917df_ffe8d8_v2_3ff65f" "1")
        "Medical contraindications present for TMS treatment" reasons in
    let '(review, qids_reasons) :=
      check_qids (PyStr.strip (record_get record F_qids "")) in
    let reasons := (reasons ++ qids_reasons)%list in
    let email :=
      PyStr.strip (record_get record
                     "participant_email_a29017_723fd8_6c173d_v2_98aab5" "") in
    let reasons :=
      append_if (negb (PyStr.truthy email)) "No email address provided" reasons in
    if review then ("REVIEW_REQUIRED", reasons)
    else if Nat.eqb (length reasons) 0 then ("ELIGIBLE", reasons)
    else ("INELIGIBLE", reasons).

Definition eligibility_checker : EligibilityChecker :=
  {| check_eligibility := EligibilityChecker_check_eligibility |}.

(** A consenting adult with a QIDS score of 5 and no identifier yet. *)
Definition pending_record : gmap string string :=
  {[ F_record_id := "9"; F_consent := "1"; F_qids := "5";
     "age_c4982e_ee0b48_0fa205_v2_fdabe5" := "25";
     "travel_e4c69a_ec4b4a_09fbe2_v2_1b9f19" := "1";
     "english_5c066f_a95c48_a35a95_v2_f6426d" := "1";
     "tms_contra_d3aef1_4917df_ffe8d8_v2_3ff65f" := "0";
     "participant_email_a29017_723fd8_6c173d_v2_98aab5" := "p9@example.org" ]}.

Definition demo_codec : JsonCodec :=
  table_codec [("A", scenario_A_records); ("MAX", exhausted_records);
               ("OK", []);
               ("ONE", [ {[ F_record_id := "1";
                            F_assigned_study_id := "3000" ]} ]);
               ("BATCH", [pending_record])].


(** Concrete answers for running the allocator: an export showing
    3000, 3001 and 3005 assigned, a rejected duplicate, a server error
    and an accepted import. *)
Definition demo_client : REDCapClient :=
  mkClient ["unique constraint"; "duplicate"; "already exists"].

Definition answer_scenario_A : PostResult := PostResponse (mkResponse 200 "A").
Definition answer_duplicate : PostResult :=
  PostResponse (mkResponse 409 "Duplicate value for a unique field").
Definition answer_server_error : PostResult :=
  PostResponse (mkResponse 500 "Internal Server Error").
Definition answer_ok : PostResult := PostResponse (mkResponse 200 "OK").
Definition answer_at_max : PostResult := PostResponse (mkResponse 200 "MAX").

(** The export request that fetches the batch of candidate records. *)
Definition batch_request (retroactive : bool) : Request :=
  ExportRecords fields_to_fetch
    (if retroactive then None else Some filter_logic_pending).

(** The providers of a given sort key, in configured order. *)
Definition with_key (key : Provider -> nat) (n : nat) (ps : list Provider)
  : list Provider :=
  List.filter (fun p => (key p =? n)%nat) ps.

Definition is_sendgrid (p : Provider) : bool :=
  String.eqb (provider_name p) "sendgrid".

(** A relay and the API channel, configured in that order, and a
    recipient outside the domain. *)
Definition relay_then_api : list Provider :=
  [mkProvider "stanford_smtp" 0; mkProvider "sendgrid" 1].

Definition external_mail : EmailData :=
  mkEmailData "alice@example.org" "Study enrollment" "Hello".



(** Scripted providers: the answers to the successive [send_email] calls
    are read off a list (a lost connection once the list is used up);
    every provider is healthy, the clock stands at 1000 and the jitter
    is 0. *)
Definition mail_script : Handler MailE (list SendOutcome) :=
  fun X ev =>
    match ev in MailE X
          return list SendOutcome -> option (X * list SendOutcome) with
    | SendEmail _ _ => fun w => match w with
                                | out :: w' => Some (out, w')
                                | [] => Some (SendRaised "connection lost", [])
                                end
    | IsHealthy _ => fun w => Some (true, w)
    | Time => fun w => Some (1000, w)
    | RandomUniform => fun w => Some (0%Q, w)
    | SleepFor _ => fun w => Some (tt, w)
    end.

Definition result_ok : ProviderResult :=
  mkProviderResult true (Some "stanford_smtp") None false None None.

Definition result_rejected : ProviderResult :=
  mkProviderResult false (Some "sendgrid") (Some "Forbidden - check API key permissions")
    false (Some 403) None.

Definition api_then_relay : list Provider :=
  [mkProvider "sendgrid" 0; mkProvider "stanford_smtp" 1].







Definition demo_sender : MultiProviderEmailSender :=
  MultiProviderEmailSender_init api_then_relay 3.







(** No character of [s] is white space. *)
Fixpoint no_space (s : string) : bool :=
  match s with
  | EmptyString => true
  | String c s' => negb (PyStr.isspace c) && no_space s'
  end.

(** [reads s k v]: [s] is made of [k] digits and is read as [v] after
    any digits read before it. *)
Definition reads (s : string) (k : Z) (v : Z) : Prop :=
  0 <= k /\ no_space s = true /\
  (s = "" -> k = 0) /\
  (forall c s', s = String c s' -> is_Some (PyStr.digit_of c)) /\
  forall acc, PyStr.int_digits acc s = Some (acc * 10 ^ k + v).

(** ** [eligible_id_assigner.py]: get_statistics *)

(** The figures [get_statistics] prints. *)
Record Statistics := mkStatistics {
  st_total_records : Z;
  st_total_assigned : Z;
  st_healthy_controls : Z;
  st_mdd_participants : Z;
  st_ineligible : Z;
  st_review_required : Z;
  st_pending : Z;
  st_next_healthy_control : Z;
  st_next_mdd : Z
}.

(** The counters of the first loop of [get_statistics]:
    [(total_assigned, healthy_controls, mdd_participants, ineligible,
    review_required, pending)]. *)
Fixpoint count_loop (hc mdd : IdRange) (records : list (gmap string string))
    (acc : Z * Z * Z * Z * Z * Z) : Z * Z * Z * Z * Z * Z :=
  match records with
  | [] => acc
  | record :: rest =>
      let '(total_assigned, healthy_controls, mdd_participants,
            ineligible, review_required, pending) := acc in
      let status := PyStr.strip (record_get record F_status "") in
      let study_id := PyStr.strip (record_get record F_assigned_study_id "") in
      let '(total_assigned, healthy_controls, mdd_participants) :=
        if PyStr.truthy study_id then
          match PyStr.int study_id with
          | Some id_value =>
              if in_range hc id_value
              then (total_assigned + 1, healthy_controls + 1, mdd_participants)
              else if in_range mdd id_value
              then (total_assigned + 1, healthy_controls, mdd_participants + 1)
              else (total_assigned + 1, healthy_controls, mdd_participants)
          | None => (total_assigned + 1, healthy_controls, mdd_participants)
          end
        else (total_assigned, healthy_controls, mdd_participants) in
      let '(ineligible, review_required, pending) :=
        if String.eqb status "ineligible" || String.eqb status "ineligible_notified"
        then (ineligible + 1, review_required, pending)
        else if String.eqb status "manual_review_required"
        then (ineligible, review_required + 1, pending)
        else if String.eqb status "pending" || negb (PyStr.truthy status)
        then (ineligible, review_required, pending + 1)
        else (ineligible, review_required, pending) in
      count_loop hc mdd rest
        (total_assigned, healthy_controls, mdd_participants,
         ineligible, review_required, pending)
  end.

(** The second loop: the highest identifier of each range. *)
Fixpoint max_loop (hc mdd : IdRange) (records : list (gmap string string))
    (max_hc_id max_mdd_id : Z) : Z * Z :=
  match records with
  | [] => (max_hc_id, max_mdd_id)
  | record :: rest =>
      let id_str := PyStr.strip (record_get record F_assigned_study_id "") in
      if PyStr.truthy id_str then
        match PyStr.int id_str with
        | Some id_value =>
            if in_range hc id_value
            then max_loop hc mdd rest (Z.max max_hc_id id_value) max_mdd_id
            else if in_range mdd id_value
            then max_loop hc mdd rest max_hc_id (Z.max max_mdd_id id_value)
            else max_loop hc mdd rest max_hc_id max_mdd_id
        | None => max_loop hc mdd rest max_hc_id max_mdd_id
        end
      else max_loop hc mdd rest max_hc_id max_mdd_id
  end.

(** The part of [get_statistics] after the export. *)
Definition statistics_of (records : list (gmap string string))
  : Result Exn Statistics :=
  match ID_RANGES !! "healthy_control", ID_RANGES !! "mdd_participant" with
  | Some hc, Some mdd =>
      let '(total_assigned, healthy_controls, mdd_participants,
            ineligible, review_required, pending) :=
        count_loop hc mdd records (0, 0, 0, 0, 0, 0) in
      let '(max_hc_id, max_mdd_id) :=
        max_loop hc mdd records (rmin hc - 1) (rmin mdd - 1) in
      Ok (mkStatistics (Z.of_nat (length records)) total_assigned
            healthy_controls mdd_participants ineligible review_required
            pending
            (if (rmin hc <=? max_hc_id)%Z then max_hc_id + 1 else rmin hc)
            (if (rmin mdd <=? max_mdd_id)%Z then max_mdd_id + 1 else rmin mdd))
  | None, _ => Err (KeyError "healthy_control")
  | _, None => Err (KeyError "mdd_participant")
  end.

Section Statistics.
Context {codec : JsonCodec}.

(** [get_statistics]: the printed figures, or [None] when the export
    raised a [RedcapApiError], which is logged. *)
Definition get_statistics (client : REDCapClient)
  : Prog RepoE Exn (option Statistics) :=
  r ← try_ (export_records client
              [F_record_id; F_assigned_study_id; F_status; F_qids] None);
  match r with
  | Ok records =>
      stats ← lift_result (statistics_of records);
      Ret (Some stats)
  | Err (ApiError _) => Ret None
  | Err e => Raise e
  end.

End Statistics.

(** [str.isascii()]: every character is below 128.  On such strings
    [PyStr.isdigit] and [PyStr.int] are the builtins, [int] up to its
    limit of 4300 digits. *)
Fixpoint isascii (s : string) : bool :=
  match s with
  | EmptyString => true
  | String c s' => (nat_of_ascii c <? 128)%nat && isascii s'
  end.

(** The age field is one on which [int(age)], where line 38 reaches it,
    does not raise: ASCII text of at most 4300 characters. *)
Definition plain_age (record : gmap string string) : Prop :=
  let age := record_get record "age_c4982e_ee0b48_0fa205_v2_fdabe5" "" in
  isascii age = true /\ (String.length age <= 4300)%nat.

(** ** [eligibility_checker.py]: completion *)

Definition required_fields : list string :=
  [F_consent;
   "age_c4982e_ee0b48_0fa205_v2_fdabe5";
   "sex_634a04_a9a3bb_e901e8_v2_dde73f";
   "distance_9be230_fb24eb_648eba_v2_a26a45";
   "travel_e4c69a_ec4b4a_09fbe2_v2_1b9f19";
   "english_5c066f_a95c48_a35a95_v2_f6426d";
   "tms_contra_d3aef1_4917df_ffe8d8_v2_3ff65f";
   "med_yn_d3a1fe_53665b_605b05_v2_320ffa";
   F_qids;
   "participant_email_a29017_723fd8_6c173d_v2_98aab5"].

(** The dictionary returned by [get_completion_status]; the percentage
    is kept as an exact fraction (the source rounds it to two decimals). *)
Record Completion := mkCompletion {
  is_complete : bool;
  completion_percentage : Q;
  completed_fields : list string;
  missing_fields : list string;
  total_required : nat
}.

(** The [for field in required_fields] loop. *)
Fixpoint completion_loop (record : gmap string string) (fields : list string)
    (completed missing : list string) : list string * list string :=
  match fields with
  | [] => (completed, missing)
  | field :: rest =>
      if PyStr.truthy (PyStr.strip (record_get record field ""))
      then completion_loop record rest (completed ++ [field])%list missing
      else completion_loop record rest completed (missing ++ [field])%list
  end.

Definition get_completion_status (record : gmap string string) : Completion :=
  let '(completed, missing) := completion_loop record required_fields [] [] in
  mkCompletion (Nat.eqb (length missing) 0)
    (inject_Z (Z.of_nat (length completed))
     / inject_Z (Z.of_nat (length required_fields)) * 100)%Q
    completed missing (length required_fields).

Definition needs_processing (record : gmap string string) : bool :=
  let completion := get_completion_status record in
  let has_email :=
    PyStr.truthy (PyStr.strip
      (record_get record "participant_email_a29017_723fd8_6c173d_v2_98aab5" "")) in
  is_complete completion && has_email.

(** ** Exceptions a program can raise *)

(** [prog_post Q P p]: whatever the answers, a value returned by [p]
    satisfies [Q] and an exception raised by [p] satisfies [P]. *)
Fixpoint prog_post {E : Type -> Type} {Ex A : Type} (Q : A -> Prop)
    (P : Ex -> Prop) (p : Prog E Ex A) : Prop :=
  match p with
  | Ret a => Q a
  | Raise e => P e
  | Vis ev k => forall x, prog_post Q P (k x)
  end.

Definition is_api_error (e : Exn) : Prop :=
  match e with ApiError _ => True | _ => False end.

Definition is_value_error (e : Exn) : Prop :=
  match e with ValueError _ => True | _ => False end.

Definition is_unbound_local (e : Exn) : Prop :=
  match e with UnboundLocalError _ => True | _ => False end.

Definition api_or_value (e : Exn) : Prop := is_api_error e \/ is_value_error e.

Definition value_or_unbound (e : Exn) : Prop :=
  is_value_error e \/ is_unbound_local e.

(** [record.get(field, '').strip()] is not empty. *)
Definition filled (record : gmap string string) (field : string) : bool :=
  PyStr.truthy (PyStr.strip (record_get record field "")).

(** ** [redcap_client.py]: REDCapClient.__init__ *)

(** [s.split(sep)] for a one-character separator, as the first piece and
    the pieces after it: there is always a first piece. *)
Fixpoint split_pieces (sep : ascii) (s : string) : string * list string :=
  match s with
  | EmptyString => (EmptyString, [])
  | String c s' =>
      let '(piece, pieces) := split_pieces sep s' in
      if Ascii.eqb c sep then (EmptyString, piece :: pieces)
      else (String c piece, pieces)
  end.

Definition str_split (s : string) (sep : ascii) : list string :=
  let '(piece, pieces) := split_pieces sep s in piece :: pieces.

(** [os.getenv(key)] is truthy. *)
Definition getenv_truthy (environ : gmap string string) (key : string) : bool :=
  match environ !! key with
  | Some v => PyStr.truthy v
  | None => false
  end.

(** [REDCapClient.__init__], from the process environment: the
    constructor raises [ValueError] without URL or token, and reads the
    detection strings of the client. *)
Definition REDCapClient_init (environ : gmap string string)
  : Result Exn REDCapClient :=
  if negb (getenv_truthy environ "REDCAP_API_URL")
     || negb (getenv_truthy environ "REDCAP_API_TOKEN")
  then Err (ValueError "REDCap API URL and TOKEN must be set in .env file")
  else
    let concurrency_strings :=
      match environ !! "REDCAP_CONCURRENCY_STRINGS" with
      | Some v => v
      | None => "unique constraint,duplicate,already exists"
      end in
    Ok (mkClient (List.map (fun s => PyStr.lower (PyStr.strip s))
                    (str_split concurrency_strings ","))).

(** ** Counting the [send_email] calls of the dispatcher *)

(** The [send_email] calls of a trace that go to a provider selected by
    [sel]. *)
Fixpoint count_sends (sel : Provider -> bool) (t : list (Event MailE)) : nat :=
  match t with
  | [] => 0
  | Ev ev _ :: t' =>
      match ev with
      | SendEmail p _ => if sel p then S (count_sends sel t') else count_sends sel t'
      | _ => count_sends sel t'
      end
  end.

(** [sends_at_most ans sel n p]: as long as every answer satisfies [ans],
    [p] calls [send_email] of the providers selected by [sel] at most [n]
    times. *)
Fixpoint sends_at_most {Ex A} (ans : forall X, MailE X -> X -> Prop)
    (sel : Provider -> bool) (n : nat) (p : Prog MailE Ex A) : Prop :=
  match p with
  | Ret _ | Raise _ => True
  | Vis ev k =>
      match ev with
      | SendEmail q _ =>
          if sel q then
            match n with
            | O => False
            | S n' => forall x, ans _ ev x -> sends_at_most ans sel n' (k x)
            end
          else forall x, ans _ ev x -> sends_at_most ans sel n (k x)
      | _ => forall x, ans _ ev x -> sends_at_most ans sel n (k x)
      end
  end.

(** The environment [h] gives only answers that satisfy [ans]. *)
Definition answers {E : Type -> Type} {W} (h : Handler E W)
    (ans : forall X, E X -> X -> Prop) : Prop :=
  forall X (ev : E X) w x w', h X ev w = Some (x, w') -> ans X ev x.

Definition any_answer : forall X, MailE X -> X -> Prop := fun _ _ _ => True.
(** The answers of a provider whose [send_email] returns a dictionary
    without [retry] and [status_code] entries and lets no exception out,
    as the SMTP handlers do. *)
Definition plain_failures (sel : Provider -> bool)
  : forall X, MailE X -> X -> Prop :=
  fun X ev =>
    match ev in MailE X return X -> Prop with
    | SendEmail p _ => fun out =>
        sel p = true ->
        exists r, out = SendReturned r /\ res_retry r = false
                  /\ res_status_code r = None
    | _ => fun _ => True
    end.

(** The clock readings at which a breaker whose last failure was at [t]
    has not timed out. *)
Definition clock_within (t recovery : Z) : forall X, MailE X -> X -> Prop :=
  fun X ev =>
    match ev in MailE X return X -> Prop with
    | Time => fun now => now - t <= recovery
    | _ => fun _ => True
    end.

Definition named (name : string) (p : Provider) : bool :=
  String.eqb (provider_name p) name.

(** An environment in which every [send_email] is refused the way an
    SMTP handler reports it; every provider is healthy, the clock stands
    at 1000 and the jitter is 0. *)
Definition result_refused : ProviderResult :=
  mkProviderResult false (Some "stanford_smtp")
    (Some "SMTP error: relay access denied") false None None.

Definition refusing : Handler MailE unit :=
  fun X ev =>
    match ev in MailE X return unit -> option (X * unit) with
    | SendEmail _ _ => fun w => Some (SendReturned result_refused, w)
    | IsHealthy _ => fun w => Some (true, w)
    | Time => fun w => Some (1000, w)
    | RandomUniform => fun w => Some (0%Q, w)
    | SleepFor _ => fun w => Some (tt, w)
    end.

(** ** [common/email_sender.py]: EmailMetrics *)

(** [provider_stats] maps a provider name to its [success] and
    [failure] counters. *)
Record EmailMetrics := mkMetrics {
  sent_count : Z;
  failed_count : Z;
  provider_stats : gmap string (Z * Z)
}.

Definition EmailMetrics_init : EmailMetrics := mkMetrics 0 0 ∅.

Definition record_send (m : EmailMetrics) (d : Delivery) : EmailMetrics :=
  let provider := default "unknown" (provider d) in
  let '(successes, failures) :=
    default (0, 0) (provider_stats m !! provider) in
  mkMetrics
    (if success d then sent_count m + 1 else sent_count m)
    (if success d then failed_count m else failed_count m + 1)
    (<[provider := if success d then (successes + 1, failures)
                   else (successes, failures + 1)]> (provider_stats m)).

(** [d] is what some run of [_send_with_providers] returned. *)
Definition dispatched (d : Delivery) : Prop :=
  exists sender email_data W (h : Handler MailE W) w cbs' w' t,
    run h (_send_with_providers sender email_data) w
    = (Returned (d, cbs'), w', t).

(** A success names its provider, a failure names none. *)
Definition names_provider (d : Delivery) : Prop :=
  if success d then is_Some (provider d) else provider d = None.

(** What the dispatcher returns when its only provider refuses. *)
Definition refused_delivery : Delivery :=
  all_failed (Some "SMTP error: relay access denied")
    [mkAttempt "stanford_smtp" 1 (Some result_refused) None].

(** ** [common/email_sender.py]: SendGridProvider._handle_sendgrid_error *)

(** The dictionary [error_info], without the [details] copied from the
    error body. *)
Record ErrorInfo := mkErrorInfo {
  info_retry : bool;
  info_reason : string;
  info_wait : option Z
}.

(** The dictionary literal [error_mapping]; [wait] is the value of
    [int(error.headers.get('Retry-After', 60))], which the literal
    computes whatever the status code is. *)
Definition error_mapping (wait : Z) : list (Z * ErrorInfo) :=
  [(400, mkErrorInfo false "Bad request - check email format and content" None);
   (401, mkErrorInfo false "Authentication failed - check API key" None);
   (403, mkErrorInfo false "Forbidden - check API key permissions" None);
   (413, mkErrorInfo false "Payload too large - reduce attachment size" None);
   (429, mkErrorInfo true "Rate limited" (Some wait));
   (500, mkErrorInfo true "SendGrid server error" None);
   (502, mkErrorInfo true "Bad gateway" None);
   (503, mkErrorInfo true "Service unavailable" None);
   (504, mkErrorInfo true "Gateway timeout" None)].

(** [d.get(key)] on a dictionary literal with distinct keys. *)
Fixpoint dict_get {A} (d : list (Z * A)) (key : Z) : option A :=
  match d with
  | [] => None
  | (k, v) :: d' => if (k =? key)%Z then Some v else dict_get d' key
  end.

(** [_handle_sendgrid_error] for an error with the given status code and
    [Retry-After] header; [None] is the [ValueError] of [int()]. *)
Definition _handle_sendgrid_error (status_code : Z)
    (retry_after : option string) : option ErrorInfo :=
  wait ← match retry_after with
         | Some v => PyStr.int v
         | None => Some 60
         end;
  Some (default (mkErrorInfo false "Unknown error" None)
          (dict_get (error_mapping wait) status_code)).

(** ** [common/email_sender.py]: StanfordSMTPHandler.validate_config *)

(** [validate_config] on the handler's [config] dictionary: the result
    is the dictionary afterwards, or the [KeyError] of a missing entry. *)
Definition validate_config (config : gmap string string)
  : Result Exn (gmap string string) :=
  match config !! "username" with
  | None => Err (KeyError "username")
  | Some username =>
      match config !! "from_email" with
      | None => Err (KeyError "from_email")
      | Some from_email =>
          let '(config1, sunet_id) :=
            if PyStr.contains "@" username then
              let sunet_id := hd "" (str_split username "@") in
              (<["username" := sunet_id]> config, sunet_id)
            else (config, username) in
          let expected_from := sunet_id ++ "@stanford.edu" in
          if negb (String.eqb (PyStr.lower from_email)
                     (PyStr.lower expected_from))
          then Ok (<["from_email" := expected_from]> config1)
          else Ok config1
      end
  end.

(** ** [common/email_sender.py]: the SMTP handlers as an environment *)

(** [self.consecutive_failures] of each SMTP handler, by provider
    identity; a handler starts at 0. *)
Definition consecutive_failures (counts : gmap nat Z) (p : Provider) : Z :=
  default 0 (counts !! provider_id p).

(** The dictionary an SMTP handler's [send_email] returns: it has no
    [retry] and no [status_code] entry. *)
Definition smtp_result (p : Provider) (sent : bool) : ProviderResult :=
  mkProviderResult sent (Some (provider_name p))
    (if sent then None else Some "SMTP error: connection refused")
    false None None.

(** SMTP handlers against a scripted mail server: the script says
    whether each delivery goes through (it does not once the script is
    used up).  [send_email] resets the handler's counter on success and
    increments it on failure; [is_healthy] is
    [consecutive_failures < 3].  The clock stands at 1000 and the jitter
    is 0. *)
Definition smtp_env : Handler MailE (gmap nat Z * list bool) :=
  fun X ev =>
    match ev in MailE X
          return gmap nat Z * list bool
                 -> option (X * (gmap nat Z * list bool)) with
    | SendEmail p _ => fun w =>
        let sent := hd false w.2 in
        Some (SendReturned (smtp_result p sent),
              (<[provider_id p :=
                   if sent then 0 else consecutive_failures w.1 p + 1]> w.1,
               tl w.2))
    | IsHealthy p => fun w => Some ((consecutive_failures w.1 p <? 3)%Z, w)
    | Time => fun w => Some (1000, w)
    | RandomUniform => fun w => Some (0%Q, w)
    | SleepFor _ => fun w => Some (tt, w)
    end.

(** ** [common/email_sender.py]: REDCapEligibilityProcessor.get_next_id *)

(** The number read off a [study_id]: the part after the first '-' when
    the identifier carries the category prefix, the whole identifier
    otherwise; [None] is an exception, which the loop swallows. *)
Definition study_number (prefix sid : string) : option Z :=
  if PyStr.contains "-" sid && PyStr.startswith sid prefix then
    match str_split sid "-" with
    | _ :: piece :: _ => PyStr.int piece
    | _ => None
    end
  else PyStr.int sid.

(** The [for r in records] loop of either branch, from the running
    maximum. *)
Fixpoint max_study_id (is_hc : bool) (records : list (gmap string string))
    (max_id : Z) : Z :=
  match records with
  | [] => max_id
  | r :: rest =>
      let sid := record_get r "study_id" "" in
      let max_id' :=
        if PyStr.truthy sid then
          match study_number (if is_hc then "HC-" else "MDD-") sid with
          | Some num =>
              if (if is_hc then num <? 10000 else 10000 <=? num)%Z
              then Z.max max_id num else max_id
          | None => max_id
          end
        else max_id in
      max_study_id is_hc rest max_id'
  end.

(** The part of [get_next_id] after the export. *)
Definition get_next_id (is_hc : bool) (records : list (gmap string string))
  : Z :=
  max_study_id is_hc records (if is_hc then 3465 else 10925) + 1.

(** ** What a worker reports, and what its last call left behind *)

















(** * Properties *)

(** ** Strings *)

Module PyStrFacts.
Import PyStr.

Lemma startswith_spec s p :
  startswith s p = true <-> exists post, s = p ++ post.
Proof.
  revert s. induction p as [|a p IH]; intros s; simpl.
  - split; [intros _; now exists s | reflexivity].
  - destruct s as [|b s].
    + split; [discriminate | intros [post H]; discriminate].
    + destruct (Ascii.eqb_spec a b) as [->|Hne].
      * rewrite IH. split; intros [post H]; exists post.
        -- simpl. now rewrite H.
        -- simpl in H. now inversion H.
      * split; [discriminate|]. intros [post H]. simpl in H.
        inversion H. congruence.
Qed.

Lemma contains_spec sub s :
  contains sub s = true <-> exists pre post, s = pre ++ sub ++ post.
Proof.
  induction s as [|c s IH]; simpl.
  - destruct (startswith "" sub) eqn:E.
    + apply startswith_spec in E as [post E]. split; [|done].
      intros _. exists "", post. done.
    + split; [discriminate|]. intros (pre & post & H).
      assert (startswith "" sub = true); [|congruence].
      apply startswith_spec. exists post.
      destruct pre; simpl in H; [done|discriminate].
  - destruct (startswith (String c s) sub) eqn:E.
    + apply startswith_spec in E as [post E]. split; [|done].
      intros _. exists "", post. done.
    + rewrite IH. split.
      * intros (pre & post & ->). exists (String c pre), post. done.
      * intros (pre & post & H). destruct pre as [|c' pre]; simpl in H.
        -- assert (startswith (String c s) sub = true); [|congruence].
           apply startswith_spec. eauto.
        -- inversion H; subst. eauto.
Qed.

Lemma truthy_spec s : truthy s = true <-> s <> "".
Proof. destruct s; simpl; split; congruence. Qed.

Lemma append_nil_r s : s ++ "" = s.
Proof.
  induction s as [|c s IH]; [done|].
  change (String c (s ++ "") = String c s). by rewrite IH.
Qed.

Lemma rev_app_append s1 s2 s3 :
  String.rev_app s1 (s2 ++ s3) = String.rev_app s1 s2 ++ s3.
Proof.
  revert s2. induction s1 as [|c s1 IH]; intros s2; simpl; [done|].
  apply (IH (String c s2)).
Qed.

Lemma rev_append s1 s2 : String.rev (s1 ++ s2) = String.rev s2 ++ String.rev s1.
Proof.
  unfold String.rev.
  assert (H : forall acc, String.rev_app (s1 ++ s2) acc
                          = String.rev_app s2 (String.rev_app s1 acc)).
  { induction s1 as [|c s1 IH]; intros acc; simpl; [done|]. apply IH. }
  rewrite H. apply (rev_app_append s2 "" (String.rev_app s1 "")).
Qed.

Lemma rev_involutive s : String.rev (String.rev s) = s.
Proof.
  unfold String.rev.
  assert (H : forall a b, String.rev_app (String.rev_app s a) b
                          = String.rev_app a (s ++ b)).
  { induction s as [|c s IH]; intros a b; simpl; [done|]. by rewrite IH. }
  rewrite H. simpl. apply append_nil_r.
Qed.

Lemma endswith_spec s suf :
  endswith s suf = true <-> exists pre, s = pre ++ suf.
Proof.
  unfold endswith. rewrite startswith_spec. split.
  - intros [post H]. exists (String.rev post).
    rewrite <- (rev_involutive s), H, rev_append. by rewrite rev_involutive.
  - intros [pre ->]. exists (String.rev pre). apply rev_append.
Qed.

End PyStrFacts.

(** ** The transient-error classifier *)

Lemma status_in_spec sc l :
  status_in sc l = true <-> exists c, sc = Some c /\ In c l.
Proof.
  destruct sc as [c|]; simpl.
  - rewrite existsb_exists. split.
    + intros (x & Hx & Heq). apply Z.eqb_eq in Heq. subst. eauto.
    + intros (x & [= <-] & Hx). exists c. split; [done|]. apply Z.eqb_refl.
  - split; [discriminate|]. intros (c & H & _). discriminate.
Qed.

Lemma any_detection_spec body_lower ds :
  any_detection body_lower ds = true <->
  exists d, In d ds /\ PyStr.contains (PyStr.lower d) body_lower = true.
Proof.
  induction ds as [|d ds IH]; simpl.
  - split; [discriminate|]. intros (d & [] & _).
  - destruct (PyStr.contains (PyStr.lower d) body_lower) eqn:E.
    + split; [|done]. intros _. exists d. auto.
    + rewrite IH. split.
      * intros (d' & Hin & Hc). eauto.
      * intros (d' & [<-|Hin] & Hc); [congruence|eauto].
Qed.

(** C5: the classifier answers true exactly when the status code is one
    of 400, 409, 422 and the response body is present, non-empty and
    contains, ignoring case, one of the error's detection strings; in
    every other case (no status code, no body, no match) it answers
    false.  The detection strings default to "unique constraint",
    "duplicate" and "already exists". *)
Theorem is_unique_constraint_violation_iff :
  (forall e : RedcapApiError,
     is_unique_constraint_violation e = true <->
     (exists c, status_code e = Some c /\ In c [400; 409; 422]) /\
     (exists body, response_body e = Some body /\ body <> "" /\
        exists d pre post,
          In d (detection_strings e) /\
          PyStr.lower body = pre ++ PyStr.lower d ++ post)) /\
  (forall e : RedcapApiError,
     is_unique_constraint_violation e = false <->
     ~ ((exists c, status_code e = Some c /\ In c [400; 409; 422]) /\
        (exists body, response_body e = Some body /\ body <> "" /\
           exists d pre post,
             In d (detection_strings e) /\
             PyStr.lower body = pre ++ PyStr.lower d ++ post))) /\
  (forall msg sc body,
     detection_strings (RedcapApiError_init msg sc body None)
     = ["unique constraint"; "duplicate"; "already exists"]).
Proof.
  assert (Hiff : forall e : RedcapApiError,
     is_unique_constraint_violation e = true <->
     (exists c, status_code e = Some c /\ In c [400; 409; 422]) /\
     (exists body, response_body e = Some body /\ body <> "" /\
        exists d pre post,
          In d (detection_strings e) /\
          PyStr.lower body = pre ++ PyStr.lower d ++ post)).
  { intros e. unfold is_unique_constraint_violation, collision_status_codes.
    destruct (response_body e) as [body|].
    - destruct (status_in (status_code e) [400; 409; 422]) eqn:Hs;
        destruct (PyStr.truthy body) eqn:Ht; cbn [andb].
      + apply status_in_spec in Hs. apply PyStrFacts.truthy_spec in Ht.
        rewrite any_detection_spec. split.
        * intros (d & Hin & Hc). apply PyStrFacts.contains_spec in Hc as (pre & post & Hc).
          split; [exact Hs|]. exists body. repeat split; try done.
          exists d, pre, post. done.
        * intros (_ & body' & [= <-] & _ & d & pre & post & Hin & Hc).
          exists d. split; [done|]. apply PyStrFacts.contains_spec. eauto.
      + split; [discriminate|].
        intros (_ & body' & [= <-] & Hne & _).
        apply PyStrFacts.truthy_spec in Hne. congruence.
      + split; [discriminate|]. intros (Hc & _).
        apply status_in_spec in Hc. congruence.
      + split; [discriminate|]. intros (Hc & _).
        apply status_in_spec in Hc. congruence.
    - split; [discriminate|]. intros (_ & body & H & _). discriminate. }
  split; [exact Hiff|]. split; [|reflexivity].
  intros e. rewrite <- Hiff.
  destruct (is_unique_constraint_violation e); split; congruence.
Qed.

(** ** The next-candidate computation *)

Lemma ID_RANGES_lookup group_type id_range :
  ID_RANGES !! group_type = Some id_range ->
  id_range = mkRange 3000 10199 \/ id_range = mkRange 10200 20000.
Proof.
  unfold ID_RANGES. rewrite lookup_insert. case_decide.
  - intros [= <-]. by left.
  - rewrite lookup_singleton. case_decide; [|discriminate].
    intros [= <-]. by right.
Qed.

Lemma collect_existing_ids_app id_range records acc :
  collect_existing_ids id_range records acc
  = (acc ++ ids_in_range id_range records)%list.
Proof.
  revert acc. induction records as [|record rest IH]; intros acc.
  - simpl. by rewrite app_nil_r.
  - cbn [collect_existing_ids]. rewrite IH. unfold ids_in_range.
    cbn [omap list_omap]. unfold parsed_id at 2.
    destruct (PyStr.truthy _) eqn:Ht.
    + destruct (PyStr.int _) as [v|]; [|done].
      cbn [List.filter]. destruct (in_range id_range v); [|done].
      by rewrite <- app_assoc.
    + destruct (PyStr.strip _); [|discriminate]. done.
Qed.

Lemma py_max_upper x xs : forall y, In y (x :: xs) -> y <= py_max x xs.
Proof.
  unfold py_max. revert x. induction xs as [|z xs IH]; intros x y; simpl.
  - intros [<-|[]]. lia.
  - intros [<-|[<-|Hin]].
    + etrans; [|apply IH; by left]. lia.
    + etrans; [|apply IH; by left]. lia.
    + apply IH. by right.
Qed.

Lemma py_max_in x xs : In (py_max x xs) (x :: xs).
Proof.
  unfold py_max. revert x. induction xs as [|z xs IH]; intros x; simpl.
  - by left.
  - destruct (IH (Z.max x z)) as [H|H]; [|by right; right].
    rewrite <- H. destruct (Z.max_spec x z) as [[_ ->]|[_ ->]]; auto.
Qed.

Lemma ids_in_range_bounds id_range records v :
  In v (ids_in_range id_range records) -> rmin id_range <= v <= rmax id_range.
Proof.
  unfold ids_in_range. rewrite filter_In. unfold in_range.
  intros [_ H]. apply andb_true_iff in H as [H1 H2]. lia.
Qed.

(** With 10199 assigned, at least one identifier of the healthy-control
    range exists and [max(existing) + 1] is 10200, yet the computation
    does not return it: it raises. *)
Lemma next_dynamic_id_at_max_counterexample :
  ids_in_range (mkRange 3000 10199) exhausted_records = [10199] /\
  next_dynamic_id "healthy_control" exhausted_records <> Ok (10199 + 1) /\
  next_dynamic_id "healthy_control" exhausted_records
  = Err (ValueError "ID range exhausted for healthy_control. Max ID 10199 reached.").
Proof. vm_compute. repeat split; discriminate. Qed.

(** C2 (amended): the computation keeps the assigned identifiers that
    parse as integers and lie in the category's range; it returns the
    range's minimum when there is none, and otherwise [max + 1] provided
    that does not exceed the range's maximum (it raises the
    range-exhausted [ValueError] when it does).  With 3000, 3001 and 3005
    assigned, the healthy-control candidate is 3006. *)
Theorem next_dynamic_id_spec :
  (forall group_type id_range records,
     ID_RANGES !! group_type = Some id_range ->
     collect_existing_ids id_range records [] = ids_in_range id_range records /\
     match ids_in_range id_range records with
     | [] => next_dynamic_id group_type records = Ok (rmin id_range)
     | x :: xs =>
         exists m,
           In m (x :: xs) /\ (forall y, In y (x :: xs) -> y <= m) /\
           next_dynamic_id group_type records
           = if (m + 1 <=? rmax id_range)%Z then Ok (m + 1)
             else Err (ValueError (exhausted_message group_type id_range))
     end) /\
  next_dynamic_id "healthy_control" scenario_A_records = Ok 3006.
Proof.
  split; [|reflexivity].
  intros group_type id_range records Hr.
  pose proof (collect_existing_ids_app id_range records []) as Hc.
  simpl in Hc. split; [exact Hc|].
  unfold next_dynamic_id. rewrite Hr, Hc.
  destruct (ids_in_range id_range records) as [|x xs]; [done|].
  exists (py_max x xs). split; [apply py_max_in|].
  split; [apply py_max_upper|]. cbv zeta.
  destruct (Z.ltb_spec (rmax id_range) (py_max x xs + 1));
    destruct (Z.leb_spec (py_max x xs + 1) (rmax id_range)); done || lia.
Qed.

Lemma next_dynamic_id_spec_witness :
  ID_RANGES !! "healthy_control" = Some (mkRange 3000 10199) /\
  exists m,
    In m [3000; 3001; 3005] /\ (forall y, In y [3000; 3001; 3005] -> y <= m) /\
    next_dynamic_id "healthy_control" scenario_A_records
    = if (m + 1 <=? 10199)%Z then Ok (m + 1)
      else Err (ValueError (exhausted_message "healthy_control"
                              (mkRange 3000 10199))).
Proof.
  split; [reflexivity|].
  exact (proj2 (proj1 next_dynamic_id_spec "healthy_control"
                  (mkRange 3000 10199) scenario_A_records eq_refl)).
Defined.

(** ** Runs of programs *)

Section RunFacts.
Context {E : Type -> Type} {Ex W : Type} (h : Handler E W).

Lemma run_bind {A B} (m : Prog E Ex A) (f : A -> Prog E Ex B) w :
  run h (m ≫= f) w = run_then (run h m w) (fun a w' => run h (f a) w').
Proof.
  change (m ≫= f) with (bind m f).
  revert w. induction m as [a|e|X ev k IH]; intros w; simpl.
  - destruct (run h (f a) w) as [[o w'] t]. done.
  - done.
  - destruct (h X ev w) as [[x w']|]; [|done].
    rewrite IH. destruct (run h (k x) w') as [[[a|e|] w''] t]; simpl; try done.
    destruct (run h (f a) w'') as [[o w3] t']. done.
Qed.

Lemma run_try {A} (m : Prog E Ex A) w :
  run h (try_ m) w = run_caught (run h m w).
Proof.
  revert w. induction m as [a|e|X ev k IH]; intros w; simpl; try done.
  destruct (h X ev w) as [[x w']|]; [|done].
  rewrite IH. by destruct (run h (k x) w') as [[[a|e|] w''] t].
Qed.

End RunFacts.

(** ** The client against a scripted repository *)

Section AssignerFacts.
Context {codec : JsonCodec}.

Lemma run_make_request client data res script :
  run scripted (_make_request client data) (res :: script)
  = (request_outcome client res, script, [Ev (Post data) res]).
Proof.
  unfold _make_request, request_outcome. cbn.
  destruct res as [response|e]; [|done].
  by destruct (400 <=? resp_status_code response)%Z.
Qed.

Lemma run_loads text (script : list PostResult) :
  run scripted (loads text) script
  = (match json_loads text with
     | Some j => Returned j
     | None => Raised (ValueError "JSONDecodeError")
     end, script, []).
Proof. unfold loads. by destruct (json_loads text). Qed.

Lemma run_import_records client records overwrite res script :
  run scripted (import_records client records overwrite) (res :: script)
  = (outcome_bind (request_outcome client res) decoded, script,
     [Ev (Post (ImportRecords records overwrite)) res]).
Proof.
  unfold import_records. rewrite run_bind, run_make_request.
  destruct (request_outcome client res) as [response|e|];
    cbn [run_then outcome_bind]; try done.
  rewrite run_loads. unfold decoded.
  by destruct (json_loads (resp_text response)).
Qed.

Lemma run_get_next_dynamic_id client group_type res script :
  run scripted (get_next_dynamic_id client group_type) (res :: script)
  = (outcome_bind (outcome_bind (request_outcome client res) decoded)
       (fun j => outcome_of_result
                   (next_dynamic_id group_type (json_records j))),
     script,
     [Ev (Post (ExportRecords [F_record_id; F_assigned_study_id] None)) res]).
Proof.
  unfold get_next_dynamic_id, export_records.
  rewrite !run_bind, run_make_request.
  destruct (request_outcome client res) as [response|e|];
    cbn [run_then outcome_bind]; try done.
  rewrite run_bind, run_loads. unfold decoded.
  destruct (json_loads (resp_text response)) as [j|];
    cbn [run_then outcome_bind run]; [|done].
  by destruct (next_dynamic_id group_type (json_records j)).
Qed.

Lemma run_write_first_ok client record_id nid w1 script j :
  write_outcome client w1 = Returned j ->
  run scripted (write_assignment client record_id nid) (w1 :: script)
  = (Returned j, script, [Ev (Post (flag_write record_id nid)) w1]).
Proof.
  intros Hw. unfold write_assignment.
  rewrite run_bind, run_try, run_import_records.
  fold (write_outcome client w1). rewrite Hw. done.
Qed.

Lemma run_write_fallback client record_id nid w1 w2 script e1 :
  write_outcome client w1 = Raised (ApiError e1) ->
  run scripted (write_assignment client record_id nid) (w1 :: w2 :: script)
  = (write_outcome client w2, script,
     [Ev (Post (flag_write record_id nid)) w1;
      Ev (Post (plain_write record_id nid)) w2]).
Proof.
  intros Hw. unfold write_assignment.
  rewrite run_bind, run_try, run_import_records.
  fold (write_outcome client w1). rewrite Hw.
  cbn [run_caught run_then]. rewrite run_import_records. done.
Qed.

Lemma next_dynamic_id_exhausted group_type id_range records :
  ID_RANGES !! group_type = Some id_range ->
  In (rmax id_range) (ids_in_range id_range records) ->
  next_dynamic_id group_type records
  = Err (ValueError (exhausted_message group_type id_range)).
Proof.
  intros Hr Hin. unfold next_dynamic_id. rewrite Hr.
  pose proof (collect_existing_ids_app id_range records []) as Hc.
  simpl in Hc. rewrite Hc.
  destruct (ids_in_range id_range records) as [|x xs]; [destruct Hin|].
  pose proof (py_max_upper x xs _ Hin). cbv zeta.
  destruct (Z.ltb_spec (rmax id_range) (py_max x xs + 1)); [done|lia].
Qed.

Lemma next_dynamic_id_in_range group_type id_range records v :
  ID_RANGES !! group_type = Some id_range ->
  next_dynamic_id group_type records = Ok v ->
  rmin id_range <= v <= rmax id_range.
Proof.
  intros Hr. unfold next_dynamic_id. rewrite Hr.
  pose proof (collect_existing_ids_app id_range records []) as Hc.
  simpl in Hc. rewrite Hc.
  pose proof (ids_in_range_bounds id_range records) as Hb.
  destruct (ids_in_range id_range records) as [|x xs].
  - intros [= <-]. apply ID_RANGES_lookup in Hr as [->| ->]; simpl; lia.
  - cbv zeta. destruct (Z.ltb_spec (rmax id_range) (py_max x xs + 1));
      [discriminate|]. intros [= <-].
    specialize (Hb _ (py_max_in x xs)). lia.
Qed.

(** C4: when the upper end of the category's range is already assigned,
    the computation raises the range-exhausted [ValueError]; the retry
    loop then stops at once: the run consists of the one export, no
    import is posted, the remaining attempts are not run, and the record
    is counted as an error.  Whatever the repository holds, a candidate
    that is returned lies within the range. *)
Theorem range_exhausted_is_fatal client record_id group_type id_range
    attempt rest last loc response j script :
  ID_RANGES !! group_type = Some id_range ->
  resp_status_code response < 400 ->
  json_loads (resp_text response) = Some j ->
  In (rmax id_range) (ids_in_range id_range (json_records j)) ->
  next_dynamic_id group_type (json_records j)
  = Err (ValueError (exhausted_message group_type id_range)) /\
  run scripted (get_next_dynamic_id client group_type)
    (PostResponse response :: script)
  = (Raised (ValueError (exhausted_message group_type id_range)), script,
     [Ev (Post read_request) (PostResponse response)]) /\
  run scripted
    (retry_loop client record_id group_type (attempt :: rest) last loc)
    (PostResponse response :: script)
  = (Returned (false, attempt, bump_errors loc), script,
     [Ev (Post read_request) (PostResponse response)]) /\
  (exists loc',
     run scripted (assign_id client record_id group_type loc)
       (PostResponse response :: script)
     = (Returned loc', script, [Ev (Post read_request) (PostResponse response)])
     /\ processed (stats loc') = processed (stats loc)
     /\ errors (stats loc) < errors (stats loc')) /\
  (forall records v,
     next_dynamic_id group_type records = Ok v ->
     rmin id_range <= v <= rmax id_range).
Proof.
  intros Hr Hs Hj Hin.
  pose proof (next_dynamic_id_exhausted _ _ _ Hr Hin) as Hnext.
  assert (Hread : read_outcome client group_type (PostResponse response)
                  = Raised (ValueError (exhausted_message group_type id_range))).
  { unfold read_outcome, request_outcome, decoded.
    destruct (Z.leb_spec 400 (resp_status_code response)); [lia|].
    cbn [outcome_bind]. rewrite Hj. cbn [outcome_bind]. by rewrite Hnext. }
  assert (Hloop : forall a todo l,
    run scripted (retry_loop client record_id group_type (a :: todo) l loc)
      (PostResponse response :: script)
    = (Returned (false, a, bump_errors loc), script,
       [Ev (Post read_request) (PostResponse response)])).
  { intros a todo l. cbn [retry_loop].
    rewrite run_bind, run_try, run_get_next_dynamic_id.
    fold (read_outcome client group_type (PostResponse response)).
    rewrite Hread. done. }
  split; [exact Hnext|]. split.
  { rewrite run_get_next_dynamic_id.
    fold (read_outcome client group_type (PostResponse response)).
    by rewrite Hread. }
  split; [apply Hloop|]. split.
  - unfold assign_id. rewrite run_bind. cbn [seq MAX_RETRIES].
    rewrite Hloop. cbn [run_then run negb andb Nat.eqb Nat.sub].
    eexists. split; [reflexivity|]. cbn. split; [done|lia].
  - intros records v. by apply next_dynamic_id_in_range.
Qed.



Lemma reads_at_most_mono {A} n m (p : Prog RepoE Exn A) :
  (n <= m)%nat -> reads_at_most n p -> reads_at_most m p.
Proof.
  revert n m. induction p as [a|e|X ev k IH]; intros n m Hle; simpl; try done.
  destruct ev as [[fields filter|records overwrite]|seconds].
  - destruct n as [|n]; [done|]. destruct m as [|m]; [lia|].
    intros Hk x. apply (IH x n m); [lia|apply Hk].
  - intros Hk x. by apply (IH x n m).
  - intros Hk x. by apply (IH x n m).
Qed.

Lemma reads_at_most_bind {A B} n k (m : Prog RepoE Exn A)
    (f : A -> Prog RepoE Exn B) :
  reads_at_most n m -> (forall a, reads_at_most k (f a)) ->
  reads_at_most (n + k) (m ≫= f).
Proof.
  change (m ≫= f) with (bind m f).
  intros Hm Hf. revert n Hm.
  induction m as [a|e|X ev c IH]; intros n Hm; simpl.
  - apply (reads_at_most_mono k); [lia|apply Hf].
  - done.
  - simpl in Hm. destruct ev as [[fields filter|records overwrite]|seconds].
    + destruct n as [|n]; [done|]. intros x. apply IH, Hm.
    + intros x. apply IH, Hm.
    + intros x. apply IH, Hm.
Qed.

Lemma reads_at_most_try {A} n (m : Prog RepoE Exn A) :
  reads_at_most n m -> reads_at_most n (try_ m).
Proof.
  revert n. induction m as [a|e|X ev c IH]; intros n; simpl; try done.
  destruct ev as [[fields filter|records overwrite]|seconds].
  - destruct n as [|n]; [done|]. intros Hm x. apply IH, Hm.
  - intros Hm x. apply IH, Hm.
  - intros Hm x. apply IH, Hm.
Qed.

Lemma reads_at_most_run {A W} (h : Handler RepoE W) n
    (p : Prog RepoE Exn A) w :
  reads_at_most n p ->
  (length (List.filter is_read (run h p w).2) <= n)%nat.
Proof.
  revert n w. induction p as [a|e|X ev k IH]; intros n w; simpl; try lia.
  intros Hp. destruct (h X ev w) as [[x w']|]; [|simpl; lia].
  specialize (IH x).
  destruct ev as [[fields filter|records overwrite]|seconds].
  - destruct n as [|n]; [done|]. specialize (IH n w' (Hp x)).
    destruct (run h (k x) w') as [[o w''] t]. simpl in *. lia.
  - specialize (IH n w' (Hp x)).
    destruct (run h (k x) w') as [[o w''] t]. simpl in *. lia.
  - specialize (IH n w' (Hp x)).
    destruct (run h (k x) w') as [[o w''] t]. simpl in *. lia.
Qed.

Lemma reads_import_records client records overwrite :
  reads_at_most 0 (import_records client records overwrite).
Proof.
  unfold import_records, _make_request, loads. cbn.
  intros [response|e]; [|done].
  destruct (400 <=? resp_status_code response)%Z; [done|].
  cbn. by destruct (json_loads (resp_text response)).
Qed.

Lemma reads_write_assignment client record_id nid :
  reads_at_most 0 (write_assignment client record_id nid).
Proof.
  unfold write_assignment.
  apply (reads_at_most_bind 0 0).
  - apply reads_at_most_try, reads_import_records.
  - intros [j|[e|m|k|n]]; try done. apply reads_import_records.
Qed.

Lemma reads_get_next_dynamic_id client group_type :
  reads_at_most 1 (get_next_dynamic_id client group_type).
Proof.
  unfold get_next_dynamic_id, export_records, _make_request, loads. cbn.
  intros [response|e]; [|done].
  destruct (400 <=? resp_status_code response)%Z; [done|].
  cbn. destruct (json_loads (resp_text response)); [|done].
  cbn. by destruct (next_dynamic_id _ _).
Qed.

Lemma reads_on_error n attempt e loc
    (continue_ : Prog RepoE Exn (bool * nat * Locals)) :
  reads_at_most n continue_ -> reads_at_most n (on_error attempt e loc continue_).
Proof.
  intros Hc. unfold on_error. destruct e as [err|m|k|v]; try done.
  destruct (is_unique_constraint_violation err); [|done].
  destruct (new_id loc); [|done].
  destruct (attempt <? MAX_RETRIES - 1)%nat; [|done].
  cbn. by intros [].
Qed.

Lemma reads_retry_loop client record_id group_type todo last loc :
  reads_at_most (length todo)
    (retry_loop client record_id group_type todo last loc).
Proof.
  revert last loc. induction todo as [|attempt rest IH]; intros last loc.
  - done.
  - cbn [retry_loop length].
    apply (reads_at_most_bind 1 (length rest)).
    + apply reads_at_most_try, reads_get_next_dynamic_id.
    + intros [nid|e]; [|apply reads_on_error, IH].
      apply (reads_at_most_bind 0 (length rest)).
      * apply reads_at_most_try, reads_write_assignment.
      * intros [j|e]; [done|]. apply reads_on_error, IH.
Qed.

(** C3 (amended): within one attempt the write is posted with the
    [id_assigned] flag and, when that raises any API error, once more
    without the flag for the same candidate.  When this second write
    fails too and its failure is classified as a uniqueness violation,
    the loop sleeps [0.5 * 2^attempt] seconds (except after the last
    attempt) and runs the remaining attempts, each starting from a fresh
    export; when the second failure is not so classified, the record is
    counted as an error and nothing more is posted.  A record is read
    for at most [MAX_RETRIES = 3] attempts. *)
Theorem collision_retry client record_id group_type attempt rest last loc
    r w1 w2 script c e1 e2 :
  read_outcome client group_type r = Returned c ->
  write_outcome client w1 = Raised (ApiError e1) ->
  write_outcome client w2 = Raised (ApiError e2) ->
  run scripted
    (retry_loop client record_id group_type (attempt :: rest) last loc)
    (r :: w1 :: w2 :: script)
  = (if is_unique_constraint_violation e2 then
       run_then
         (Returned tt, script,
          [Ev (Post read_request) r;
           Ev (Post (flag_write record_id c)) w1;
           Ev (Post (plain_write record_id c)) w2]
          ++ (if (attempt <? MAX_RETRIES - 1)%nat
              then [Ev (Sleep (backoff attempt)) tt] else []))%list
         (fun _ s =>
            run scripted
              (retry_loop client record_id group_type rest attempt
                 (set_new_id loc c)) s)
     else
       (Returned (false, attempt, bump_errors (set_new_id loc c)), script,
        [Ev (Post read_request) r;
         Ev (Post (flag_write record_id c)) w1;
         Ev (Post (plain_write record_id c)) w2])) /\
  (forall attempt' rest' last' loc' r' script',
     exists o s t,
       run scripted
         (retry_loop client record_id group_type (attempt' :: rest') last' loc')
         (r' :: script')
       = (o, s, Ev (Post read_request) r' :: t)) /\
  (forall W (h : Handler RepoE W) w loc0,
     (length (List.filter is_read
        (run h (assign_id client record_id group_type loc0) w).2)
      <= MAX_RETRIES)%nat) /\
  MAX_RETRIES = 3%nat /\
  (backoff 0 == 1 # 2)%Q /\ (backoff 1 == 1)%Q.
Proof.
  intros Hr Hw1 Hw2. split; [|split; [|split]].
  - cbn [retry_loop].
    rewrite run_bind, run_try, run_get_next_dynamic_id.
    fold (read_outcome client group_type r). rewrite Hr.
    cbn [run_caught run_then].
    rewrite run_bind, run_try, (run_write_fallback _ _ _ _ _ _ e1 Hw1), Hw2.
    cbn [run_caught run_then]. unfold on_error.
    destruct (is_unique_constraint_violation e2); [|done].
    cbn [new_id set_new_id].
    destruct (attempt <? MAX_RETRIES - 1)%nat.
    + rewrite run_bind. cbn [call run scripted run_then].
      destruct (run scripted _ script) as [[o s] t]. done.
    + cbn [run_then].
      destruct (run scripted _ script) as [[o s] t].
      by rewrite app_nil_r.
  - intros attempt' rest' last' loc' r' script'. cbn [retry_loop].
    rewrite run_bind, run_try, run_get_next_dynamic_id.
    destruct (outcome_bind _ _) as [nid|e|]; cbn [run_caught run_then].
    + destruct (run scripted _ script') as [[o s] t]. eauto.
    + destruct (run scripted _ script') as [[o s] t]. eauto.
    + eauto.
  - intros W h w loc0. apply reads_at_most_run. unfold assign_id.
    apply (reads_at_most_bind 3 0);
      [exact (reads_retry_loop client record_id group_type
                (seq 0 MAX_RETRIES) 0%nat loc0)|].
    by intros [[ok a] l].
  - done.
Qed.

Lemma request_outcome_failure client res :
  is_failure res -> exists e, request_outcome client res = Raised (ApiError e).
Proof.
  destruct res as [response|msg]; simpl; [|eauto].
  intros Hs. destruct (Z.leb_spec 400 (resp_status_code response)); [eauto|lia].
Qed.

Section BatchFacts.
Context {checker : EligibilityChecker}.

Lemma run_batch_export client (retroactive : bool) res script :
  run scripted
    (if retroactive return Prog RepoE Exn (list (gmap string string))
     then export_records client fields_to_fetch None
     else export_records client fields_to_fetch (Some filter_logic_pending))
    (res :: script)
  = (outcome_bind (outcome_bind (request_outcome client res) decoded)
       (fun j => Returned (json_records j)),
     script, [Ev (Post (batch_request retroactive)) res]).
Proof.
  assert (Ht : PyStr.truthy filter_logic_pending = true) by reflexivity.
  unfold batch_request.
  destruct retroactive; unfold export_records; rewrite ?Ht;
    rewrite run_bind, run_make_request;
    (destruct (request_outcome client res) as [response|e|];
     cbn [run_then outcome_bind]; try done;
     rewrite run_bind, run_loads; unfold decoded;
     by destruct (json_loads (resp_text response))).
Qed.

(** C10 (amended): a network error or a failed HTTP response is raised by
    the client as a [RedcapApiError]; when it occurs while the batch of
    candidate records is fetched, [process_records] catches it and
    returns 0 to its caller: nothing is raised, no record is processed
    and nothing further is posted. *)
Theorem fetch_failure_returns_zero client retroactive res script :
  is_failure res ->
  (exists e,
     run scripted (_make_request client (batch_request retroactive))
       (res :: script)
     = (Raised (ApiError e), script, [Ev (Post (batch_request retroactive)) res]))
  /\
  run scripted (process_records client retroactive) (res :: script)
  = (Returned 0, script, [Ev (Post (batch_request retroactive)) res]).
Proof.
  intros Hf. destruct (request_outcome_failure client res Hf) as [e He].
  split.
  - exists e. by rewrite run_make_request, He.
  - unfold process_records.
    rewrite run_bind, run_try, run_batch_export, He. done.
Qed.

End BatchFacts.

End AssignerFacts.

(** ** The allocator on concrete answers *)

Lemma range_exhausted_is_fatal_witness :
  In (rmax (mkRange 3000 10199))
     (ids_in_range (mkRange 3000 10199) exhausted_records) /\
  run scripted
    (retry_loop (codec := demo_codec) demo_client (Some "8") "healthy_control"
       [0; 1; 2]%nat 0%nat initial_locals)
    [answer_at_max; answer_ok]
  = (Returned (false, 0%nat, bump_errors initial_locals), [answer_ok],
     [Ev (Post read_request) answer_at_max]).
Proof.
  assert (Hin : In (rmax (mkRange 3000 10199))
                  (ids_in_range (mkRange 3000 10199) exhausted_records)).
  { vm_compute. by left. }
  split; [exact Hin|].
  refine (proj1 (proj2 (proj2
    (range_exhausted_is_fatal (codec := demo_codec) demo_client (Some "8")
       "healthy_control" (mkRange 3000 10199) 0%nat [1; 2]%nat 0%nat
       initial_locals (mkResponse 200 "MAX") exhausted_records [answer_ok]
       _ _ _ Hin)))).
  - reflexivity.
  - simpl. lia.
  - reflexivity.
Defined.

(** A write that fails with a server error, which is not a uniqueness
    violation, is neither fatal for the record nor left without a second
    try: the same candidate is written again without the flag, and the
    record is assigned. *)
Lemma server_error_write_counterexample :
  (exists e,
     write_outcome (codec := demo_codec) demo_client answer_server_error
     = Raised (ApiError e) /\
     is_unique_constraint_violation e = false) /\
  run scripted
    (assign_id (codec := demo_codec) demo_client (Some "4") "healthy_control"
       initial_locals)
    [answer_scenario_A; answer_server_error; answer_ok]
  = (Returned (mkLocals (mkStats 1 1 0 0 0 0 0) (Some 3006)), [],
     [Ev (Post read_request) answer_scenario_A;
      Ev (Post (flag_write (Some "4") 3006)) answer_server_error;
      Ev (Post (plain_write (Some "4") 3006)) answer_ok]).
Proof.
  split.
  - eexists. split; [reflexivity|]. reflexivity.
  - reflexivity.
Qed.

Lemma collision_retry_witness :
  read_outcome (codec := demo_codec) demo_client "healthy_control"
    answer_scenario_A = Returned 3006 /\
  run scripted
    (retry_loop (codec := demo_codec) demo_client (Some "4") "healthy_control"
       [1; 2]%nat 0%nat initial_locals)
    [answer_scenario_A; answer_duplicate; answer_duplicate;
     answer_scenario_A; answer_duplicate; answer_server_error]
  = (Returned (false, 2%nat, bump_errors (set_new_id initial_locals 3006)), [],
     [Ev (Post read_request) answer_scenario_A;
      Ev (Post (flag_write (Some "4") 3006)) answer_duplicate;
      Ev (Post (plain_write (Some "4") 3006)) answer_duplicate;
      Ev (Sleep (backoff 1)) tt;
      Ev (Post read_request) answer_scenario_A;
      Ev (Post (flag_write (Some "4") 3006)) answer_duplicate;
      Ev (Post (plain_write (Some "4") 3006)) answer_server_error]).
Proof.
  split; [reflexivity|].
  pose proof (proj1 (collision_retry (codec := demo_codec) demo_client
    (Some "4") "healthy_control" 1%nat [2]%nat 0%nat initial_locals
    answer_scenario_A answer_duplicate answer_duplicate
    [answer_scenario_A; answer_duplicate; answer_server_error] 3006
    _ _ eq_refl eq_refl eq_refl)) as H.
  exact H.
Defined.

(** Three attempts that all collide: the sleeps are 0.5 and 1 second,
    there is no fourth read, and the record is counted as an error. *)
Example three_collisions_run :
  run scripted
    (assign_id (codec := demo_codec) demo_client (Some "4") "healthy_control"
       initial_locals)
    [answer_scenario_A; answer_duplicate; answer_duplicate;
     answer_scenario_A; answer_duplicate; answer_duplicate;
     answer_scenario_A; answer_duplicate; answer_duplicate;
     answer_scenario_A]
  = (Returned (mkLocals (mkStats 0 0 0 0 0 0 1) (Some 3006)),
     [answer_scenario_A],
     [Ev (Post read_request) answer_scenario_A;
      Ev (Post (flag_write (Some "4") 3006)) answer_duplicate;
      Ev (Post (plain_write (Some "4") 3006)) answer_duplicate;
      Ev (Sleep (backoff 0)) tt;
      Ev (Post read_request) answer_scenario_A;
      Ev (Post (flag_write (Some "4") 3006)) answer_duplicate;
      Ev (Post (plain_write (Some "4") 3006)) answer_duplicate;
      Ev (Sleep (backoff 1)) tt;
      Ev (Post read_request) answer_scenario_A;
      Ev (Post (flag_write (Some "4") 3006)) answer_duplicate;
      Ev (Post (plain_write (Some "4") 3006)) answer_duplicate]).
Proof. reflexivity. Qed.

Lemma fetch_failure_returns_zero_witness :
  is_failure (PostRequestException "Connection refused") /\
  run scripted
    (process_records (codec := demo_codec) (checker := eligibility_checker)
       demo_client false)
    [PostRequestException "Connection refused"]
  = (Returned 0, [],
     [Ev (Post (batch_request false)) (PostRequestException "Connection refused")]).
Proof.
  split; [exact I|].
  exact (proj2 (fetch_failure_returns_zero (codec := demo_codec)
                  (checker := eligibility_checker) demo_client false
                  (PostRequestException "Connection refused") [] I)).
Defined.

(** A batch of one pending record, with 3000, 3001 and 3005 assigned:
    the record is found eligible and gets 3006. *)
Example process_records_assigns :
  run scripted
    (process_records (codec := demo_codec) (checker := eligibility_checker)
       demo_client false)
    [PostResponse (mkResponse 200 "BATCH"); answer_scenario_A; answer_ok]
  = (Returned 1, [],
     [Ev (Post (batch_request false)) (PostResponse (mkResponse 200 "BATCH"));
      Ev (Post read_request) answer_scenario_A;
      Ev (Post (flag_write (Some "9") 3006)) answer_ok]).
Proof. vm_compute. reflexivity. Qed.

(** A network error while the batch is fetched is not propagated: the
    call returns 0. *)
Lemma fetch_failure_counterexample :
  (run scripted
     (process_records (codec := demo_codec) (checker := eligibility_checker)
        demo_client false)
     [PostRequestException "Connection refused"]).1.1
  = Returned 0 /\
  (run scripted
     (process_records (codec := demo_codec) (checker := eligibility_checker)
        demo_client true)
     [answer_server_error]).1.1
  = Returned 0.
Proof. split; reflexivity. Qed.

(** ** The circuit breaker *)

Lemma apply_op_config cb op :
  failure_threshold (apply_op cb op) = failure_threshold cb /\
  recovery_timeout (apply_op cb op) = recovery_timeout cb /\
  (0 <= failure_count cb -> 0 <= failure_count (apply_op cb op)).
Proof.
  destruct op as [|now|now]; simpl; try (repeat split; lia).
  unfold can_attempt. destruct (state cb); simpl; try done.
  destruct (last_failure_time cb) as [t|]; [|done].
  by destruct (_ && _)%bool.
Qed.

Lemma reachable_config ft rt st ops :
  let cb := foldl apply_op (CircuitBreaker_init ft rt st) ops in
  failure_threshold cb = ft /\ recovery_timeout cb = rt /\ 0 <= failure_count cb.
Proof.
  induction ops as [|op ops IH] using rev_ind; simpl.
  - repeat split; lia.
  - rewrite foldl_app. simpl. simpl in IH. destruct IH as (H1 & H2 & H3).
    destruct (apply_op_config (foldl apply_op (CircuitBreaker_init ft rt st) ops) op)
      as (G1 & G2 & G3).
    repeat split; [congruence|congruence|auto].
Qed.

Lemma record_failures_config cb times :
  let cb' := record_failures cb times in
  failure_threshold cb' = failure_threshold cb /\
  recovery_timeout cb' = recovery_timeout cb /\
  failure_count cb' = failure_count cb + Z.of_nat (length times).
Proof.
  revert cb. induction times as [|t times IH]; intros cb; simpl.
  - repeat split; lia.
  - destruct (IH (record_failure cb t)) as (H1 & H2 & H3).
    unfold record_failures in *. simpl in *. repeat split; try done. lia.
Qed.

Lemma record_failures_last cb times t :
  failure_threshold cb <= failure_count cb + Z.of_nat (length times) + 1 ->
  state (record_failures cb (times ++ [t])) = OPEN /\
  last_failure_time (record_failures cb (times ++ [t])) = Some t.
Proof.
  intros Hle. unfold record_failures. rewrite foldl_app. simpl.
  destruct (record_failures_config cb times) as (H1 & H2 & H3).
  unfold record_failures in *. rewrite H1, H3.
  destruct (Z.leb_spec (failure_threshold cb)
              (failure_count cb + Z.of_nat (length times) + 1)); [done|lia].
Qed.

Lemma can_attempts_open_early cb t probes :
  state cb = OPEN -> last_failure_time cb = Some t ->
  Forall (fun now => now - t <= recovery_timeout cb) probes ->
  can_attempts cb probes = (replicate (length probes) false, cb).
Proof.
  intros Hs Ht. induction 1 as [|now probes Hnow _ IH]; simpl; [done|].
  unfold can_attempt at 1. rewrite Hs, Ht.
  destruct (Z.ltb_spec (recovery_timeout cb) (now - t)); [lia|].
  rewrite andb_false_r, IH. done.
Qed.

Lemma can_attempts_app cb l1 l2 :
  can_attempts cb (l1 ++ l2)
  = let '(oks1, cb1) := can_attempts cb l1 in
    let '(oks2, cb2) := can_attempts cb1 l2 in
    ((oks1 ++ oks2)%list, cb2).
Proof.
  revert cb. induction l1 as [|now l1 IH]; intros cb; simpl.
  - by destruct (can_attempts cb l2).
  - destruct (can_attempt cb now) as [ok cb1]. rewrite IH.
    destruct (can_attempts cb1 l1) as [oks1 cb2].
    by destruct (can_attempts cb2 l2).
Qed.

(** C6: take a breaker in any state a process can reach.  After
    [failure_threshold] consecutive [record_failure] calls it is open;
    every [can_attempt] call made while [now - last_failure_time <=
    recovery_timeout] returns false and leaves the breaker as it is,
    however many such calls are made; the first [can_attempt] call made
    after [recovery_timeout] has elapsed returns true and moves the
    breaker to half-open.  The defaults are 5 failures and 60 seconds.
    The failure time is a clock reading other than 0 (a reading of 0
    counts as no failure time in [can_attempt]). *)
Theorem breaker_open_until_timeout ft rt st ops fails t_last probes late :
  length (fails ++ [t_last]) = Z.to_nat ft ->
  t_last <> 0 ->
  Forall (fun now => now - t_last <= rt) probes ->
  rt < late - t_last ->
  let cb0 := foldl apply_op (CircuitBreaker_init ft rt st) ops in
  let cb1 := record_failures cb0 (fails ++ [t_last]) in
  state cb1 = OPEN /\
  last_failure_time cb1 = Some t_last /\
  can_attempts cb1 probes = (replicate (length probes) false, cb1) /\
  (can_attempts cb1 (probes ++ [late])).1
  = (replicate (length probes) false ++ [true])%list /\
  state (can_attempts cb1 (probes ++ [late])).2 = HALF_OPEN /\
  failure_threshold CircuitBreaker_default = 5 /\
  recovery_timeout CircuitBreaker_default = 60.
Proof.
  intros Hlen Ht0 Hprobes Hlate cb0 cb1.
  destruct (reachable_config ft rt st ops) as (Hc1 & Hc2 & Hc3).
  fold cb0 in Hc1, Hc2, Hc3.
  destruct (record_failures_config cb0 (fails ++ [t_last])) as (Hd1 & Hd2 & _).
  fold cb1 in Hd1, Hd2.
  assert (Hopen : state cb1 = OPEN /\ last_failure_time cb1 = Some t_last).
  { apply record_failures_last. rewrite length_app in Hlen. simpl in Hlen. lia. }
  destruct Hopen as [Hs Hl].
  assert (Hearly : can_attempts cb1 probes
                   = (replicate (length probes) false, cb1)).
  { apply (can_attempts_open_early cb1 t_last); [done|done|].
    by rewrite Hd2, Hc2. }
  assert (Hprobe : exists cb2,
            can_attempt cb1 late = (true, cb2) /\ state cb2 = HALF_OPEN).
  { unfold can_attempt. rewrite Hs, Hl, Hd2, Hc2. simpl.
    destruct (Z.eqb_spec t_last 0); [done|].
    destruct (Z.ltb_spec rt (late - t_last)); [|lia].
    simpl. eauto. }
  destruct Hprobe as (cb2 & Hprobe & Hs2).
  repeat split; try done.
  - by rewrite can_attempts_app, Hearly; simpl; rewrite Hprobe.
  - by rewrite can_attempts_app, Hearly; simpl; rewrite Hprobe.
Qed.

Lemma breaker_open_until_timeout_witness :
  let cb1 := record_failures CircuitBreaker_default [100; 101; 102; 103; 104] in
  state cb1 = OPEN /\
  can_attempts cb1 [104; 105; 130; 164; 164] = ([false; false; false; false; false], cb1) /\
  (can_attempts cb1 [104; 105; 130; 164; 164; 165]).1
  = [false; false; false; false; false; true] /\
  state (can_attempts cb1 [104; 105; 130; 164; 164; 165]).2 = HALF_OPEN.
Proof.
  assert (Hp : Forall (fun now => now - 104 <= 60) [104; 105; 130; 164; 164]).
  { repeat constructor; lia. }
  destruct (breaker_open_until_timeout 5 60 2 [] [100; 101; 102; 103] 104
              [104; 105; 130; 164; 164] 165
              eq_refl ltac:(lia) Hp ltac:(lia))
    as (H1 & _ & H3 & H4 & H5 & _).
  repeat split; assumption.
Defined.

(** ** The rate limiter *)

Lemma evict_length now window l :
  (length (evict now window l) <= length l)%nat.
Proof.
  induction l as [|c l IH]; simpl; [lia|].
  destruct (SFleb c (float_sub now window)); simpl; lia.
Qed.

Lemma acquire_config rl now :
  max_calls (acquire rl now).2 = max_calls rl /\
  time_window (acquire rl now).2 = time_window rl.
Proof.
  unfold acquire. destruct (calls rl) as [|c l].
  - by destruct (0 <? max_calls rl)%Z.
  - destruct (float_of_int (time_window rl)) as [window|]; [|done].
    cbv zeta. destruct (_ <? _)%Z; [done|].
    by destruct (evict now window (c :: l)).
Qed.

Lemma acquire_length rl now :
  1 <= max_calls rl ->
  Z.of_nat (length (calls rl)) <= max_calls rl ->
  Z.of_nat (length (calls (acquire rl now).2)) <= max_calls rl.
Proof.
  intros Hcap Hlen. unfold acquire. destruct (calls rl) as [|c l] eqn:Hcalls.
  - destruct (Z.ltb_spec 0 (max_calls rl)); simpl; [lia|].
    rewrite Hcalls. simpl. lia.
  - destruct (float_of_int (time_window rl)) as [window|];
      [|simpl; by rewrite Hcalls].
    cbv zeta. pose proof (evict_length now window (c :: l)) as He.
    set (live := evict now window (c :: l)) in *.
    assert (Hcl : length (c :: l) = S (length l)) by done.
    rewrite Hcl in *. clear Hcl.
    destruct (Z.ltb_spec (Z.of_nat (length live)) (max_calls rl)) as [Hlt|Hge].
    + cbn [snd calls]. rewrite length_app. cbn [length]. lia.
    + destruct live; cbn [snd calls length] in *; lia.
Qed.

Lemma acquire_all_invariant cap window times :
  1 <= cap ->
  let rl := acquire_all (RateLimiter_init cap window) times in
  max_calls rl = cap /\ time_window rl = window /\
  Z.of_nat (length (calls rl)) <= cap.
Proof.
  intros Hcap. induction times as [|now times IH] using rev_ind; simpl.
  - repeat split; simpl; lia.
  - unfold acquire_all in *. rewrite foldl_app. simpl.
    destruct IH as (H1 & H2 & H3).
    set (rl := foldl _ _ times) in *.
    destruct (acquire_config rl now) as [G1 G2].
    repeat split; [congruence|congruence|].
    rewrite <- H1. apply acquire_length; lia.
Qed.

(** C7: a limiter of capacity 1 and window 60 whose one recorded call
    was made [2 ^ -22] seconds after [2 ^ 31 - 60].  A call half a
    minute before [2 ^ 31] is refused with a wait of exactly 30 seconds;
    the caller sleeps that long and calls again at [2 ^ 31]: the call is
    not admitted and not recorded, it gets a wait time of 0.  The sum
    [oldest + 60] is [2 ^ 31 + 2 ^ -22], which is rounded to [2 ^ 31],
    while at [2 ^ 31] the recorded call is not yet older than the
    window. *)
Theorem acquire_after_wait_not_admitted :
  let rl := acquire_all (RateLimiter_init 1 60) [reading_before_2_31] in
  calls rl = [reading_before_2_31]
  /\ acquire rl half_minute_before_2_31 = (WaitTime (seconds 30), rl)
  /\ float_add half_minute_before_2_31 (seconds 30) = seconds (2 ^ 31)
  /\ acquire rl (seconds (2 ^ 31)) = (WaitTime (S754_zero false), rl).
Proof. vm_compute. repeat split. Qed.

(** Scenario D away from a power of two: capacity 2, window 60; three
    calls at 1000, 1000 and 1001; the third waits 59 and is admitted at
    1060. *)
Example acquire_scenario_D :
  let rl := acquire_all (RateLimiter_init 2 60) [seconds 1000; seconds 1000] in
  acquire rl (seconds 1001) = (WaitTime (seconds 59), rl)
  /\ float_add (seconds 1001) (seconds 59) = seconds 1060
  /\ acquire rl (seconds 1060)
     = (Allowed, mkRateLimiter 2 60 [seconds 1060]).
Proof. vm_compute. repeat split. Qed.

(** ** Provider ordering *)

Lemma insert_by_key_le {A} (key : A -> nat) x l :
  (forall y, In y l -> (key x <= key y)%nat) ->
  insert_by_key key x l = x :: l.
Proof.
  destruct l as [|y l]; [done|]. intros Hle. simpl.
  destruct (Nat.leb_spec (key x) (key y)); [done|].
  specialize (Hle y (or_introl eq_refl)). lia.
Qed.

Lemma insert_by_key_app {A} (key : A -> nat) x l1 l2 :
  (forall y, In y l1 -> (key y < key x)%nat) ->
  insert_by_key key x (l1 ++ l2) = (l1 ++ insert_by_key key x l2)%list.
Proof.
  induction l1 as [|y l1 IH]; intros Hlt; [done|]. simpl.
  destruct (Nat.leb_spec (key x) (key y)).
  - specialize (Hlt y (or_introl eq_refl)). lia.
  - rewrite IH; [done|]. intros z Hz. apply Hlt. by right.
Qed.

Lemma with_key_key key n ps y : In y (with_key key n ps) -> key y = n.
Proof.
  unfold with_key. rewrite filter_In. intros [_ H]. by apply Nat.eqb_eq.
Qed.

Lemma sorted_three_keys (key : Provider -> nat) ps :
  (forall p, (key p <= 2)%nat) ->
  sorted ps key
  = (with_key key 0 ps ++ with_key key 1 ps ++ with_key key 2 ps)%list.
Proof.
  intros Hk. induction ps as [|x ps IH]; [done|].
  cbn [sorted]. rewrite IH. unfold with_key at 4 5 6. cbn [List.filter].
  fold (with_key key 0 ps) (with_key key 1 ps) (with_key key 2 ps).
  specialize (Hk x).
  destruct (key x) as [|[|[|n]]] eqn:Ek; [| | |lia]; cbn [Nat.eqb].
  - apply insert_by_key_le. intros y _. lia.
  - rewrite insert_by_key_app.
    + rewrite insert_by_key_le; [done|].
      intros y [Hy|Hy]%in_app_or; apply with_key_key in Hy; lia.
    + intros y Hy. apply with_key_key in Hy. lia.
  - rewrite insert_by_key_app.
    + rewrite insert_by_key_app.
      * rewrite insert_by_key_le; [done|].
        intros y Hy. apply with_key_key in Hy. lia.
      * intros y Hy. apply with_key_key in Hy. lia.
    + intros y Hy. apply with_key_key in Hy. lia.
Qed.

Lemma key_stanford_spec p :
  (key_stanford p <= 2)%nat /\
  (key_stanford p = 0%nat <-> provider_name p = "sendgrid") /\
  (key_stanford p = 1%nat <-> provider_name p = "stanford_smtp").
Proof.
  unfold key_stanford.
  destruct (String.eqb_spec (provider_name p) "sendgrid") as [->|H1].
  - repeat split; try done; lia.
  - destruct (String.eqb_spec (provider_name p) "stanford_smtp") as [->|H2];
      repeat split; try done; lia.
Qed.

Lemma key_external_spec p :
  (key_external p <= 2)%nat /\
  (key_external p = 0%nat <-> provider_name p = "sendgrid") /\
  (key_external p = 2%nat <-> provider_name p = "stanford_smtp").
Proof.
  unfold key_external.
  destruct (String.eqb_spec (provider_name p) "sendgrid") as [->|H1].
  - repeat split; try done; lia.
  - destruct (String.eqb_spec (provider_name p) "stanford_smtp") as [->|H2];
      repeat split; try done; lia.
Qed.

(** With the relay configured first and a recipient outside the domain,
    the API channel is still tried first. *)
Lemma external_order_counterexample :
  is_stanford_recipient external_mail = false /\
  provider_order relay_then_api external_mail
  = [mkProvider "sendgrid" 1; mkProvider "stanford_smtp" 0].
Proof. split; reflexivity. Qed.

(** C8 (amended): for every recipient, inside the domain or not, the API
    channel (the providers named "sendgrid") is ordered before every
    relay.  The recipient's domain only decides the order among the
    relays: "stanford_smtp" comes before the other relays for a
    recipient whose address, in lower case, ends with "@stanford.edu",
    and after them otherwise.  Providers of equal rank keep their
    configured order. *)
Theorem provider_order_spec :
  forall (ps : list Provider) (email_data : EmailData),
    provider_order ps email_data
    = (if is_stanford_recipient email_data
       then with_key key_stanford 0 ps ++ with_key key_stanford 1 ps
            ++ with_key key_stanford 2 ps
       else with_key key_external 0 ps ++ with_key key_external 1 ps
            ++ with_key key_external 2 ps)%list /\
    (exists relays,
       provider_order ps email_data = (List.filter is_sendgrid ps ++ relays)%list /\
       Forall (fun p => provider_name p <> "sendgrid") relays) /\
    (forall p,
       (key_stanford p = 0%nat <-> provider_name p = "sendgrid") /\
       (key_stanford p = 1%nat <-> provider_name p = "stanford_smtp") /\
       (key_external p = 0%nat <-> provider_name p = "sendgrid") /\
       (key_external p = 2%nat <-> provider_name p = "stanford_smtp")) /\
    (is_stanford_recipient email_data = true <->
     exists local_part,
       PyStr.lower (to_email email_data) = local_part ++ "@stanford.edu").
Proof.
  intros ps email_data.
  assert (Hsg : forall key,
            (forall p, key p = 0%nat <-> provider_name p = "sendgrid") ->
            with_key key 0 ps = List.filter is_sendgrid ps).
  { intros key Hkey. unfold with_key. apply filter_ext. intros p.
    unfold is_sendgrid.
    destruct (String.eqb_spec (provider_name p) "sendgrid") as [Hn|Hn].
    - apply Hkey in Hn. by rewrite Hn.
    - apply Nat.eqb_neq. by rewrite Hkey. }
  assert (Hrel : forall key n m,
            (forall p, key p = 0%nat <-> provider_name p = "sendgrid") ->
            n <> 0%nat -> m <> 0%nat ->
            Forall (fun p => provider_name p <> "sendgrid")
              (with_key key n ps ++ with_key key m ps)).
  { intros key n m Hkey Hn Hm. apply Forall_forall.
    intros p [Hp|Hp]%list_elem_of_In%in_app_or; apply with_key_key in Hp;
      rewrite <- Hkey; lia. }
  split; [|split; [|split; [|apply PyStrFacts.endswith_spec]]].
  - unfold provider_order. destruct (is_stanford_recipient email_data).
    + apply sorted_three_keys. intros p. apply key_stanford_spec.
    + apply sorted_three_keys. intros p. apply key_external_spec.
  - unfold provider_order. destruct (is_stanford_recipient email_data).
    + rewrite sorted_three_keys by (intros p; apply key_stanford_spec).
      eexists. split; [by rewrite (Hsg key_stanford)
                          by (intros p; apply key_stanford_spec)|].
      apply Hrel; [intros p; apply key_stanford_spec|lia|lia].
    + rewrite sorted_three_keys by (intros p; apply key_external_spec).
      eexists. split; [by rewrite (Hsg key_external)
                          by (intros p; apply key_external_spec)|].
      apply Hrel; [intros p; apply key_external_spec|lia|lia].
  - intros p. pose proof (key_stanford_spec p). pose proof (key_external_spec p).
    tauto.
Qed.

(** ** The dispatcher *)


Lemma In_insert_by_key {A} (key : A -> nat) x y l :
  In y (insert_by_key key x l) -> y = x \/ In y l.
Proof.
  induction l as [|z l IH]; simpl.
  - intros [<-|[]]. by left.
  - destruct (key x <=? key z)%nat; simpl.
    + intros [<-|H]; auto.
    + intros [<-|H]; auto. destruct (IH H); auto.
Qed.

Lemma In_sorted {A} (key : A -> nat) y xs : In y (sorted xs key) -> In y xs.
Proof.
  induction xs as [|x xs IH]; simpl; [done|].
  intros [<-|H]%In_insert_by_key; auto.
Qed.




Section DispatchFacts.
Context {W : Type} (h : Handler MailE W).

Lemma run_call {Ex X} (ev : MailE X) (w : W) :
  run (Ex := Ex) h (call ev) w
  = match h X ev w with
    | Some (x, w') => (Returned x, w', [Ev ev x])
    | None => (Starved, w, [])
    end.
Proof. unfold call. simpl. by destruct (h X ev w) as [[x w']|]. Qed.

Lemma sends_of_app t1 t2 :
  sends_of (t1 ++ t2) = (sends_of t1 ++ sends_of t2)%list.
Proof.
  induction t1 as [|[X ev x] t1 IH]; [done|]. simpl.
  destruct ev; simpl; by rewrite ?IH.
Qed.















End DispatchFacts.


(** The run behind it: the API channel rejects the message for good, its
    breaker records the failure, and the relay delivers. *)
Example dispatch_fallback_run :
  let '(o, _, t) :=
    run mail_script (_send_with_providers demo_sender external_mail)
      [SendReturned result_rejected; SendReturned result_ok] in
  (match o with
   | Returned (d, cbs') =>
       success d = true /\ provider d = Some "stanford_smtp" /\
       length (attempts d) = 2%nat /\
       (failure_count <$> cbs' !! "sendgrid") = Some 1 /\
       (success_count <$> cbs' !! "stanford_smtp") = Some 1
   | _ => False
   end) /\
  sends_of t = [("sendgrid", SendReturned result_rejected);
                ("stanford_smtp", SendReturned result_ok)].
Proof. vm_compute. repeat split. Qed.

(** ** Concurrent allocation *)




Section ConcurrencyFacts.
Context {codec : JsonCodec}.










End ConcurrencyFacts.















Section TrackedFacts.
Context {codec : JsonCodec}.









End TrackedFacts.









Section ReportedAllocations.
Context {codec : JsonCodec}.




End ReportedAllocations.



(** * Further properties *)

(** ** Identifiers written and read back *)

Module RoundTrip.
Import PyStr.

Lemma lstrip_no_space s : no_space s = true -> lstrip s = s.
Proof.
  destruct s as [|c s]; [done|]. simpl.
  by destruct (isspace c).
Qed.

Lemma no_space_rev_app s acc :
  no_space (String.rev_app s acc) = no_space s && no_space acc.
Proof.
  revert acc. induction s as [|c s IH]; intros acc; simpl; [done|].
  rewrite IH. simpl.
  destruct (isspace c); destruct (no_space s); destruct (no_space acc); reflexivity.
Qed.

Lemma strip_no_space s : no_space s = true -> strip s = s.
Proof.
  intros Hs. unfold strip. rewrite (lstrip_no_space s Hs), lstrip_no_space.
  - apply PyStrFacts.rev_involutive.
  - unfold String.rev. by rewrite no_space_rev_app, Hs.
Qed.

Lemma digit_not_space c d : digit_of c = Some d -> isspace c = false.
Proof.
  unfold digit_of, isspace. cbv zeta. generalize (nat_of_ascii c). intros n.
  destruct (48 <=? n)%nat eqn:H1; destruct (n <=? 57)%nat eqn:H2;
    cbn [andb]; try done.
  intros _. apply Nat.leb_le in H1, H2.
  destruct (Nat.leb_spec 9 n); destruct (Nat.leb_spec n 13);
    destruct (Nat.leb_spec 28 n); destruct (Nat.leb_spec n 32);
    cbn [andb orb]; first [reflexivity | lia].
Qed.

Lemma digit_of_pretty_N_char x :
  (x < 10)%N -> digit_of (pretty_N_char x) = Some (Z.of_N x).
Proof.
  intros Hx.
  assert (x = 0 \/ x = 1 \/ x = 2 \/ x = 3 \/ x = 4 \/ x = 5 \/ x = 6
          \/ x = 7 \/ x = 8 \/ x = 9)%N as H by lia.
  repeat (destruct H as [->|H]; [reflexivity|]). by subst.
Qed.

Lemma reads_nil : reads "" 0 0.
Proof.
  unfold reads. split; [lia|]. split; [done|]. split; [done|].
  split; [intros c s' H; discriminate|].
  intros acc. simpl. f_equal. lia.
Qed.

Lemma reads_cons x s k v :
  (x < 10)%N -> reads s k v ->
  reads (String (pretty_N_char x) s) (k + 1) (Z.of_N x * 10 ^ k + v).
Proof.
  intros Hx (Hk & Hns & _ & _ & Hread).
  pose proof (digit_of_pretty_N_char x Hx) as Hd.
  unfold reads. split; [lia|]. split.
  { simpl. by rewrite (digit_not_space _ _ Hd), Hns. }
  split; [discriminate|]. split.
  { intros c s' [= <- <-]. by rewrite Hd. }
  intros acc. cbn [int_digits]. rewrite Hd, Hread.
  f_equal. rewrite Z.pow_add_r by lia. lia.
Qed.

Lemma reads_pretty_N_go x s k v :
  reads s k v ->
  exists k', reads (pretty_N_go x s) k' (Z.of_N x * 10 ^ k + v).
Proof.
  revert s k v. induction (N.lt_wf_0 x) as [x _ IH]; intros s k v Hr.
  destruct (decide (x = 0)%N) as [->|Hx].
  - rewrite pretty_N_go_0. exists k. by rewrite Z.mul_0_l, Z.add_0_l.
  - rewrite pretty_N_go_step by lia.
    assert (Hlt : (x `div` 10 < x)%N) by (apply N.div_lt; lia).
    assert (Hmod : (x `mod` 10 < 10)%N) by (apply N.mod_lt; lia).
    destruct (IH _ Hlt _ _ _ (reads_cons _ _ _ _ Hmod Hr)) as [k' Hk'].
    exists k'.
    replace (Z.of_N x * 10 ^ k + v)
      with (Z.of_N (x `div` 10) * 10 ^ (k + 1)
            + (Z.of_N (x `mod` 10) * 10 ^ k + v)); [done|].
    destruct Hr as (Hk & _). rewrite Z.pow_add_r by lia.
    rewrite (N.div_mod x 10) at 3 by lia. lia.
Qed.

Lemma int_unsigned_reads s k v :
  s <> "" -> reads s k v -> int_unsigned s = Some v.
Proof.
  intros Hne (Hk & _ & _ & Hhead & Hread).
  destruct s as [|c s']; [done|].
  destruct (Hhead c s' eq_refl) as [d Hd].
  specialize (Hread 0). cbn [int_digits] in Hread. rewrite Hd in Hread.
  replace (10 * 0 + d) with d in Hread by lia.
  unfold int_unsigned. rewrite Hd, Hread. reflexivity.
Qed.

Lemma pretty_positive_reads p :
  exists k, reads (pretty (N.pos p)) k (Z.pos p) /\ pretty (N.pos p) <> "".
Proof.
  unfold pretty, pretty_N. rewrite decide_False by done.
  destruct (reads_pretty_N_go (N.pos p) "" 0 0 reads_nil) as [k Hk].
  exists k. split.
  - replace (Z.pos p) with (Z.of_N (N.pos p) * 10 ^ 0 + 0) by lia. exact Hk.
  - intros Hempty. destruct Hk as (_ & _ & _ & _ & Hread).
    rewrite Hempty in Hread. specialize (Hread 0). simpl in Hread.
    injection Hread. lia.
Qed.

Lemma int_pretty (n : Z) : PyStr.int (pretty n) = Some n.
Proof.
  destruct n as [|p|p].
  - reflexivity.
  - destruct (pretty_positive_reads p) as (k & Hr & Hne).
    change (pretty (Z.pos p)) with (pretty (N.pos p)).
    unfold PyStr.int. rewrite strip_no_space by apply Hr.
    pose proof (int_unsigned_reads _ _ _ Hne Hr) as Hi.
    destruct (pretty (N.pos p)) as [|c s'] eqn:E; [done|].
    destruct Hr as (_ & _ & _ & Hhead & _).
    destruct (Hhead c s' eq_refl) as [d Hd].
    destruct (Ascii.eqb_spec c "-") as [->|Hm]; [discriminate Hd|].
    destruct (Ascii.eqb_spec c "+") as [->|Hp]; [discriminate Hd|].
    destruct c as [[] [] [] [] [] [] [] []]; try done.
  - destruct (pretty_positive_reads p) as (k & Hr & Hne).
    change (pretty (Z.neg p)) with ("-" ++ pretty (N.pos p)).
    unfold PyStr.int. rewrite strip_no_space.
    + change ("-" ++ pretty (N.pos p)) with (String "-" (pretty (N.pos p))).
      cbn [String.append]. rewrite (int_unsigned_reads _ _ _ Hne Hr). done.
    + change ("-" ++ pretty (N.pos p)) with (String "-" (pretty (N.pos p))).
      simpl. apply Hr.
Qed.

End RoundTrip.

(** ** The next-candidate computation, further *)

Lemma next_dynamic_id_char group_type id_range records :
  ID_RANGES !! group_type = Some id_range ->
  next_dynamic_id group_type records
  = match ids_in_range id_range records with
    | [] => Ok (rmin id_range)
    | x :: xs =>
        if (rmax id_range <? py_max x xs + 1)%Z
        then Err (ValueError (exhausted_message group_type id_range))
        else Ok (py_max x xs + 1)
    end.
Proof.
  intros Hr. unfold next_dynamic_id. rewrite Hr.
  pose proof (collect_existing_ids_app id_range records []) as Hc.
  simpl in Hc. by rewrite Hc.
Qed.

Lemma py_max_same_elements x xs y ys :
  (forall v, In v (x :: xs) <-> In v (y :: ys)) ->
  py_max x xs = py_max y ys.
Proof.
  intros Hsame.
  pose proof (py_max_in x xs) as H1. pose proof (py_max_in y ys) as H2.
  apply Hsame in H1. apply Hsame in H2.
  apply (py_max_upper y ys) in H1. apply (py_max_upper x xs) in H2. lia.
Qed.

Lemma parsed_id_pretty (record : gmap string string) v :
  record !! F_assigned_study_id = Some (pretty v) ->
  parsed_id record = Some v.
Proof.
  intros Hf. unfold parsed_id, record_get. rewrite Hf.
  destruct v as [|p|p].
  - reflexivity.
  - destruct (RoundTrip.pretty_positive_reads p) as (k & Hr & _).
    change (pretty (Z.pos p)) with (pretty (N.pos p)).
    rewrite RoundTrip.strip_no_space by apply Hr.
    apply (RoundTrip.int_pretty (Z.pos p)).
  - destruct (RoundTrip.pretty_positive_reads p) as (k & Hr & _).
    rewrite RoundTrip.strip_no_space; [apply RoundTrip.int_pretty|].
    change (pretty (Z.neg p)) with (String "-" (pretty (N.pos p))).
    simpl. apply Hr.
Qed.

Lemma ids_in_range_app id_range l1 l2 :
  ids_in_range id_range (l1 ++ l2)
  = (ids_in_range id_range l1 ++ ids_in_range id_range l2)%list.
Proof. unfold ids_in_range. by rewrite omap_app, List.filter_app. Qed.

Lemma in_ids_in_range id_range records v :
  In v (ids_in_range id_range records) <->
  in_range id_range v = true /\
  exists record, In record records /\ parsed_id record = Some v.
Proof.
  unfold ids_in_range. rewrite filter_In, <- list_elem_of_In, list_elem_of_omap.
  split.
  - intros [(record & Hin & Hp) Hr]. split; [done|].
    exists record. by rewrite <- list_elem_of_In.
  - intros [Hr (record & Hin & Hp)]. split; [|done].
    exists record. by rewrite list_elem_of_In.
Qed.

(** X1: an identifier written by the allocator is read back as the same
    number: the value [str(new_id)] that [update_data] puts into the
    identifier field parses, in [get_next_dynamic_id], to [new_id]
    again, for the payload itself and for any record whose field holds
    that text. *)
Theorem written_id_read_back :
  forall (record_id : option string) (new_id : Z) (record : gmap string string),
    parsed_id (list_to_map (upd_fields (update_data record_id new_id)))
    = Some new_id /\
    parsed_id (list_to_map (upd_fields (update_data_with_flag record_id new_id)))
    = Some new_id /\
    parsed_id (<[F_assigned_study_id := pretty new_id]> record) = Some new_id.
Proof.
  intros record_id new_id record.
  split; [|split]; apply parsed_id_pretty.
  - simpl. by rewrite lookup_insert_eq.
  - simpl. by rewrite lookup_insert_eq.
  - by rewrite lookup_insert_eq.
Qed.

(** X2: allocations in sequence hand out consecutive identifiers: when
    the computation returned [v] and a record carrying [str(v)] has been
    added to the repository, the next computation returns [v + 1], or
    raises the range-exhausted error when [v] was the last identifier
    of the range. *)
Theorem next_after_write group_type id_range records v
    (written : gmap string string) :
  ID_RANGES !! group_type = Some id_range ->
  next_dynamic_id group_type records = Ok v ->
  written !! F_assigned_study_id = Some (pretty v) ->
  next_dynamic_id group_type (records ++ [written])
  = if (v + 1 <=? rmax id_range)%Z then Ok (v + 1)
    else Err (ValueError (exhausted_message group_type id_range)).
Proof.
  intros Hr Hnext Hw.
  pose proof (next_dynamic_id_in_range _ _ _ _ Hr Hnext) as Hv.
  pose proof (parsed_id_pretty _ _ Hw) as Hp.
  rewrite (next_dynamic_id_char _ _ _ Hr) in Hnext.
  rewrite (next_dynamic_id_char _ _ _ Hr), ids_in_range_app.
  assert (Hone : ids_in_range id_range [written] = [v]).
  { unfold ids_in_range. simpl. rewrite Hp. simpl. unfold in_range.
    destruct (Z.leb_spec (rmin id_range) v); [|lia].
    destruct (Z.leb_spec v (rmax id_range)); [done|lia]. }
  rewrite Hone.
  assert (Hmax : match (ids_in_range id_range records ++ [v])%list with
                 | [] => False
                 | x :: xs => py_max x xs = v
                 end).
  { destruct (ids_in_range id_range records) as [|x xs] eqn:E; simpl.
    - reflexivity.
    - destruct (Z.ltb_spec (rmax id_range) (py_max x xs + 1)); [done|].
      injection Hnext as Hnext.
      pose proof (py_max_upper x xs) as Hup.
      pose proof (py_max_in x (xs ++ [v])) as Hin.
      pose proof (py_max_upper x (xs ++ [v]) v) as Hge.
      assert (In v (x :: xs ++ [v])) as Hvin.
      { right. apply in_or_app. right. by left. }
      specialize (Hge Hvin).
      destruct Hin as [Hin|Hin].
      + specialize (Hup x (or_introl eq_refl)). lia.
      + apply in_app_or in Hin as [Hin|[Hin|[]]]; [|lia].
        specialize (Hup _ (or_intror Hin)). lia. }
  destruct (ids_in_range id_range records ++ [v])%list as [|x xs]; [done|].
  rewrite Hmax.
  destruct (Z.ltb_spec (rmax id_range) (v + 1));
    destruct (Z.leb_spec (v + 1) (rmax id_range)); done || lia.
Qed.

Lemma next_after_write_witness :
  next_dynamic_id "healthy_control" scenario_A_records = Ok 3006 /\
  next_dynamic_id "healthy_control"
    (scenario_A_records ++ [ {[ F_record_id := "4";
                                F_assigned_study_id := pretty 3006 ]} ])
  = Ok 3007.
Proof.
  split; [reflexivity|].
  exact (next_after_write "healthy_control" (mkRange 3000 10199)
           scenario_A_records 3006
           {[ F_record_id := "4"; F_assigned_study_id := pretty 3006 ]}
           eq_refl eq_refl eq_refl).
Defined.

(** X3: the candidate is unused as of the read: no record of the export
    carries an identifier that parses to the returned number. *)
Theorem candidate_is_unused group_type records v :
  next_dynamic_id group_type records = Ok v ->
  forall record, In record records -> parsed_id record <> Some v.
Proof.
  intros Hnext record Hin Hp.
  destruct (ID_RANGES !! group_type) as [id_range|] eqn:Hr.
  2:{ unfold next_dynamic_id in Hnext. by rewrite Hr in Hnext. }
  pose proof (next_dynamic_id_in_range _ _ _ _ Hr Hnext) as Hv.
  assert (Hvin : In v (ids_in_range id_range records)).
  { apply in_ids_in_range. split; [|by exists record]. unfold in_range.
    destruct (Z.leb_spec (rmin id_range) v); [|lia].
    destruct (Z.leb_spec v (rmax id_range)); [done|lia]. }
  rewrite (next_dynamic_id_char _ _ _ Hr) in Hnext.
  destruct (ids_in_range id_range records) as [|x xs]; [destruct Hvin|].
  destruct (Z.ltb_spec (rmax id_range) (py_max x xs + 1)); [done|].
  injection Hnext as Hnext. pose proof (py_max_upper x xs v Hvin). lia.
Qed.

Lemma candidate_is_unused_witness :
  Forall (fun record => parsed_id record <> Some 3006) scenario_A_records.
Proof.
  apply Forall_forall. intros record Hin%list_elem_of_In.
  exact (candidate_is_unused "healthy_control" scenario_A_records 3006
           eq_refl record Hin).
Defined.

(** X4: the computation depends only on the set of identifiers of the
    range found in the export: the order of the records, repeated
    identifiers, and records whose identifier is blank, not a number or
    outside the range make no difference. *)
Theorem next_dynamic_id_same_ids group_type id_range records records' :
  ID_RANGES !! group_type = Some id_range ->
  (forall v, In v (ids_in_range id_range records)
             <-> In v (ids_in_range id_range records')) ->
  next_dynamic_id group_type records = next_dynamic_id group_type records'.
Proof.
  intros Hr Hsame. rewrite !(next_dynamic_id_char _ _ _ Hr).
  destruct (ids_in_range id_range records) as [|x xs];
    destruct (ids_in_range id_range records') as [|y ys].
  - done.
  - destruct (proj2 (Hsame y) (or_introl eq_refl)).
  - destruct (proj1 (Hsame x) (or_introl eq_refl)).
  - by rewrite (py_max_same_elements x xs y ys).
Qed.

Lemma next_dynamic_id_same_ids_witness :
  next_dynamic_id "healthy_control"
    ({[ F_assigned_study_id := "3005" ]} :: {[ F_assigned_study_id := "n/a" ]}
     :: {[ F_assigned_study_id := "10200" ]} :: scenario_A_records)
  = next_dynamic_id "healthy_control" scenario_A_records.
Proof.
  apply (next_dynamic_id_same_ids "healthy_control" (mkRange 3000 10199));
    [reflexivity|].
  intros v. vm_compute. tauto.
Defined.

(** ** What the assigner can raise *)

Lemma prog_post_mono {E : Type -> Type} {Ex A} (Q Q' : A -> Prop)
    (P P' : Ex -> Prop) (p : Prog E Ex A) :
  (forall a, Q a -> Q' a) -> (forall e, P e -> P' e) ->
  prog_post Q P p -> prog_post Q' P' p.
Proof.
  intros HQ HP. induction p as [a|e|X ev k IH]; simpl; auto.
Qed.

Lemma prog_post_bind {E : Type -> Type} {Ex A B} (Q : A -> Prop)
    (R : B -> Prop) (P : Ex -> Prop) (m : Prog E Ex A) (f : A -> Prog E Ex B) :
  prog_post Q P m -> (forall a, Q a -> prog_post R P (f a)) ->
  prog_post R P (m ≫= f).
Proof.
  change (m ≫= f) with (bind m f). intros Hm Hf.
  induction m as [a|e|X ev k IH]; simpl in *; auto.
Qed.

Lemma prog_post_try {E : Type -> Type} {Ex A} (Q : A -> Prop) (P : Ex -> Prop)
    (P' : Ex -> Prop) (m : Prog E Ex A) :
  prog_post Q P m ->
  prog_post (fun r => match r with Ok a => Q a | Err e => P e end) P' (try_ m).
Proof. induction m as [a|e|X ev k IH]; simpl; auto. Qed.

Lemma prog_post_run {E : Type -> Type} {Ex A W} (h : Handler E W)
    (Q : A -> Prop) (P : Ex -> Prop) (p : Prog E Ex A) w :
  prog_post Q P p ->
  match (run h p w).1.1 with
  | Returned a => Q a
  | Raised e => P e
  | Starved => True
  end.
Proof.
  revert w. induction p as [a|e|X ev k IH]; intros w Hp; simpl; auto.
  destruct (h X ev w) as [[x w']|]; [|done].
  specialize (IH x w' (Hp x)).
  by destruct (run h (k x) w') as [[o w''] t].
Qed.

Section RaiseFacts.
Context {codec : JsonCodec}.

Lemma post_make_request client data :
  prog_post (fun response => resp_status_code response < 400) is_api_error
    (_make_request client data).
Proof.
  unfold _make_request. cbn. intros [response|e]; [|done].
  destruct (Z.leb_spec 400 (resp_status_code response)); simpl; [done|lia].
Qed.

Lemma post_loads text :
  prog_post (fun _ => True) is_value_error (loads text).
Proof. unfold loads. by destruct (json_loads text). Qed.

Lemma post_import_records client records overwrite :
  prog_post (fun _ => True) api_or_value
    (import_records client records overwrite).
Proof.
  unfold import_records. eapply prog_post_bind.
  - eapply prog_post_mono; [| |apply post_make_request]; [done|by left].
  - intros response _.
    eapply prog_post_mono; [| |apply post_loads]; [done|by right].
Qed.

Lemma post_export_records client fields filter_logic :
  prog_post (fun _ => True) api_or_value
    (export_records client fields filter_logic).
Proof.
  unfold export_records. eapply prog_post_bind.
  - eapply prog_post_mono; [| |apply post_make_request]; [done|by left].
  - intros response _. eapply prog_post_bind.
    + eapply prog_post_mono; [| |apply post_loads]; [done|by right].
    + done.
Qed.

Lemma post_get_next_dynamic_id client group_type :
  is_Some (ID_RANGES !! group_type) ->
  prog_post (fun _ => True) api_or_value
    (get_next_dynamic_id client group_type).
Proof.
  intros [id_range Hr]. unfold get_next_dynamic_id. eapply prog_post_bind.
  - apply post_export_records.
  - intros records _. rewrite (next_dynamic_id_char _ _ _ Hr).
    destruct (ids_in_range id_range records) as [|x xs]; [done|].
    destruct (rmax id_range <? py_max x xs + 1)%Z; [by right|done].
Qed.

Lemma post_write_assignment client record_id nid :
  prog_post (fun _ => True) api_or_value
    (write_assignment client record_id nid).
Proof.
  unfold write_assignment. eapply prog_post_bind.
  - apply (prog_post_try (fun _ => True) api_or_value api_or_value), post_import_records.
  - intros [j|[e|m|k|v]] H; try done; try (by destruct H as [[]|[]]).
    apply post_import_records.
Qed.

Lemma post_on_error attempt e loc
    (continue_ : Prog RepoE Exn (bool * nat * Locals)) :
  api_or_value e ->
  prog_post (fun _ => True) is_unbound_local continue_ ->
  prog_post (fun _ => True) is_unbound_local
    (on_error attempt e loc continue_).
Proof.
  intros He Hc. unfold on_error.
  destruct e as [err|m|k|v]; try done; try by destruct He as [[]|[]].
  destruct (is_unique_constraint_violation err); [|done].
  destruct (new_id loc); [|done].
  destruct (attempt <? MAX_RETRIES - 1)%nat; [|done].
  cbn. by intros [].
Qed.

Lemma post_retry_loop client record_id group_type todo last loc :
  is_Some (ID_RANGES !! group_type) ->
  prog_post (fun _ => True) is_unbound_local
    (retry_loop client record_id group_type todo last loc).
Proof.
  intros Hg. revert last loc.
  induction todo as [|attempt rest IH]; intros last loc; [done|].
  cbn [retry_loop]. eapply prog_post_bind.
  - apply (prog_post_try (fun _ => True) api_or_value is_unbound_local), post_get_next_dynamic_id, Hg.
  - intros [nid|e] He; [|by apply post_on_error].
    eapply prog_post_bind.
    + apply (prog_post_try (fun _ => True) api_or_value is_unbound_local), post_write_assignment.
    + intros [j|e] He'; [done|]. by apply post_on_error.
Qed.

Lemma post_assign_id client record_id group_type loc :
  is_Some (ID_RANGES !! group_type) ->
  prog_post (fun _ => True) is_unbound_local
    (assign_id client record_id group_type loc).
Proof.
  intros Hg. unfold assign_id. eapply prog_post_bind.
  - by apply post_retry_loop.
  - by intros [[ok a] l] _.
Qed.

Lemma determine_group_has_range qids_score group_type group_label :
  determine_group qids_score = Ok (group_type, group_label) ->
  is_Some (ID_RANGES !! group_type).
Proof.
  unfold determine_group.
  destruct (qids_score <=? 10)%Z; [intros [= <- <-]; by eexists|].
  destruct (qids_score <=? 20)%Z; [intros [= <- <-]; by eexists|done].
Qed.

Section WithChecker.
Context {checker : EligibilityChecker}.

Lemma post_process_record client record loc :
  prog_post (fun _ => True) value_or_unbound
    (process_record client record loc).
Proof.
  unfold process_record. destruct (check_eligibility record) as [status reasons].
  destruct (negb (String.eqb status "ELIGIBLE")).
  - eapply prog_post_bind.
    + apply (prog_post_try (fun _ => True) api_or_value value_or_unbound), post_import_records.
    + intros [j|[e|m|k|v]] H; simpl; try done; try (by destruct H as [[]|[]]).
      by left.
  - destruct (negb (PyStr.truthy _)); [done|].
    destruct (PyStr.int _) as [qids_score|]; [|done].
    destruct (determine_group qids_score) as [[group_type group_label]|e] eqn:Hg;
      [|done].
    eapply prog_post_mono; [| |apply post_assign_id].
    + done.
    + by right.
    + by apply (determine_group_has_range qids_score group_type group_label).
Qed.

Lemma post_process_loop client records loc :
  prog_post (fun _ => True) value_or_unbound (process_loop client records loc).
Proof.
  revert loc. induction records as [|record rest IH]; intros loc; [done|].
  cbn [process_loop]. eapply prog_post_bind.
  - apply post_process_record.
  - intros loc' _. apply IH.
Qed.

(** X5: [process_records] never lets a [RedcapApiError] escape and
    never raises the [KeyError] of [ID_RANGES[group_type]], whatever
    status codes, bodies and transport errors the repository answers
    with.  The response bodies that decode are lists of records with
    string values, and [check_eligibility] answers for each record. *)
Theorem process_records_raises client retroactive :
  forall W (h : Handler RepoE W) w,
    match (run h (process_records client retroactive) w).1.1 with
    | Raised (ApiError _) => False
    | Raised (KeyError _) => False
    | _ => True
    end.
Proof.
  intros W h w.
  assert (Hp : prog_post (fun _ : Z => True) value_or_unbound
                 (process_records client retroactive)).
  { unfold process_records. eapply prog_post_bind.
    - apply (prog_post_try (fun _ => True) api_or_value value_or_unbound).
      destruct retroactive; apply post_export_records.
    - intros [records|[e|m|k|v]] H; simpl; try done;
        try (by destruct H as [[]|[]]).
      + eapply prog_post_bind; [apply post_process_loop|done].
      + by left. }
  pose proof (prog_post_run h _ _ _ w Hp) as Hrun.
  destruct (run h (process_records client retroactive) w) as [[o w'] t].
  simpl in *. destruct o as [a|[e|m|k|v]|]; try done.
  - by destruct Hrun as [[]|[]].
  - by destruct Hrun as [[]|[]].
Qed.

End WithChecker.
End RaiseFacts.

(** ** The statistics report *)

Lemma ids_in_range_cons id_range record rest :
  ids_in_range id_range (record :: rest)
  = match parsed_id record with
    | Some v =>
        if in_range id_range v
        then v :: ids_in_range id_range rest
        else ids_in_range id_range rest
    | None => ids_in_range id_range rest
    end.
Proof.
  unfold ids_in_range. cbn [omap list_omap].
  destruct (parsed_id record) as [v|]; [|done].
  cbn [List.filter]. by destruct (in_range id_range v).
Qed.

Lemma truthy_parsed_id record :
  PyStr.truthy (PyStr.strip (record_get record F_assigned_study_id "")) = false ->
  parsed_id record = None.
Proof.
  unfold parsed_id. by destruct (PyStr.strip _); [|discriminate].
Qed.

Lemma max_loop_spec hc mdd records a b :
  (forall v, in_range hc v = true -> in_range mdd v = false) ->
  max_loop hc mdd records a b
  = (fold_left Z.max (ids_in_range hc records) a,
     fold_left Z.max (ids_in_range mdd records) b).
Proof.
  intros Hdisj. revert a b.
  induction records as [|record rest IH]; intros a b; [done|].
  cbn [max_loop]. rewrite !ids_in_range_cons.
  destruct (PyStr.truthy _) eqn:Ht.
  - fold (parsed_id record). destruct (parsed_id record) as [v|]; [|apply IH].
    destruct (in_range hc v) eqn:Hhc.
    + rewrite (Hdisj v Hhc). apply IH.
    + destruct (in_range mdd v); apply IH.
  - rewrite (truthy_parsed_id record Ht). apply IH.
Qed.

Lemma fold_max_below a x xs :
  a <= x -> fold_left Z.max (x :: xs) a = py_max x xs.
Proof. intros Ha. unfold py_max. simpl. by rewrite Z.max_r by lia. Qed.

Lemma next_available_char group_type id_range records :
  ID_RANGES !! group_type = Some id_range ->
  (let max_id := fold_left Z.max (ids_in_range id_range records)
                   (rmin id_range - 1) in
   if (rmin id_range <=? max_id)%Z then max_id + 1 else rmin id_range)
  = match next_dynamic_id group_type records with
    | Ok v => v
    | Err _ => rmax id_range + 1
    end.
Proof.
  intros Hr. rewrite (next_dynamic_id_char _ _ _ Hr). cbv zeta.
  pose proof (ids_in_range_bounds id_range records) as Hb.
  destruct (ids_in_range id_range records) as [|x xs].
  - simpl. destruct (Z.leb_spec (rmin id_range) (rmin id_range - 1)); [lia|done].
  - rewrite fold_max_below by (specialize (Hb x (or_introl eq_refl)); lia).
    pose proof (py_max_in x xs) as Hin. apply Hb in Hin.
    pose proof (py_max_upper x xs x (or_introl eq_refl)) as Hx.
    destruct (Z.leb_spec (rmin id_range) (py_max x xs)); [|lia].
    destruct (Z.ltb_spec (rmax id_range) (py_max x xs + 1)); [lia|done].
Qed.

Lemma ranges_disjoint v :
  in_range (mkRange 3000 10199) v = true ->
  in_range (mkRange 10200 20000) v = false.
Proof.
  unfold in_range. simpl. intros H. apply andb_true_iff in H as [H1 H2].
  apply andb_false_iff. left. lia.
Qed.

Lemma count_loop_spec hc mdd records t h m i r p :
  (forall v, in_range hc v = true -> in_range mdd v = false) ->
  let '(t', h', m', i', r', p') :=
    count_loop hc mdd records (t, h, m, i, r, p) in
  h' = h + Z.of_nat (length (ids_in_range hc records))
  /\ m' = m + Z.of_nat (length (ids_in_range mdd records))
  /\ t + (h' - h) + (m' - m) <= t' <= t + Z.of_nat (length records)
  /\ i <= i' /\ r <= r' /\ p <= p'
  /\ (i' - i) + (r' - r) + (p' - p) <= Z.of_nat (length records).
Proof.
  intros Hdisj. revert t h m i r p.
  induction records as [|record rest IH]; intros t h m i r p.
  - simpl. lia.
  - cbn [count_loop]. rewrite !ids_in_range_cons.
    fold (parsed_id record).
    set (status := PyStr.strip (record_get record F_status "")).
    pose proof (truthy_parsed_id record) as Hnone.
    destruct (PyStr.truthy (PyStr.strip (record_get record F_assigned_study_id "")));
      [clear Hnone|rewrite (Hnone eq_refl)].
    1: destruct (parsed_id record) as [v|];
         [destruct (in_range hc v) eqn:Hhc;
            [rewrite (Hdisj v Hhc)|destruct (in_range mdd v)]|].
    all: destruct (_ || _)%bool;
      [|destruct (String.eqb status "manual_review_required");
        [|destruct (_ || _)%bool]].
    all: match goal with
    | |- context [count_loop _ _ _ (?t0, ?h0, ?m0, ?i0, ?r0, ?p0)] =>
        specialize (IH t0 h0 m0 i0 r0 p0);
        destruct (count_loop hc mdd rest (t0, h0, m0, i0, r0, p0))
          as [[[[[t' h'] m'] i'] r'] p']
    end.
    all: cbn [length]; lia.
Qed.

Lemma statistics_of_unfold records :
  statistics_of records
  = let hc := mkRange 3000 10199 in
    let mdd := mkRange 10200 20000 in
    let '(total_assigned, healthy_controls, mdd_participants,
          ineligible, review_required, pending) :=
      count_loop hc mdd records (0, 0, 0, 0, 0, 0) in
    let '(max_hc_id, max_mdd_id) :=
      max_loop hc mdd records (rmin hc - 1) (rmin mdd - 1) in
    Ok (mkStatistics (Z.of_nat (length records)) total_assigned
          healthy_controls mdd_participants ineligible review_required
          pending
          (if (rmin hc <=? max_hc_id)%Z then max_hc_id + 1 else rmin hc)
          (if (rmin mdd <=? max_mdd_id)%Z then max_mdd_id + 1 else rmin mdd)).
Proof. reflexivity. Qed.

(** X6: the "next available" identifiers printed by [get_statistics]
    are the ones [get_next_dynamic_id] would hand out on the same
    records, except when a range is exhausted: where the allocator raises
    [ValueError], the report prints the identifier after the range's
    maximum (10200 for healthy controls, which is the first identifier
    of the other group, and 20001 for MDD participants). *)
Theorem statistics_next_ids records :
  exists st,
    statistics_of records = Ok st
    /\ st_next_healthy_control st
       = match next_dynamic_id "healthy_control" records with
         | Ok v => v
         | Err _ => 10200
         end
    /\ st_next_mdd st
       = match next_dynamic_id "mdd_participant" records with
         | Ok v => v
         | Err _ => 20001
         end.
Proof.
  rewrite statistics_of_unfold. cbv zeta.
  destruct (count_loop _ _ records _) as [[[[[t h] m] i] r] p].
  rewrite (max_loop_spec _ _ records _ _ ranges_disjoint).
  eexists. split; [reflexivity|]. cbn [st_next_healthy_control st_next_mdd].
  split.
  - apply (next_available_char "healthy_control" (mkRange 3000 10199) records
             eq_refl).
  - apply (next_available_char "mdd_participant" (mkRange 10200 20000) records
             eq_refl).
Qed.

(** X7: the counters printed by [get_statistics] are consistent: the two
    group counters count the records whose identifier parses and lies in
    the group's range, together they are at most the number of records
    with an identifier, which is at most the number of records; the three
    status counters are non-negative and together at most the number of
    records. *)
Theorem statistics_counts records :
  exists st,
    statistics_of records = Ok st
    /\ st_total_records st = Z.of_nat (length records)
    /\ st_healthy_controls st
       = Z.of_nat (length (ids_in_range (mkRange 3000 10199) records))
    /\ st_mdd_participants st
       = Z.of_nat (length (ids_in_range (mkRange 10200 20000) records))
    /\ st_healthy_controls st + st_mdd_participants st <= st_total_assigned st
    /\ st_total_assigned st <= st_total_records st
    /\ 0 <= st_ineligible st /\ 0 <= st_review_required st
    /\ 0 <= st_pending st
    /\ st_ineligible st + st_review_required st + st_pending st
       <= st_total_records st.
Proof.
  rewrite statistics_of_unfold. cbv zeta.
  pose proof (count_loop_spec (mkRange 3000 10199) (mkRange 10200 20000)
                records 0 0 0 0 0 0 ranges_disjoint) as Hc.
  destruct (count_loop _ _ records _) as [[[[[t h] m] i] r] p].
  destruct (max_loop _ _ records _ _) as [a b].
  eexists. split; [reflexivity|]. simpl. lia.
Qed.

(** ** Eligibility *)

Lemma append_if_nil b reason reasons :
  append_if b reason reasons = [] <-> b = false /\ reasons = [].
Proof.
  unfold append_if. destruct b.
  - split; [|by intros [? _]]. by destruct reasons.
  - by split; [|intros [_ ?]].
Qed.

Lemma int_truthy s q : PyStr.int s = Some q -> PyStr.truthy s = true.
Proof. by destruct s. Qed.

Lemma check_qids_valid s :
  check_qids s = (false, []) <->
  exists q, PyStr.int s = Some q /\ 0 <= q <= 20.
Proof.
  unfold check_qids. split.
  - destruct (PyStr.truthy s); [|done]. simpl.
    destruct (PyStr.int s) as [q|]; [|done].
    destruct (Z.leb_spec 0 q), (Z.leb_spec q 27); simpl; try done.
    destruct (Z.leb_spec 21 q); [done|]. intros _. exists q. split; [done|lia].
  - intros (q & Hq & Hr). rewrite (int_truthy s q Hq), Hq. simpl.
    destruct (Z.leb_spec 0 q), (Z.leb_spec q 27); simpl; try lia.
    by destruct (Z.leb_spec 21 q); [lia|].
Qed.

Lemma check_qids_review s :
  (check_qids s).1 = true <->
  forall q, PyStr.int s = Some q -> ~ 0 <= q <= 27.
Proof.
  unfold check_qids. destruct (PyStr.truthy s) eqn:Ht; simpl.
  - destruct (PyStr.int s) as [q|]; [|by split].
    destruct (Z.leb_spec 0 q), (Z.leb_spec q 27); simpl.
    + destruct (21 <=? q)%Z; simpl;
        (split; [done|intros Hq; exfalso; apply (Hq q eq_refl); lia]).
    + split; [intros _ ? [= <-]; lia|done].
    + split; [intros _ ? [= <-]; lia|done].
    + split; [intros _ ? [= <-]; lia|done].
  - destruct s; [|done]. by split.
Qed.

Lemma check_qids_reasons s :
  (check_qids s).1 = true -> (check_qids s).2 <> [].
Proof.
  unfold check_qids. destruct (PyStr.truthy s); simpl; [|done].
  destruct (PyStr.int s) as [q|]; [|done].
  destruct (negb _); [done|]. by destruct (21 <=? q)%Z.
Qed.

(** X8: [check_eligibility] answers ELIGIBLE exactly when the record
    has consent '1', an all-digit age of at least 18, travel '1', English
    '1', no TMS contraindication '1', a QIDS score that parses to an
    integer from 0 to 20, and a non-blank email; the list of reasons is
    then empty. *)
Theorem eligible_iff (record : gmap string string) (reasons : list string) :
  EligibilityChecker_check_eligibility record = ("ELIGIBLE", reasons) <->
  reasons = []
  /\ field_is record F_consent "1" = true
  /\ (exists a,
        PyStr.isdigit (record_get record "age_c4982e_ee0b48_0fa205_v2_fdabe5" "")
          = true
        /\ PyStr.int (record_get record "age_c4982e_ee0b48_0fa205_v2_fdabe5" "")
           = Some a
        /\ 18 <= a)
  /\ field_is record "travel_e4c69a_ec4b4a_09fbe2_v2_1b9f19" "1" = true
  /\ field_is record "english_5c066f_a95c48_a35a95_v2_f6426d" "1" = true
  /\ field_is record "tms_contra_d3aef1_4917df_ffe8d8_v2_3ff65f" "1" = false
  /\ (exists q,
        PyStr.int (PyStr.strip (record_get record F_qids "")) = Some q
        /\ 0 <= q <= 20)
  /\ PyStr.truthy
       (PyStr.strip
          (record_get record
             "participant_email_a29017_723fd8_6c173d_v2_98aab5" "")) = true.
Proof.
  unfold EligibilityChecker_check_eligibility.
  rewrite <- (check_qids_valid (PyStr.strip (record_get record F_qids ""))).
  destruct (field_is record F_consent "1"); simpl;
    [|split; [done|by intros (_ & ? & _)]].
  set (age := record_get record "age_c4982e_ee0b48_0fa205_v2_fdabe5" "").
  destruct (check_qids _) as [review qids_reasons].
  match goal with
  | |- (if review then _ else if Nat.eqb (length ?l) 0 then _ else _) = _ <-> _ =>
      set (final := l)
  end.
  assert (Hfinal : final = [] <->
    (negb (PyStr.truthy age) || negb (PyStr.isdigit age)
     || match PyStr.int age with Some a => (a <? 18)%Z | None => true end
     = false)
    /\ field_is record "travel_e4c69a_ec4b4a_09fbe2_v2_1b9f19" "1" = true
    /\ field_is record "english_5c066f_a95c48_a35a95_v2_f6426d" "1" = true
    /\ field_is record "tms_contra_d3aef1_4917df_ffe8d8_v2_3ff65f" "1" = false
    /\ qids_reasons = []
    /\ PyStr.truthy
         (PyStr.strip
            (record_get record
               "participant_email_a29017_723fd8_6c173d_v2_98aab5" "")) = true).
  { subst final. rewrite append_if_nil. split.
    - intros [He Hl]. apply app_eq_nil in Hl as [Hl Hq].
      apply append_if_nil in Hl as [Htms Hl].
      apply append_if_nil in Hl as [Heng Hl].
      apply append_if_nil in Hl as [Htr Hl].
      apply append_if_nil in Hl as [Hage _].
      apply negb_false_iff in He, Heng, Htr. done.
    - intros (Hage & Htr & Heng & Htms & Hq & He).
      rewrite Hage, Htr, Heng, Htms, Hq, He. done. }
  assert (Hage : negb (PyStr.truthy age) || negb (PyStr.isdigit age)
     || match PyStr.int age with Some a => (a <? 18)%Z | None => true end
     = false <->
     exists a, PyStr.isdigit age = true /\ PyStr.int age = Some a /\ 18 <= a).
  { split.
    - intros H. apply orb_false_iff in H as [H Ha].
      apply orb_false_iff in H as [_ Hd]. apply negb_false_iff in Hd.
      destruct (PyStr.int age) as [a|]; [|done]. exists a.
      apply Z.ltb_ge in Ha. done.
    - intros (a & Hd & Ha & Hle). rewrite Hd, Ha, (int_truthy age a Ha).
      simpl. by apply Z.ltb_ge. }
  rewrite <- Hage. clear Hage. destruct review.
  - split; [done|]. by intros (_ & _ & _ & _ & _ & _ & [=] & _).
  - destruct final as [|r rs]; simpl.
    + split.
      * intros [= <-]. destruct Hfinal as [Hf _].
        destruct (Hf eq_refl) as (? & ? & ? & ? & -> & ?). done.
      * by intros [-> _].
    + split; [done|]. intros (_ & _ & H1 & H2 & H3 & H4 & [= Hq] & H5).
      destruct Hfinal as [_ Hf]. by discriminate Hf.
Qed.

Lemma eligible_qids (record : gmap string string) (reasons : list string) :
  EligibilityChecker_check_eligibility record = ("ELIGIBLE", reasons) ->
  check_qids (PyStr.strip (record_get record F_qids "")) = (false, []).
Proof.
  unfold EligibilityChecker_check_eligibility.
  destruct (field_is record F_consent "1"); simpl; [|done].
  destruct (check_qids _) as [review qids_reasons].
  destruct review; [done|].
  match goal with
  | |- context [append_if ?b ?r ?l] =>
      match l with
      | (_ ++ qids_reasons)%list =>
          pose proof (append_if_nil b r l) as Hnil;
          destruct (append_if b r l) as [|reason rest]
      end
  end; [|done].
  intros _. destruct Hnil as [[_ Hnil] _]; [done|].
  apply app_eq_nil in Hnil as [_ ->]. done.
Qed.

(** X9: with the repository's own [EligibilityChecker], the guards of
    [process_records] between the eligibility check and the retry loop
    never fire: an ELIGIBLE record has a QIDS score that parses to an
    integer from 0 to 20, so it is neither skipped nor counted as an
    error, [determine_group] does not raise, and the record goes to the
    retry loop with the healthy-control range up to a score of 10 and the
    MDD range above. *)
Theorem eligible_record_reaches_assignment {codec : JsonCodec}
    (client : REDCapClient) (record : gmap string string)
    (reasons : list string) (loc : Locals) :
  EligibilityChecker_check_eligibility record = ("ELIGIBLE", reasons) ->
  exists q,
    PyStr.int (PyStr.strip (record_get record F_qids "")) = Some q
    /\ 0 <= q <= 20
    /\ process_record (checker := eligibility_checker) client record loc
       = assign_id client (record !! F_record_id)
           (if (q <=? 10)%Z then "healthy_control" else "mdd_participant") loc.
Proof.
  intros He. pose proof (eligible_qids record reasons He) as Hc.
  apply check_qids_valid in Hc as (q & Hq & Hr).
  exists q. split; [done|]. split; [done|].
  unfold process_record. cbn [check_eligibility eligibility_checker].
  rewrite He. cbn [String.eqb Ascii.eqb Bool.eqb negb].
  rewrite (int_truthy _ q Hq), Hq. cbn [negb]. unfold determine_group.
  destruct (Z.leb_spec q 10); [done|].
  by destruct (Z.leb_spec q 20); [|lia].
Qed.

Lemma eligible_record_reaches_assignment_witness :
  exists q,
    PyStr.int (PyStr.strip (record_get pending_record F_qids "")) = Some q
    /\ 0 <= q <= 20
    /\ process_record (codec := demo_codec) (checker := eligibility_checker)
         demo_client pending_record initial_locals
       = assign_id (codec := demo_codec) demo_client
           (pending_record !! F_record_id)
           (if (q <=? 10)%Z then "healthy_control" else "mdd_participant")
           initial_locals.
Proof.
  apply (eligible_record_reaches_assignment demo_client pending_record []).
  reflexivity.
Defined.

(** X10: for a record with consent whose age is ASCII text of at
    most 4300 characters (so that [int(age)] cannot raise),
    [check_eligibility] answers REVIEW_REQUIRED exactly when the QIDS
    score is unusable (blank, not an integer, or outside 0..27), whatever
    the other criteria say; the list of reasons is then not empty. *)
Theorem review_required_iff (record : gmap string string) :
  field_is record F_consent "1" = true ->
  plain_age record ->
  ((EligibilityChecker_check_eligibility record).1 = "REVIEW_REQUIRED" <->
   forall q, PyStr.int (PyStr.strip (record_get record F_qids "")) = Some q ->
             ~ 0 <= q <= 27)
  /\ ((EligibilityChecker_check_eligibility record).1 = "REVIEW_REQUIRED" ->
      (EligibilityChecker_check_eligibility record).2 <> []).
Proof.
  intros Hc _. unfold EligibilityChecker_check_eligibility. rewrite Hc.
  cbn [negb]. cbv zeta.
  rewrite <- (check_qids_review (PyStr.strip (record_get record F_qids ""))).
  pose proof (check_qids_reasons (PyStr.strip (record_get record F_qids "")))
    as Hr.
  destruct (check_qids _) as [review qids_reasons]. simpl in Hr.
  destruct review; simpl.
  - split; [done|]. intros _ Hnil.
    apply append_if_nil in Hnil as [_ Hnil].
    apply app_eq_nil in Hnil as [_ Hnil]. by apply Hr.
  - destruct (Nat.eqb _ 0); simpl; split; done.
Qed.

Lemma review_required_iff_witness :
  (EligibilityChecker_check_eligibility
     (<[F_qids := "n/a"]> pending_record)).1 = "REVIEW_REQUIRED".
Proof.
  destruct (review_required_iff (<[F_qids := "n/a"]> pending_record))
    as [[_ Hreview] _].
  - vm_compute. reflexivity.
  - split; vm_compute; [reflexivity|lia].
  - apply Hreview. intros q. vm_compute. discriminate.
Defined.

(** X11: for a record whose age is ASCII text of at most 4300
    characters (so that [int(age)] cannot raise), [check_eligibility]
    answers one of ELIGIBLE, INELIGIBLE and REVIEW_REQUIRED, and its list
    of reasons is empty exactly when the answer is ELIGIBLE. *)
Theorem reasons_empty_iff_eligible (record : gmap string string) :
  plain_age record ->
  let '(status, reasons) := EligibilityChecker_check_eligibility record in
  (status = "ELIGIBLE" \/ status = "INELIGIBLE" \/ status = "REVIEW_REQUIRED")
  /\ (reasons = [] <-> status = "ELIGIBLE").
Proof.
  intros _. unfold EligibilityChecker_check_eligibility.
  destruct (field_is record F_consent "1"); simpl; [|by split; [auto|]].
  pose proof (check_qids_reasons (PyStr.strip (record_get record F_qids "")))
    as Hr.
  destruct (check_qids _) as [review qids_reasons]. simpl in Hr.
  match goal with
  | |- context [append_if ?b ?r ?l] =>
      match l with
      | (_ ++ qids_reasons)%list =>
          pose proof (append_if_nil b r l) as Hnil;
          destruct (append_if b r l) as [|reason reasons] eqn:Hfinal
      end
  end.
  - destruct review; simpl.
    + destruct Hnil as [[_ Hnil] _]; [done|].
      apply app_eq_nil in Hnil as [_ Hnil]. by destruct Hr.
    + split; [auto|done].
  - destruct review; simpl; (split; [auto|done]).
Qed.

Lemma reasons_empty_iff_eligible_witness :
  EligibilityChecker_check_eligibility
    (<["age_c4982e_ee0b48_0fa205_v2_fdabe5" := "17"]> pending_record)
  = ("INELIGIBLE", ["Age: Must be 18 or older"])
  /\ (["Age: Must be 18 or older"] = [] <-> "INELIGIBLE" = "ELIGIBLE").
Proof.
  split; [vm_compute; reflexivity|].
  pose proof (reasons_empty_iff_eligible
                (<["age_c4982e_ee0b48_0fa205_v2_fdabe5" := "17"]>
                   pending_record)) as H.
  assert (Hage : plain_age
                   (<["age_c4982e_ee0b48_0fa205_v2_fdabe5" := "17"]>
                      pending_record)).
  { split; vm_compute; [reflexivity|lia]. }
  specialize (H Hage).
  assert (Hrun : EligibilityChecker_check_eligibility
                   (<["age_c4982e_ee0b48_0fa205_v2_fdabe5" := "17"]>
                      pending_record)
                 = ("INELIGIBLE", ["Age: Must be 18 or older"])).
  { vm_compute. reflexivity. }
  rewrite Hrun in H. exact (proj2 H).
Defined.

(** ** Completion *)

Lemma completion_loop_spec record fields completed missing :
  completion_loop record fields completed missing
  = ((completed ++ List.filter (filled record) fields)%list,
     (missing ++ List.filter (fun f => negb (filled record f)) fields)%list).
Proof.
  revert completed missing.
  induction fields as [|field rest IH]; intros completed missing.
  - simpl. by rewrite !app_nil_r.
  - cbn [completion_loop List.filter]. fold (filled record field).
    destruct (filled record field); simpl; rewrite IH;
      by rewrite <- app_assoc.
Qed.

Lemma filter_negb_nil {A} (f : A -> bool) (l : list A) :
  List.filter (fun x => negb (f x)) l = [] <-> forall x, In x l -> f x = true.
Proof.
  induction l as [|a l IH]; simpl.
  - by split.
  - destruct (f a) eqn:Ha; simpl.
    + rewrite IH. split; [intros H x [<-|Hx]; auto|auto].
    + split; [done|]. intros H. specialize (H a (or_introl eq_refl)).
      congruence.
Qed.

Lemma filter_partition_length {A} (f : A -> bool) (l : list A) :
  (length (List.filter f l) + length (List.filter (fun x => negb (f x)) l)
   = length l)%nat.
Proof.
  induction l as [|a l IH]; [done|]. simpl.
  destruct (f a); simpl; lia.
Qed.

(** X12: [needs_processing] is [is_complete] of [get_completion_status]
    (its own email test never changes the answer, the email being one of
    the required fields), and it holds exactly when each of the ten
    required fields is present and not blank. *)
Theorem needs_processing_iff (record : gmap string string) :
  needs_processing record = is_complete (get_completion_status record)
  /\ (needs_processing record = true <->
      forall field, In field required_fields ->
        PyStr.truthy (PyStr.strip (record_get record field "")) = true).
Proof.
  assert (Hc : is_complete (get_completion_status record) = true <->
    forall field, In field required_fields -> filled record field = true).
  { unfold get_completion_status. rewrite completion_loop_spec.
    cbn [is_complete app]. rewrite Nat.eqb_eq, length_zero_iff_nil.
    apply filter_negb_nil. }
  assert (He : needs_processing record
               = is_complete (get_completion_status record)).
  { unfold needs_processing. cbv zeta.
    destruct (is_complete (get_completion_status record)); [|done].
    cbn [andb].
    apply (proj1 Hc eq_refl "participant_email_a29017_723fd8_6c173d_v2_98aab5").
    unfold required_fields. simpl. tauto. }
  split; [done|]. rewrite He. apply Hc.
Qed.

(** X13: [get_completion_status] splits the ten required fields, in
    order, into the completed and the missing ones: the two lists have
    ten entries together, and the percentage is ten times the number of
    completed fields, 100 exactly when the record is complete. *)
Theorem completion_status_partition (record : gmap string string) :
  let c := get_completion_status record in
  completed_fields c = List.filter (filled record) required_fields
  /\ missing_fields c
     = List.filter (fun f => negb (filled record f)) required_fields
  /\ total_required c = 10%nat
  /\ (length (completed_fields c) + length (missing_fields c))%nat = 10%nat
  /\ (completion_percentage c
      == inject_Z (10 * Z.of_nat (length (completed_fields c))))%Q
  /\ (is_complete c = true <-> (completion_percentage c == 100)%Q).
Proof.
  cbv zeta. unfold get_completion_status. rewrite completion_loop_spec.
  cbn [app completed_fields missing_fields total_required is_complete
       completion_percentage].
  pose proof (filter_partition_length (filled record) required_fields) as Hlen.
  change (length required_fields) with 10%nat in *.
  set (completed := List.filter (filled record) required_fields) in *.
  set (missing := List.filter (fun f => negb (filled record f)) required_fields)
    in *.
  assert (Hq : (inject_Z (Z.of_nat (length completed))
                / inject_Z (Z.of_nat 10) * 100
                == inject_Z (10 * Z.of_nat (length completed)))%Q).
  { unfold Qeq, Qdiv, Qmult, Qinv, inject_Z. simpl. lia. }
  repeat split; try done.
  - intros Hz. apply Nat.eqb_eq in Hz. rewrite Hq.
    unfold Qeq, inject_Z. simpl. lia.
  - intros H100. rewrite Hq in H100. apply Nat.eqb_eq.
    unfold Qeq, inject_Z in H100. simpl in H100. lia.
Qed.

(** ** The client *)

(** X14: [_make_request] returns only responses with a status below
    400 and raises only [RedcapApiError].  An HTTP error carries the
    status, the body and the client's detection strings; a transport
    error carries no status and no body, so it is never classified as a
    unique-constraint violation. *)
Theorem make_request_contract (client : REDCapClient) (data : Request)
    (res : PostResult) (script : list PostResult) :
  match (run scripted (_make_request client data) (res :: script)).1.1 with
  | Returned response =>
      res = PostResponse response /\ resp_status_code response < 400
  | Raised (ApiError err) =>
      match res with
      | PostResponse response =>
          400 <= resp_status_code response
          /\ status_code err = Some (resp_status_code response)
          /\ response_body err = Some (resp_text response)
          /\ detection_strings err
             = match concurrency_detection_list client with
               | [] => default_detection_strings
               | l => l
               end
      | PostRequestException _ =>
          status_code err = None /\ response_body err = None
          /\ is_unique_constraint_violation err = false
      end
  | Raised _ => False
  | Starved => False
  end.
Proof.
  rewrite run_make_request. cbn [fst]. unfold request_outcome.
  destruct res as [response|e]; [|done].
  destruct (Z.leb_spec 400 (resp_status_code response)).
  - cbn. by destruct (concurrency_detection_list client).
  - split; [done|lia].
Qed.

(** X15: [REDCapClient.__init__] never leaves the client without
    detection strings: the list has an entry for each comma-separated
    piece of REDCAP_CONCURRENCY_STRINGS, so at least one, and it is the
    three default strings when the variable is not set.  The fallback of
    [RedcapApiError] to its own defaults is thus never taken for the
    errors of this client. *)
Theorem init_detection_list (environ : gmap string string)
    (client : REDCapClient) :
  REDCapClient_init environ = Ok client ->
  concurrency_detection_list client <> []
  /\ (environ !! "REDCAP_CONCURRENCY_STRINGS" = None ->
      concurrency_detection_list client = default_detection_strings)
  /\ forall msg sc body,
       detection_strings
         (RedcapApiError_init msg sc body
            (Some (concurrency_detection_list client)))
       = concurrency_detection_list client.
Proof.
  unfold REDCapClient_init. destruct (_ || _)%bool; [done|].
  intros [= <-]. cbn [concurrency_detection_list].
  set (s := match environ !! "REDCAP_CONCURRENCY_STRINGS" with
            | Some v => v
            | None => _
            end).
  assert (Hne : List.map (fun s => PyStr.lower (PyStr.strip s))
                  (str_split s ",") <> []).
  { unfold str_split. by destruct (split_pieces _ s). }
  split; [done|]. split.
  - intros Hnone. subst s. rewrite Hnone. reflexivity.
  - intros msg sc body. unfold RedcapApiError_init. cbn [detection_strings].
    by destruct (List.map _ _).
Qed.

Lemma init_detection_list_witness :
  concurrency_detection_list demo_client <> [].
Proof.
  apply (init_detection_list
           {[ "REDCAP_API_URL" := "https://redcap.example/api/";
              "REDCAP_API_TOKEN" := "T" ]} demo_client).
  reflexivity.
Defined.

Lemma any_detection_blank body ds :
  In "" ds -> any_detection body ds = true.
Proof.
  induction ds as [|d ds IH]; [done|]. intros [->|Hin]; simpl.
  - by destruct body.
  - destruct (PyStr.contains _ _); [done|]. by apply IH.
Qed.

(** X16: a blank piece in REDCAP_CONCURRENCY_STRINGS (an empty value, a
    trailing comma, two commas in a row) becomes an empty detection
    string, and the empty string is found in every body: the client then
    classifies every HTTP 400, 409 or 422 answer with a non-empty body as
    a unique-constraint violation. *)
Theorem blank_detection_string (environ : gmap string string)
    (client : REDCapClient) (s piece : string) (data : Request)
    (response : Response) (script : list PostResult) :
  REDCapClient_init environ = Ok client ->
  environ !! "REDCAP_CONCURRENCY_STRINGS" = Some s ->
  In piece (str_split s ",") -> PyStr.strip piece = "" ->
  In (resp_status_code response) [400; 409; 422] ->
  resp_text response <> "" ->
  exists err,
    (run scripted (_make_request client data)
       (PostResponse response :: script)).1.1 = Raised (ApiError err)
    /\ is_unique_constraint_violation err = true.
Proof.
  unfold REDCapClient_init. destruct (_ || _)%bool; [done|].
  intros [= <-] -> Hpiece Hblank Hstatus Hbody.
  rewrite run_make_request. cbn [fst]. unfold request_outcome.
  assert (H400 : (400 <=? resp_status_code response)%Z = true).
  { apply Z.leb_le. simpl in Hstatus. lia. }
  rewrite H400. eexists. split; [reflexivity|].
  unfold is_unique_constraint_violation, RedcapApiError_init.
  cbn [response_body status_code detection_strings concurrency_detection_list].
  assert (Hin : In "" (List.map (fun s => PyStr.lower (PyStr.strip s))
                         (str_split s ","))).
  { apply in_map_iff. exists piece. by rewrite Hblank. }
  destruct (List.map _ _) as [|d l] eqn:Hl; [done|].
  assert (Hs : status_in (Some (resp_status_code response))
                 collision_status_codes = true).
  { simpl in Hstatus. destruct Hstatus as [<-|[<-|[<-|[]]]]; reflexivity. }
  rewrite Hs. destruct (resp_text response) as [|c text] eqn:Ht; [done|].
  cbn [PyStr.truthy andb]. by apply any_detection_blank.
Qed.

Lemma blank_detection_string_witness :
  exists err,
    (run scripted
       (_make_request (mkClient ["duplicate"; ""]) (ExportRecords [] None))
       [PostResponse (mkResponse 400 "You do not have permission")]).1.1
    = Raised (ApiError err)
    /\ is_unique_constraint_violation err = true.
Proof.
  apply (blank_detection_string
           {[ "REDCAP_API_URL" := "https://redcap.example/api/";
              "REDCAP_API_TOKEN" := "T";
              "REDCAP_CONCURRENCY_STRINGS" := "Duplicate," ]}
           (mkClient ["duplicate"; ""]) "Duplicate," "").
  - reflexivity.
  - reflexivity.
  - simpl. auto.
  - reflexivity.
  - simpl. auto.
  - discriminate.
Defined.

(** ** The breaker's thresholds *)

Lemma record_failures_snoc cb times now :
  record_failures cb (times ++ [now])
  = record_failure (record_failures cb times) now.
Proof. unfold record_failures. by rewrite foldl_app. Qed.

Lemma record_failures_fields cb times :
  failure_threshold (record_failures cb times) = failure_threshold cb
  /\ failure_count (record_failures cb times)
     = failure_count cb + Z.of_nat (length times).
Proof.
  induction times as [|now times IH] using rev_ind.
  - simpl. split; [done|lia].
  - rewrite record_failures_snoc, length_app. destruct IH as [IH1 IH2].
    simpl. rewrite IH1, IH2. split; [done|lia].
Qed.

(** X17: a breaker that is not open opens exactly when its failure
    count reaches the threshold: after [n] calls of [record_failure] it
    is open if and only if [n >= 1] and the count before plus [n] is at
    least [failure_threshold].  As [record_success] resets the count, a
    breaker that is not open takes, after a success, exactly
    [failure_threshold] failures in a row to open. *)
Theorem breaker_opens_at_threshold (cb : CircuitBreaker) (times : list Z) :
  state cb <> OPEN ->
  (state (record_failures cb times) = OPEN <->
   times <> []
   /\ failure_threshold cb <= failure_count cb + Z.of_nat (length times))
  /\ (state (record_failures (record_success cb) times) = OPEN <->
      times <> [] /\ failure_threshold cb <= Z.of_nat (length times)).
Proof.
  assert (Hgen : forall cb0 : CircuitBreaker, state cb0 <> OPEN ->
    state (record_failures cb0 times) = OPEN <->
    times <> []
    /\ failure_threshold cb0 <= failure_count cb0 + Z.of_nat (length times)).
  { intros cb0 Hs. induction times as [|now times IH] using rev_ind.
    - simpl. split; [done|]. by intros [? _].
    - rewrite record_failures_snoc, length_app.
      destruct (record_failures_fields cb0 times) as [Hft Hfc].
      unfold record_failure at 1. cbn [state]. rewrite Hft, Hfc.
      destruct (Z.leb_spec (failure_threshold cb0)
                  (failure_count cb0 + Z.of_nat (length times) + 1)).
      + split; [|done]. intros _. split; [by destruct times|].
        simpl. lia.
      + rewrite IH. simpl. split.
        * intros [_ Hle]. lia.
        * intros [_ Hle]. lia. }
  intros Hs. split; [by apply Hgen|].
  rewrite Hgen.
  - simpl. by rewrite Z.add_0_l.
  - unfold record_success. cbn [state]. by destruct (_ && _)%bool.
Qed.

Lemma breaker_opens_at_threshold_witness :
  state (record_failures CircuitBreaker_default [1; 2; 3; 4]) <> OPEN
  /\ state (record_failures CircuitBreaker_default [1; 2; 3; 4; 5]) = OPEN.
Proof.
  destruct (breaker_opens_at_threshold CircuitBreaker_default [1; 2; 3; 4])
    as [H4 _]; [discriminate|].
  destruct (breaker_opens_at_threshold CircuitBreaker_default [1; 2; 3; 4; 5])
    as [H5 _]; [discriminate|].
  split.
  - intros Hopen. apply H4 in Hopen as [_ Hle]. simpl in Hle. lia.
  - apply H5. split; [discriminate|]. simpl. lia.
Defined.

Lemma record_successes_fields cb n :
  let cb' := Nat.iter n record_success cb in
  success_threshold cb' = success_threshold cb
  /\ success_count cb' = success_count cb + Z.of_nat n.
Proof.
  cbv zeta. induction n as [|n IH].
  - simpl. split; [done|lia].
  - destruct IH as [IH1 IH2]. rewrite Nat.iter_succ.
    unfold record_success at 1 3. cbn [success_threshold success_count].
    rewrite IH1, IH2. split; [done|lia].
Qed.

(** X18: a half-open breaker closes exactly when its success count
    reaches [success_threshold]: after [n] calls of [record_success] it
    is closed if [n >= 1] and the count before plus [n] is at least the
    threshold, and still half-open otherwise. *)
Theorem breaker_closes_at_threshold (cb : CircuitBreaker) (n : nat) :
  state cb = HALF_OPEN ->
  state (Nat.iter n record_success cb)
  = if ((1 <=? n)%nat
        && (success_threshold cb <=? success_count cb + Z.of_nat n)%Z)%bool
    then CLOSED else HALF_OPEN.
Proof.
  intros Hs. induction n as [|n IH]; [exact Hs|].
  rewrite Nat.iter_succ. destruct (record_successes_fields cb n) as [Hst Hsc].
  cbv zeta in Hst, Hsc. unfold record_success at 1. cbn [state].
  rewrite Hst, Hsc, IH.
  replace (success_count cb + Z.of_nat (S n))
    with (success_count cb + Z.of_nat n + 1) by lia.
  change (1 <=? S n)%nat with true. cbn [andb].
  destruct (Z.leb_spec (success_threshold cb)
              (success_count cb + Z.of_nat n + 1)) as [Hle|Hlt].
  - by destruct ((1 <=? n)%nat && _)%bool.
  - destruct (Z.leb_spec (success_threshold cb)
                (success_count cb + Z.of_nat n)); [lia|].
    by rewrite !andb_false_r.
Qed.

Lemma breaker_closes_at_threshold_witness :
  state (Nat.iter 2 record_success
           (can_attempt (record_failures CircuitBreaker_default [1; 2; 3; 4; 5])
              100).2)
  = CLOSED.
Proof.
  apply (breaker_closes_at_threshold
           (can_attempt (record_failures CircuitBreaker_default [1; 2; 3; 4; 5])
              100).2 2).
  reflexivity.
Defined.

(** X19: what a failure does to a half-open breaker depends on the
    failure count only.  Right after the breaker left the open state the
    count is still at the threshold, so a failed trial opens it again;
    but after one success the count is back at 0, and with thresholds
    above 1 the next failure leaves the breaker half-open, with attempts
    still allowed. *)
Theorem half_open_failure (cb : CircuitBreaker) (now later : Z) :
  state cb = HALF_OPEN ->
  (failure_threshold cb <= failure_count cb + 1 ->
   state (record_failure cb now) = OPEN)
  /\ (success_count cb + 1 < success_threshold cb ->
      1 < failure_threshold cb ->
      let cb' := record_failure (record_success cb) now in
      state cb' = HALF_OPEN /\ failure_count cb' = 1
      /\ can_attempt cb' later = (true, cb')).
Proof.
  intros Hs. split.
  - intros Hle. unfold record_failure. cbn [state].
    by destruct (Z.leb_spec (failure_threshold cb) (failure_count cb + 1));
      [|lia].
  - intros Hsc Hft. cbv zeta. unfold record_failure, record_success.
    cbn [state failure_threshold failure_count success_threshold
         success_count]. rewrite Hs. cbn [is_half_open andb].
    destruct (Z.leb_spec (success_threshold cb) (success_count cb + 1));
      [lia|].
    destruct (Z.leb_spec (failure_threshold cb) (0 + 1)); [lia|].
    repeat split.
Qed.

Lemma half_open_failure_witness :
  let cb := can_attempt (record_failures CircuitBreaker_default [1; 2; 3; 4; 5])
              100 in
  state (record_failure cb.2 101) = OPEN
  /\ state (record_failure (record_success cb.2) 101) = HALF_OPEN.
Proof.
  cbv zeta.
  destruct (half_open_failure
              (can_attempt
                 (record_failures CircuitBreaker_default [1; 2; 3; 4; 5]) 100).2
              101 102 eq_refl) as [Hopen Hhalf].
  split.
  - apply Hopen. vm_compute. discriminate.
  - apply Hhalf; reflexivity.
Defined.

(** ** The rate limiter's records *)

(** X20: for a limiter of capacity at least 1, after any sequence of
    calls: at most [max_calls] timestamps are recorded, so at most
    [max_calls] of them lie within the window of any instant; a call that
    finds fewer than [max_calls] timestamps after eviction is recorded
    and admitted; a call that finds [max_calls] of them is not recorded
    and gets the wait time [oldest + time_window - now], as the float
    operations compute it. *)
Theorem rate_limiter_recorded_bounded (cap window : Z) (w : spec_float)
    (times : list spec_float) (now : spec_float) :
  1 <= cap ->
  float_of_int window = Some w ->
  let rl := acquire_all (RateLimiter_init cap window) times in
  let live := evict now w (calls rl) in
  Z.of_nat (length (calls rl)) <= cap
  /\ (forall t, Z.of_nat (length (in_window w rl t)) <= cap)
  /\ (Z.of_nat (length live) < cap ->
      acquire rl now = (Allowed, mkRateLimiter cap window (live ++ [now])))
  /\ (cap <= Z.of_nat (length live) ->
      exists oldest rest,
        live = oldest :: rest
        /\ acquire rl now
           = (WaitTime (float_sub (float_add oldest w) now),
              mkRateLimiter cap window live)).
Proof.
  intros Hcap Hw rl live.
  destruct (acquire_all_invariant cap window times Hcap) as (Hm & Hwin & Hlen).
  fold rl in Hm, Hwin, Hlen.
  pose proof (evict_length now w (calls rl)) as Hev. fold live in Hev.
  split; [exact Hlen|]. split; [|split].
  - intros t. unfold in_window.
    pose proof (List.filter_length_le
                  (fun x => negb (SFleb x (float_sub t w))) (calls rl)). lia.
  - intros Hlt. unfold acquire. rewrite Hm, Hwin, Hw.
    destruct (calls rl) as [|c l] eqn:Hcalls.
    + subst live. simpl. by destruct (Z.ltb_spec 0 cap); [|lia].
    + cbv zeta. fold live.
      by destruct (Z.ltb_spec (Z.of_nat (length live)) cap); [|lia].
  - intros Hge. destruct live as [|oldest rest] eqn:Elive; [simpl in Hge; lia|].
    exists oldest, rest. split; [done|].
    unfold acquire. rewrite Hm, Hwin, Hw.
    destruct (calls rl) as [|c l] eqn:Hcalls; [done|].
    cbv zeta. fold live. rewrite Elive.
    by destruct (Z.ltb_spec (Z.of_nat (length (oldest :: rest))) cap); [lia|].
Qed.

Lemma rate_limiter_recorded_bounded_witness :
  let rl := acquire_all (RateLimiter_init 2 60) [seconds 1000; seconds 1000] in
  exists oldest rest,
    evict (seconds 1001) (seconds 60) (calls rl) = oldest :: rest
    /\ acquire rl (seconds 1001)
       = (WaitTime (float_sub (float_add oldest (seconds 60)) (seconds 1001)),
          mkRateLimiter 2 60 (evict (seconds 1001) (seconds 60) (calls rl))).
Proof.
  destruct (rate_limiter_recorded_bounded 2 60 (seconds 60)
              [seconds 1000; seconds 1000] (seconds 1001) ltac:(lia) eq_refl)
    as (_ & _ & _ & H).
  apply H. vm_compute. discriminate.
Defined.

(** X21: a limiter created with a capacity of 0 or less never admits a
    call and never hands out a wait time: every [acquire] ends in the
    [IndexError] of [self.calls[0]] on the empty deque. *)
Theorem acquire_without_capacity (cap window : Z) (times : list spec_float)
    (now : spec_float) :
  cap <= 0 ->
  acquire (acquire_all (RateLimiter_init cap window) times) now
  = (IndexError, mkRateLimiter cap window []).
Proof.
  intros Hcap.
  assert (H0 : (0 <? cap)%Z = false) by lia.
  assert (Hstep : forall t,
    acquire (mkRateLimiter cap window []) t
    = (IndexError, mkRateLimiter cap window [])).
  { intros t. unfold acquire. cbn [calls max_calls]. by rewrite H0. }
  assert (Hinv : acquire_all (RateLimiter_init cap window) times
                 = mkRateLimiter cap window []).
  { induction times as [|t times IH] using rev_ind; [done|].
    unfold acquire_all in *. rewrite foldl_app. simpl. rewrite IH.
    by rewrite Hstep. }
  rewrite Hinv. apply Hstep.
Qed.

Lemma acquire_without_capacity_witness :
  acquire (acquire_all (RateLimiter_init 0 60) [seconds 1; seconds 2])
    (seconds 3)
  = (IndexError, mkRateLimiter 0 60 []).
Proof. apply acquire_without_capacity. lia. Defined.

(** ** How often the dispatcher sends *)

Section SendCount.
Context {Ex : Type}.
Variable ans : forall X, MailE X -> X -> Prop.
Variable sel : Provider -> bool.

Lemma sends_at_most_mono {A} n m (p : Prog MailE Ex A) :
  (n <= m)%nat -> sends_at_most ans sel n p -> sends_at_most ans sel m p.
Proof.
  revert n m. induction p as [a|e|X ev k IH]; intros n m Hle; simpl; try done.
  destruct ev as [q email_data|q| | |seconds];
    try (intros Hk x Hx; by apply (IH x n m), Hk).
  destruct (sel q); [|intros Hk x Hx; by apply (IH x n m), Hk].
  destruct n as [|n]; [done|]. destruct m as [|m]; [lia|].
  intros Hk x Hx. apply (IH x n m); [lia|by apply Hk].
Qed.

Lemma sends_at_most_bind {A B} n k (m : Prog MailE Ex A)
    (f : A -> Prog MailE Ex B) :
  sends_at_most ans sel n m -> (forall a, sends_at_most ans sel k (f a)) ->
  sends_at_most ans sel (n + k) (m ≫= f).
Proof.
  change (m ≫= f) with (bind m f).
  intros Hm Hf. revert n Hm.
  induction m as [a|e|X ev c IH]; intros n Hm; simpl.
  - apply (sends_at_most_mono k); [lia|apply Hf].
  - done.
  - simpl in Hm. destruct ev as [q email_data|q| | |seconds];
      try (intros x Hx; by apply IH, Hm).
    destruct (sel q); [|intros x Hx; by apply IH, Hm].
    destruct n as [|n]; [done|]. intros x Hx. by apply IH, Hm.
Qed.

Lemma sends_at_most_run {A W} (h : Handler MailE W) n
    (p : Prog MailE Ex A) w :
  answers h ans -> sends_at_most ans sel n p ->
  (count_sends sel (run h p w).2 <= n)%nat.
Proof.
  intros Hans. revert n w.
  induction p as [a|e|X ev k IH]; intros n w; simpl; try lia.
  intros Hp. destruct (h X ev w) as [[x w']|] eqn:Hh; [|simpl; lia].
  pose proof (Hans X ev w x w' Hh) as Hx. specialize (IH x).
  destruct ev as [q email_data|q| | |seconds];
    try (specialize (IH n w' (Hp x Hx));
         destruct (run h (k x) w') as [[o w''] t]; simpl in *; lia).
  destruct (sel q) eqn:Hq.
  - destruct n as [|n]; [done|]. specialize (IH n w' (Hp x Hx)).
    destruct (run h (k x) w') as [[o w''] t]. simpl in *. rewrite Hq. lia.
  - specialize (IH n w' (Hp x Hx)).
    destruct (run h (k x) w') as [[o w''] t]. simpl in *. rewrite Hq. lia.
Qed.

Lemma sends_backoff_sleep attempt :
  sends_at_most ans sel 0 (backoff_sleep (Ex := Ex) attempt).
Proof. by cbn. Qed.

End SendCount.

Lemma filter_cons_length {A} (sel : A -> bool) x l :
  length (List.filter sel (x :: l))
  = ((if sel x then 1 else 0) + length (List.filter sel l))%nat.
Proof. simpl. by destruct (sel x). Qed.

Section DispatchCount.
Variable ans : forall X, MailE X -> X -> Prop.
Variable sel : Provider -> bool.

Lemma sends_attempt_loop {Ex} mr p cb email_data todo le atts :
  sends_at_most ans sel (if sel p then length todo else 0)
    (attempt_loop (Ex := Ex) mr p cb email_data todo le atts).
Proof.
  revert le atts. induction todo as [|attempt rest IH]; intros le atts.
  - by destruct (sel p).
  - assert (Hrest : forall le' atts',
      sends_at_most ans sel (if sel p then length rest else 0)
        (bind (backoff_sleep attempt)
           (fun _ => attempt_loop (Ex := Ex) mr p cb email_data rest
                       le' atts'))).
    { intros le' atts'.
      apply (sends_at_most_bind ans sel 0); [apply sends_backoff_sleep|].
      intros _. apply IH. }
    cbn [attempt_loop]. unfold mbind, Prog_bind, call.
    cbn [bind sends_at_most length].
    destruct (sel p); intros out _;
      (destruct out as [r|e];
       [destruct (res_success r); [done|];
        destruct (_ || _)%bool; [|done]|];
       (destruct (_ <? _)%Z; [apply Hrest|apply IH])).
Qed.

Lemma sends_can_attempt_now cb :
  sends_at_most ans sel 0 (can_attempt_now cb).
Proof.
  unfold can_attempt_now. destruct (state cb); try done.
  by destruct (time_truthy _).
Qed.

(** The providers are tried one after the other: the bounds of the
    attempt loops add up. *)
Lemma sends_provider_loop mr email_data b order :
  (forall p cb le atts,
     sends_at_most ans sel (if sel p then b else 0)
       (attempt_loop (Ex := MailExn) mr p cb email_data
          (seq 0 (Z.to_nat mr)) le atts)) ->
  forall cbs le atts,
    sends_at_most ans sel (b * length (List.filter sel order))
      (provider_loop mr email_data order cbs le atts).
Proof.
  intros Hloop. induction order as [|p rest IH]; intros cbs le atts; [done|].
  cbn [provider_loop]. destruct (cbs !! provider_name p) as [cb|]; [|done].
  assert (Hle : (b * length (List.filter sel rest)
                 <= b * length (List.filter sel (p :: rest)))%nat).
  { rewrite filter_cons_length, Nat.mul_add_distr_l. destruct (sel p); lia. }
  apply (sends_at_most_bind ans sel 0); [apply sends_can_attempt_now|].
  intros [ok cb1]. destruct (negb ok).
  { eapply sends_at_most_mono; [exact Hle|apply IH]. }
  unfold mbind, Prog_bind, call. cbn [bind sends_at_most].
  intros healthy _. destruct (negb healthy).
  { eapply sends_at_most_mono; [exact Hle|apply IH]. }
  apply (sends_at_most_mono ans sel
           ((if sel p then b else 0) + b * length (List.filter sel rest))).
  { rewrite filter_cons_length, Nat.mul_add_distr_l. destruct (sel p); lia. }
  apply sends_at_most_bind; [apply Hloop|].
  intros [[d cb2]|[le' atts']]; [done|].
  cbn [bind sends_at_most]. intros now _. apply IH.
Qed.

End DispatchCount.

Lemma filter_insert_by_key {A} (sel : A -> bool) (key : A -> nat) x l :
  length (List.filter sel (insert_by_key key x l))
  = length (List.filter sel (x :: l)).
Proof.
  induction l as [|y l IH]; [done|]. cbn [insert_by_key].
  destruct (key x <=? key y)%nat; [done|].
  cbn [List.filter] in *. destruct (sel y), (sel x); simpl in *; lia.
Qed.

Lemma filter_sorted {A} (sel : A -> bool) (key : A -> nat) l :
  length (List.filter sel (sorted l key)) = length (List.filter sel l).
Proof.
  induction l as [|x l IH]; [done|]. cbn [sorted].
  rewrite filter_insert_by_key. cbn [List.filter].
  destruct (sel x); simpl; lia.
Qed.

Lemma filter_provider_order (sel : Provider -> bool) providers email_data :
  length (List.filter sel (provider_order providers email_data))
  = length (List.filter sel providers).
Proof.
  unfold provider_order.
  destruct (is_stanford_recipient email_data); apply filter_sorted.
Qed.

(** X22: for one email the dispatcher calls [send_email] of a provider
    at most [max_retries] times: in any environment, the calls that go
    to the providers selected by [sel] number at most [max_retries] times
    the number of selected providers (all of them, one of them, the ones
    of a name). *)
Theorem sends_bounded (sender : MultiProviderEmailSender)
    (email_data : EmailData) (sel : Provider -> bool)
    {W} (h : Handler MailE W) (w : W) :
  (count_sends sel (run h (_send_with_providers sender email_data) w).2
   <= Z.to_nat (max_retries sender)
      * length (List.filter sel (providers sender)))%nat.
Proof.
  rewrite <- (filter_provider_order sel (providers sender) email_data).
  apply (sends_at_most_run any_answer sel); [done|].
  apply sends_provider_loop. intros p cb le atts.
  pose proof (sends_attempt_loop any_answer sel (Ex := MailExn)
                (max_retries sender) p cb email_data
                (seq 0 (Z.to_nat (max_retries sender))) le atts) as H.
  by rewrite length_seq in H.
Qed.

Lemma sends_attempt_loop_plain {Ex} sel mr p cb email_data todo le atts :
  sends_at_most (plain_failures sel) sel (if sel p then 1 else 0)
    (attempt_loop (Ex := Ex) mr p cb email_data todo le atts).
Proof.
  destruct (sel p) eqn:Hp.
  - destruct todo as [|attempt rest]; [done|].
    cbn [attempt_loop]. unfold mbind, Prog_bind, call.
    cbn [bind sends_at_most]. rewrite Hp.
    intros out Hout. destruct (Hout Hp) as (r & -> & Hretry & Hstatus).
    rewrite Hretry, Hstatus. by destruct (res_success r).
  - pose proof (sends_attempt_loop (plain_failures sel) sel (Ex := Ex)
                  mr p cb email_data todo le atts) as H.
    by rewrite Hp in H.
Qed.

(** X23: a provider whose [send_email] reports a failure as the SMTP
    handlers do (a dictionary with neither [retry] nor [status_code], no
    exception) is never retried: for one email the dispatcher calls each
    such provider at most once, whatever [max_retries] is. *)
Theorem plain_failure_not_retried (sender : MultiProviderEmailSender)
    (email_data : EmailData) (sel : Provider -> bool)
    {W} (h : Handler MailE W) (w : W) :
  answers h (plain_failures sel) ->
  (count_sends sel (run h (_send_with_providers sender email_data) w).2
   <= length (List.filter sel (providers sender)))%nat.
Proof.
  intros Hans.
  rewrite <- (filter_provider_order sel (providers sender) email_data).
  rewrite <- (Nat.mul_1_l (length _)).
  apply (sends_at_most_run (plain_failures sel) sel); [done|].
  apply sends_provider_loop. intros p cb le atts.
  apply sends_attempt_loop_plain.
Qed.

Lemma plain_failure_not_retried_witness :
  (count_sends (fun _ => true)
     (run refusing
        (_send_with_providers
           (MultiProviderEmailSender_init [mkProvider "stanford_smtp" 0] 3)
           external_mail) tt).2
   <= 1)%nat.
Proof.
  apply (plain_failure_not_retried
           (MultiProviderEmailSender_init [mkProvider "stanford_smtp" 0] 3)
           external_mail (fun _ => true) refusing tt).
  intros X ev w x w'. destruct ev; simpl; try done.
  intros [= <- _] _. by exists result_refused.
Defined.

Lemma sends_provider_loop_open name cb t mr email_data order :
  state cb = OPEN -> last_failure_time cb = Some t ->
  forall cbs le atts,
    cbs !! name = Some cb ->
    sends_at_most (clock_within t (recovery_timeout cb)) (named name) 0
      (provider_loop mr email_data order cbs le atts).
Proof.
  intros Hopen Ht.
  induction order as [|p rest IH]; intros cbs le atts Hcb; [done|].
  cbn [provider_loop].
  destruct (String.eqb_spec (provider_name p) name) as [Hname|Hname].
  - rewrite Hname, Hcb.
    assert (Hskip : forall now, now - t <= recovery_timeout cb ->
                                can_attempt cb now = (false, cb)).
    { intros now Hnow. unfold can_attempt. rewrite Hopen, Ht.
      destruct (Z.ltb_spec (recovery_timeout cb) (now - t)); [lia|].
      by rewrite andb_false_r. }
    assert (Hcont : sends_at_most (clock_within t (recovery_timeout cb))
                      (named name) 0
                      (provider_loop mr email_data rest (<[name := cb]> cbs)
                         le atts)).
    { apply IH. by rewrite lookup_insert_eq. }
    unfold can_attempt_now. rewrite Hopen, Ht.
    destruct (time_truthy (Some t)) eqn:Htruthy.
    + unfold mbind, Prog_bind, call. cbn [bind sends_at_most].
      intros now Hnow. simpl in Hnow. rewrite (Hskip now Hnow).
      cbn [negb]. exact Hcont.
    + unfold mbind, Prog_bind. cbn [bind].
      unfold can_attempt. rewrite Hopen, Ht, Htruthy. cbn [andb negb].
      exact Hcont.
  - destruct (cbs !! provider_name p) as [cb0|]; [|done].
    apply (sends_at_most_bind _ _ 0 0); [apply sends_can_attempt_now|].
    intros [ok cb1].
    assert (Hcb1 : forall cb', <[provider_name p := cb']> cbs !! name = Some cb).
    { intros cb'. by rewrite lookup_insert_ne. }
    destruct (negb ok); [by apply IH|].
    unfold mbind, Prog_bind, call. cbn [bind sends_at_most].
    intros healthy _. destruct (negb healthy); [by apply IH|].
    apply (sends_at_most_bind _ _ 0 0).
    + pose proof (sends_attempt_loop
                    (clock_within t (recovery_timeout cb)) (named name)
                    (Ex := MailExn) mr p cb1 email_data
                    (seq 0 (Z.to_nat mr)) le atts) as H.
      unfold named at 2 in H.
      by destruct (String.eqb_spec (provider_name p) name).
    + intros [[d cb2]|[le' atts']]; [done|].
      cbn [bind sends_at_most]. intros now _. apply IH.
      rewrite lookup_insert_ne by done. apply Hcb1.
Qed.

(** X24: while a provider's breaker is open and its recovery time has
    not passed, the dispatcher does not call that provider's
    [send_email]: with the breaker of [name] open since [t] and every
    clock reading within [recovery_timeout] of [t], no call of the run
    goes to a provider of that name. *)
Theorem open_breaker_skips (sender : MultiProviderEmailSender)
    (email_data : EmailData) (name : string) (cb : CircuitBreaker) (t : Z)
    {W} (h : Handler MailE W) (w : W) :
  circuit_breakers sender !! name = Some cb ->
  state cb = OPEN -> last_failure_time cb = Some t ->
  answers h (clock_within t (recovery_timeout cb)) ->
  count_sends (named name)
    (run h (_send_with_providers sender email_data) w).2 = 0%nat.
Proof.
  intros Hcb Hopen Ht Hans.
  apply Nat.le_0_r.
  apply (sends_at_most_run (clock_within t (recovery_timeout cb))
           (named name)); [done|].
  by apply (sends_provider_loop_open name cb t).
Qed.

Lemma open_breaker_skips_witness :
  count_sends (named "sendgrid")
    (run mail_script
       (_send_with_providers
          (mkSender api_then_relay 3
             (<["sendgrid" := record_failures CircuitBreaker_default
                                [990; 991; 992; 993; 994]]>
                (circuit_breakers demo_sender)))
          external_mail) [SendReturned result_ok]).2 = 0%nat.
Proof.
  apply (open_breaker_skips _ external_mail "sendgrid"
           (record_failures CircuitBreaker_default [990; 991; 992; 993; 994])
           994 mail_script).
  - reflexivity.
  - reflexivity.
  - reflexivity.
  - intros X ev w x w'. destruct ev; simpl; try done.
    intros [= <- _]. lia.
Defined.

(** ** Breakers and metrics across dispatches *)

Lemma post_attempt_loop mr p cb email_data todo le atts :
  prog_post
    (fun r => match r with
              | inl (d, _) => names_provider d
              | inr _ => True
              end)
    (fun _ : MailExn => False)
    (attempt_loop mr p cb email_data todo le atts).
Proof.
  revert le atts. induction todo as [|attempt rest IH]; intros le atts; [done|].
  cbn [attempt_loop]. unfold mbind, Prog_bind, call. cbn [bind prog_post].
  intros [r|e].
  - destruct (res_success r) eqn:Hs.
    + unfold names_provider. cbn. rewrite Hs. by eexists.
    + destruct (_ || _)%bool; [|done].
      destruct (_ <? _)%Z; [|apply IH]. cbn. intros _ _. apply IH.
  - destruct (_ <? _)%Z; [|apply IH]. cbn. intros _ _. apply IH.
Qed.

Lemma post_can_attempt_now cb :
  prog_post (fun _ => True) (fun _ : MailExn => False) (can_attempt_now cb).
Proof.
  unfold can_attempt_now. destruct (state cb); try done.
  by destruct (time_truthy _).
Qed.

Lemma post_provider_loop mr email_data order :
  forall cbs le atts,
    (forall p, In p order -> is_Some (cbs !! provider_name p)) ->
    prog_post
      (fun '(d, cbs') =>
         names_provider d
         /\ forall k, is_Some (cbs !! k) -> is_Some (cbs' !! k))
      (fun _ => False)
      (provider_loop mr email_data order cbs le atts).
Proof.
  induction order as [|p rest IH]; intros cbs le atts Hdom.
  - by cbn.
  - cbn [provider_loop].
    destruct (Hdom p (or_introl eq_refl)) as [cb ->].
    assert (Hnext : forall cbs1 le1 atts1,
      (forall k, is_Some (cbs !! k) -> is_Some (cbs1 !! k)) ->
      prog_post
        (fun '(d, cbs') =>
           names_provider d
           /\ forall k, is_Some (cbs !! k) -> is_Some (cbs' !! k))
        (fun _ => False)
        (provider_loop mr email_data rest cbs1 le1 atts1)).
    { intros cbs1 le1 atts1 Hsub.
      eapply prog_post_mono; [| |apply IH].
      - intros [d cbs'] [Hd Hk]. split; [done|]. intros k Hk'.
        by apply Hk, Hsub.
      - done.
      - intros q Hq. apply Hsub, Hdom. by right. }
    assert (Hins : forall (m : gmap string CircuitBreaker) cb' k,
      is_Some (m !! k) -> is_Some (<[provider_name p := cb']> m !! k)).
    { intros m cb' k Hk. apply lookup_insert_is_Some'. by right. }
    eapply prog_post_bind; [apply post_can_attempt_now|].
    intros [ok cb1] _. destruct (negb ok); [apply Hnext, Hins|].
    unfold mbind, Prog_bind, call. cbn [bind prog_post].
    intros healthy. destruct (negb healthy); [apply Hnext, Hins|].
    eapply prog_post_bind; [apply post_attempt_loop|].
    intros [[d cb2]|[le' atts']] Hr.
    + cbn. split; [done|]. intros k Hk. by apply Hins, Hins.
    + cbn [bind prog_post]. intros now. apply Hnext.
      intros k Hk. by apply Hins, Hins.
Qed.

Lemma init_breakers_cover providers mr p :
  In p providers ->
  is_Some (circuit_breakers (MultiProviderEmailSender_init providers mr)
             !! provider_name p).
Proof.
  unfold MultiProviderEmailSender_init. cbn [circuit_breakers].
  generalize (∅ : gmap string CircuitBreaker).
  assert (Hkeep : forall (l : list Provider) (m : gmap string CircuitBreaker) k,
    is_Some (m !! k) ->
    is_Some (foldl (fun m q => <[provider_name q := CircuitBreaker_default]> m)
               m l !! k)).
  { induction l as [|q l IHl]; intros m k Hk; [done|].
    simpl. apply IHl. apply lookup_insert_is_Some'. by right. }
  induction providers as [|q providers IH]; intros m; [done|].
  intros [->|Hin]; simpl.
  - apply Hkeep. rewrite lookup_insert_eq. by eexists.
  - by apply IH.
Qed.

(** X25: a sender built by [MultiProviderEmailSender.__init__] has a
    breaker for every provider, so the lookup
    [self.circuit_breakers[provider_name]] never raises [KeyError]; and
    every breaker is still there after the dispatch, so the same holds
    for the next email. *)
Theorem dispatch_needs_no_breaker (providers : list Provider)
    (max_retries : Z) (email_data : EmailData)
    {W} (h : Handler MailE W) (w : W) :
  match (run h (_send_with_providers
                  (MultiProviderEmailSender_init providers max_retries)
                  email_data) w).1.1 with
  | Returned (d, cbs') =>
      forall p, In p providers -> is_Some (cbs' !! provider_name p)
  | Raised _ => False
  | Starved => True
  end.
Proof.
  set (sender := MultiProviderEmailSender_init providers max_retries).
  assert (Hin : forall p, In p (provider_order providers email_data) ->
                          In p providers).
  { intros p. unfold provider_order.
    destruct (is_stanford_recipient email_data); apply In_sorted. }
  pose proof (prog_post_run h _ _
                (_send_with_providers sender email_data) w
                (post_provider_loop max_retries email_data
                   (provider_order providers email_data)
                   (circuit_breakers sender) None []
                   (fun p Hp => init_breakers_cover providers max_retries p
                                  (Hin p Hp)))) as Hrun.
  destruct (run h _ w) as [[o w'] t]. cbn [fst] in *.
  destruct o as [[d cbs']|e|]; [|done|done].
  destruct Hrun as [_ Hk]. intros p Hp.
  apply Hk, init_breakers_cover, Hp.
Qed.

Lemma dispatched_names_provider d : dispatched d -> names_provider d.
Proof.
  intros (sender & email_data & W & h & w & cbs' & w' & t & Hrun).
  assert (Hpost : prog_post
            (fun '(d, _) => names_provider d)
            (fun _ => True)
            (_send_with_providers sender email_data)).
  { unfold _send_with_providers.
    generalize (provider_order (providers sender) email_data).
    generalize (max_retries sender) as mr. intros mr order.
    generalize (circuit_breakers sender), (@None string), (@nil Attempt).
    induction order as [|p rest IH]; intros cbs le atts; [by cbn|].
    cbn [provider_loop]. destruct (cbs !! provider_name p) as [cb|]; [|done].
    eapply prog_post_bind.
    { eapply prog_post_mono; [| |apply post_can_attempt_now]; done. }
    intros [ok cb1] _. destruct (negb ok); [apply IH|].
    unfold mbind, Prog_bind, call. cbn [bind prog_post].
    intros healthy. destruct (negb healthy); [apply IH|].
    eapply prog_post_bind.
    { eapply prog_post_mono; [| |apply post_attempt_loop]; [|done].
      intros r Hr. exact Hr. }
    intros [[d0 cb2]|[le' atts']] Hr; [done|].
    cbn [bind prog_post]. intros now. apply IH. }
  pose proof (prog_post_run h _ _ _ w Hpost) as H.
  by rewrite Hrun in H.
Qed.

(** X26: [EmailMetrics] counts every result once, as sent or as failed,
    but books every failed email under the name 'unknown': the result of
    a failed dispatch has no [provider] entry.  After any number of
    dispatches recorded from fresh metrics, [sent_count] and
    [failed_count] add up to the number of emails, and the failure
    counter of every provider other than 'unknown' is still 0. *)
Theorem metrics_failures_unattributed (ds : list Delivery) :
  Forall dispatched ds ->
  let m := foldl record_send EmailMetrics_init ds in
  sent_count m + failed_count m = Z.of_nat (length ds)
  /\ forall name successes failures,
       provider_stats m !! name = Some (successes, failures) ->
       name <> "unknown" -> failures = 0.
Proof.
  intros Hds. cbv zeta.
  induction ds as [|d ds IH] using rev_ind; [by split|].
  apply Forall_app in Hds as [Hds Hd].
  rewrite Forall_singleton in Hd. apply dispatched_names_provider in Hd.
  destruct (IH Hds) as [Hsum Hzero]. clear IH.
  rewrite foldl_app, length_app, Nat2Z.inj_add. cbn [foldl length].
  change (Z.of_nat 1) with 1.
  set (m := foldl record_send EmailMetrics_init ds) in *.
  unfold record_send, names_provider in *.
  assert (Hentry : forall s f,
    default (0, 0) (provider_stats m !! default "unknown" (provider d))
    = (s, f) ->
    default "unknown" (provider d) <> "unknown" -> f = 0).
  { intros s f. destruct (provider_stats m !! _) as [[s0 f0]|] eqn:Hlook.
    - intros [= <- <-] Hne. by eapply Hzero.
    - by intros [= <- <-]. }
  destruct (default (0, 0)
              (provider_stats m !! default "unknown" (provider d)))
    as [s f].
  cbn [sent_count failed_count provider_stats].
  destruct (success d).
  - split; [lia|]. intros name successes failures Hname Hne.
    apply lookup_insert_Some in Hname as [[<- [= _ <-]]|[_ Hname]].
    + by eapply Hentry.
    + by eapply Hzero.
  - split; [lia|]. rewrite Hd. cbn [default].
    intros name successes failures Hname Hne.
    apply lookup_insert_Some in Hname as [[<- _]|[_ Hname]]; [done|].
    by eapply Hzero.
Qed.

Lemma metrics_failures_unattributed_witness :
  let m := foldl record_send EmailMetrics_init [refused_delivery] in
  sent_count m + failed_count m = 1
  /\ forall name successes failures,
       provider_stats m !! name = Some (successes, failures) ->
       name <> "unknown" -> failures = 0.
Proof.
  apply (metrics_failures_unattributed [refused_delivery]).
  constructor; [|constructor].
  exists (MultiProviderEmailSender_init [mkProvider "stanford_smtp" 0] 3),
    external_mail, unit, refusing, tt.
  eexists _, _, _. vm_compute. reflexivity.
Defined.

(** ** SendGrid error classification *)

Ltac known_status :=
  cbn [default info_retry info_wait info_reason];
  repeat split;
  solve [ reflexivity | discriminate | by eexists | by intros [? [=]]
        | intros Hnot; exfalso; apply Hnot; simpl; tauto ].

Lemma error_mapping_get (wait status_code : Z) :
  let info := default (mkErrorInfo false "Unknown error" None)
                (dict_get (error_mapping wait) status_code) in
  info_retry info = status_in (Some status_code) transient_status_codes
  /\ (is_Some (info_wait info) <-> status_code = 429)
  /\ (info_reason info = "Unknown error" <->
      ~ In status_code [400; 401; 403; 413; 429; 500; 502; 503; 504]).
Proof.
  cbv zeta. unfold error_mapping, transient_status_codes, status_in.
  cbn [dict_get existsb].
  repeat match goal with
         | |- context [(?k =? status_code)%Z] =>
             destruct (Z.eqb_spec k status_code) as [<-|?]; [known_status|]
         end.
  cbn [default info_retry info_wait info_reason].
  repeat match goal with
         | |- context [(status_code =? ?k)%Z] =>
             destruct (Z.eqb_spec status_code k); [lia|]
         end.
  split; [reflexivity|]. split.
  - split; [by intros [? [=]]|lia].
  - split; [|done]. intros _. simpl. lia.
Qed.

(** X27: the [retry] flag that [_handle_sendgrid_error] gives a status
    code is true exactly for the codes the dispatcher itself treats as
    transient (429, 500, 502, 503, 504), a wait time comes with 429
    only, and codes outside the table get 'Unknown error'.  The
    [Retry-After] header is converted for every status code: when it is
    present and not an integer the function raises, whatever the code. *)
Theorem sendgrid_error_info (status_code : Z) (retry_after : option string) :
  (_handle_sendgrid_error status_code retry_after = None <->
   exists v, retry_after = Some v /\ PyStr.int v = None)
  /\ forall info,
       _handle_sendgrid_error status_code retry_after = Some info ->
       info_retry info = status_in (Some status_code) transient_status_codes
       /\ (is_Some (info_wait info) <-> status_code = 429)
       /\ (info_reason info = "Unknown error" <->
           ~ In status_code [400; 401; 403; 413; 429; 500; 502; 503; 504]).
Proof.
  unfold _handle_sendgrid_error.
  destruct retry_after as [v|]; cbn [mbind option_bind].
  - destruct (PyStr.int v) as [wait|] eqn:Hv; cbn [option_bind].
    + split.
      * split; [done|]. intros (v' & [= <-] & Hnone). congruence.
      * intros info [= <-]. apply error_mapping_get.
    + split; [|done]. split; [|done]. intros _. by exists v.
  - split.
    + split; [done|]. by intros (v & [=] & _).
    + intros info [= <-]. apply error_mapping_get.
Qed.

Lemma sendgrid_error_info_witness :
  info_retry (mkErrorInfo true "Service unavailable" None)
  = status_in (Some 503) transient_status_codes.
Proof.
  destruct (sendgrid_error_info 503 (Some "120")) as [_ Hinfo].
  destruct (Hinfo (mkErrorInfo true "Service unavailable" None) eq_refl)
    as [Hretry _].
  exact Hretry.
Defined.

(** ** The Stanford SMTP configuration *)

Lemma first_piece_no_sep s :
  PyStr.contains "@" (hd "" (str_split s "@")) = false.
Proof.
  unfold str_split. induction s as [|c s IH]; [done|].
  cbn [split_pieces]. destruct (split_pieces "@" s) as [piece pieces].
  destruct (Ascii.eqb_spec c "@") as [->|Hc]; [done|].
  cbn [hd] in *. cbn [PyStr.contains PyStr.startswith].
  destruct (Ascii.eqb_spec "@"%char c) as [<-|_]; [done|]. exact IH.
Qed.

(** X28: after [validate_config] the configuration is consistent: the
    user name has no '@', the sender address is the user name followed
    by '@stanford.edu' up to letter case, no other entry has changed,
    and validating again changes nothing. *)
Theorem validate_config_consistent (config config' : gmap string string) :
  validate_config config = Ok config' ->
  exists username from_email,
    config' !! "username" = Some username
    /\ config' !! "from_email" = Some from_email
    /\ PyStr.contains "@" username = false
    /\ PyStr.lower from_email = PyStr.lower (username ++ "@stanford.edu")
    /\ (forall key, key <> "username" -> key <> "from_email" ->
                    config' !! key = config !! key)
    /\ validate_config config' = Ok config'.
Proof.
  unfold validate_config at 1.
  destruct (config !! "username") as [username|] eqn:Hu; [|done].
  destruct (config !! "from_email") as [from_email|] eqn:Hf; [|done].
  set (sunet_id := if PyStr.contains "@" username
                   then hd "" (str_split username "@") else username).
  set (config1 := if PyStr.contains "@" username
                  then <["username" := sunet_id]> config else config).
  assert (Hpair : (if PyStr.contains "@" username
                   then (<["username" := hd "" (str_split username "@")]> config,
                         hd "" (str_split username "@"))
                   else (config, username)) = (config1, sunet_id)).
  { subst config1 sunet_id. by destruct (PyStr.contains "@" username). }
  rewrite Hpair. clear Hpair.
  assert (Hsunet : PyStr.contains "@" sunet_id = false).
  { subst sunet_id. destruct (PyStr.contains "@" username) eqn:Hc; [|done].
    apply first_piece_no_sep. }
  assert (Hu1 : config1 !! "username" = Some sunet_id).
  { subst config1 sunet_id. destruct (PyStr.contains "@" username); [|done].
    by rewrite lookup_insert_eq. }
  assert (Hf1 : config1 !! "from_email" = Some from_email).
  { subst config1. destruct (PyStr.contains "@" username); [|done].
    by rewrite lookup_insert_ne. }
  assert (Hk1 : forall key, key <> "username" -> config1 !! key = config !! key).
  { intros key Hkey. subst config1.
    destruct (PyStr.contains "@" username); [|done].
    by rewrite lookup_insert_ne. }
  assert (Hagain : forall c (f : string),
    c !! "username" = Some sunet_id -> c !! "from_email" = Some f ->
    PyStr.lower f = PyStr.lower (sunet_id ++ "@stanford.edu") ->
    validate_config c = Ok c).
  { intros c f Hcu Hcf Hlow. unfold validate_config.
    rewrite Hcu, Hcf, Hsunet, Hlow, String.eqb_refl. done. }
  destruct (String.eqb_spec (PyStr.lower from_email)
              (PyStr.lower (sunet_id ++ "@stanford.edu"))) as [Hlow|Hlow];
    cbn [negb]; intros [= <-].
  - exists sunet_id, from_email. repeat split; try done.
    + intros key Hkey _. by apply Hk1.
    + by apply (Hagain config1 from_email).
  - exists sunet_id, (sunet_id ++ "@stanford.edu").
    rewrite lookup_insert_ne by done. rewrite lookup_insert_eq.
    repeat split; try done.
    + intros key Hkey Hkey'. rewrite lookup_insert_ne by done. by apply Hk1.
    + apply (Hagain _ (sunet_id ++ "@stanford.edu")); [|by rewrite lookup_insert_eq|done].
      by rewrite lookup_insert_ne.
Qed.

Lemma validate_config_consistent_witness :
  exists username from_email,
    ({[ "username" := "jdoe"; "from_email" := "jdoe@stanford.edu";
        "server" := "smtp.stanford.edu" ]} : gmap string string)
      !! "username" = Some username
    /\ ({[ "username" := "jdoe"; "from_email" := "jdoe@stanford.edu";
           "server" := "smtp.stanford.edu" ]} : gmap string string)
         !! "from_email" = Some from_email
    /\ PyStr.contains "@" username = false
    /\ PyStr.lower from_email = PyStr.lower (username ++ "@stanford.edu").
Proof.
  destruct (validate_config_consistent
              {[ "username" := "jdoe@stanford.edu";
                 "from_email" := "Lab@Stanford.edu";
                 "server" := "smtp.stanford.edu" ]}
              {[ "username" := "jdoe"; "from_email" := "jdoe@stanford.edu";
                 "server" := "smtp.stanford.edu" ]})
    as (username & from_email & Hu & Hf & Hat & Hlow & _).
  - vm_compute. reflexivity.
  - by exists username, from_email.
Defined.

(** ** SMTP handlers that have become unhealthy *)

Lemma run_provider_loop_unhealthy mr email_data order w :
  (forall p, In p order -> 3 <= consecutive_failures w.1 p) ->
  forall cbs le atts,
    (forall p, In p order -> is_Some (cbs !! provider_name p)) ->
    exists cbs' t,
      run smtp_env (provider_loop mr email_data order cbs le atts) w
      = (Returned (all_failed le atts, cbs'), w, t)
      /\ sends_of t = []
      /\ forall k, is_Some (cbs !! k) -> is_Some (cbs' !! k).
Proof.
  intros Hcount. induction order as [|p rest IH]; intros cbs le atts Hdom.
  - exists cbs, []. by cbn.
  - destruct (Hdom p (or_introl eq_refl)) as [cb Hcb].
    assert (Hunhealthy : (consecutive_failures w.1 p <? 3)%Z = false).
    { apply Z.ltb_ge, Hcount. by left. }
    assert (Hskip : forall cb1 pre,
      sends_of pre = [] ->
      exists cbs' t,
        (let '(o, w', t') :=
           run smtp_env
             (provider_loop mr email_data rest
                (<[provider_name p := cb1]> cbs) le atts) w in
         (o, w', (pre ++ t')%list))
        = (Returned (all_failed le atts, cbs'), w, t)
        /\ sends_of t = []
        /\ forall k, is_Some (cbs !! k) -> is_Some (cbs' !! k)).
    { intros cb1 pre Hpre.
      destruct (IH (fun q Hq => Hcount q (or_intror Hq))
                  (<[provider_name p := cb1]> cbs) le atts)
        as (cbs' & t & -> & Ht & Hk).
      { intros q Hq. apply lookup_insert_is_Some'. right.
        apply Hdom. by right. }
      exists cbs', (pre ++ t)%list. split; [done|]. split.
      - by rewrite sends_of_app, Hpre, Ht.
      - intros k Hk'. apply Hk, lookup_insert_is_Some'. by right. }
    assert (Hhealth : forall cb1 pre,
      sends_of pre = [] ->
      exists cbs' t,
        (let '(o, w', t') :=
           run smtp_env
             (healthy ← call (IsHealthy p);
              if negb healthy then
                provider_loop mr email_data rest
                  (<[provider_name p := cb1]> cbs) le atts
              else
                r ← attempt_loop mr p cb1 email_data
                       (seq 0 (Z.to_nat mr)) le atts;
                match r with
                | inl (d, cb2) =>
                    Ret (d, <[provider_name p := cb2]>
                              (<[provider_name p := cb1]> cbs))
                | inr (last_error', attempts') =>
                    now ← call Time;
                    provider_loop mr email_data rest
                      (<[provider_name p := record_failure cb1 now]>
                         (<[provider_name p := cb1]> cbs))
                      last_error' attempts'
                end) w in
         (o, w', (pre ++ t')%list))
        = (Returned (all_failed le atts, cbs'), w, t)
        /\ sends_of t = []
        /\ forall k, is_Some (cbs !! k) -> is_Some (cbs' !! k)).
    { intros cb1 pre Hpre. rewrite run_bind, run_call.
      cbn [smtp_env run_then]. rewrite Hunhealthy. cbn [negb].
      destruct (Hskip cb1 [Ev (IsHealthy p) false] eq_refl)
        as (cbs' & t & Hrun & Ht & Hk).
      destruct (run smtp_env _ w) as [[o w'] t'].
      injection Hrun as -> -> <-.
      exists cbs', (pre ++ Ev (IsHealthy p) false :: t')%list.
      split; [done|]. split; [|done].
      rewrite sends_of_app, Hpre. exact Ht. }
    cbn [provider_loop]. rewrite Hcb, run_bind.
    unfold can_attempt_now, can_attempt.
    destruct (state cb) eqn:Hstate.
    + cbn [run run_then]. apply (Hhealth cb []). done.
    + destruct (last_failure_time cb) as [t0|] eqn:Ht0.
      * destruct (time_truthy (Some t0)) eqn:Htruthy.
        -- rewrite run_bind, run_call. cbn [smtp_env run_then run].
           cbn [andb].
           destruct (recovery_timeout cb <? 1000 - t0)%Z; cbn [negb].
           ++ apply (Hhealth _ [Ev Time 1000]). done.
           ++ apply (Hskip cb [Ev Time 1000]). done.
        -- cbn [run run_then andb negb]. apply (Hskip cb []). done.
      * cbn [time_truthy run run_then negb]. apply (Hskip cb []). done.
    + cbn [run run_then]. apply (Hhealth cb []). done.
Qed.

(** X29: an SMTP handler that has counted three consecutive failures
    is never used again.  [is_healthy] is false, the dispatcher skips
    the handler without calling [send_email], and only [send_email]
    changes the counter: when every provider of the sender is such a
    handler, a dispatch makes no send at all, reports failure with an
    empty trail, and leaves the counters as they were, whatever the mail
    server would have answered; so the same happens for every later
    email. *)
Theorem smtp_unhealthy_is_final (sender : MultiProviderEmailSender)
    (email_data : EmailData) (counts : gmap nat Z) (script : list bool) :
  (forall p, In p (providers sender) ->
             is_Some (circuit_breakers sender !! provider_name p)) ->
  (forall p, In p (providers sender) -> 3 <= consecutive_failures counts p) ->
  exists cbs' t,
    run smtp_env (_send_with_providers sender email_data) (counts, script)
    = (Returned (all_failed None [], cbs'), (counts, script), t)
    /\ sends_of t = []
    /\ forall p, In p (providers sender) ->
                 is_Some (cbs' !! provider_name p).
Proof.
  intros Hdom Hcount.
  assert (Hin : forall p, In p (provider_order (providers sender) email_data) ->
                          In p (providers sender)).
  { intros p. unfold provider_order.
    destruct (is_stanford_recipient email_data); apply In_sorted. }
  destruct (run_provider_loop_unhealthy (max_retries sender) email_data
              (provider_order (providers sender) email_data) (counts, script)
              (fun p Hp => Hcount p (Hin p Hp))
              (circuit_breakers sender) None []
              (fun p Hp => Hdom p (Hin p Hp)))
    as (cbs' & t & Hrun & Ht & Hk).
  exists cbs', t. split; [exact Hrun|]. split; [exact Ht|].
  intros p Hp. apply Hk, Hdom, Hp.
Qed.

Lemma smtp_unhealthy_is_final_witness :
  exists cbs' t,
    run smtp_env
      (_send_with_providers
         (MultiProviderEmailSender_init [mkProvider "stanford_smtp" 0] 3)
         external_mail)
      ({[ 0%nat := 3 ]}, [true])
    = (Returned (all_failed None [], cbs'), ({[ 0%nat := 3 ]}, [true]), t)
    /\ sends_of t = [].
Proof.
  destruct (smtp_unhealthy_is_final
              (MultiProviderEmailSender_init [mkProvider "stanford_smtp" 0] 3)
              external_mail {[ 0%nat := 3 ]} [true])
    as (cbs' & t & Hrun & Ht & _).
  - intros p [<-|[]]. by eexists.
  - intros p [<-|[]]. vm_compute. discriminate.
  - by exists cbs', t.
Defined.

(** ** The identifiers of the email processor *)

Lemma max_study_id_ge is_hc records max_id :
  max_id <= max_study_id is_hc records max_id.
Proof.
  revert max_id. induction records as [|r rest IH]; intros max_id; [simpl; lia|].
  cbn [max_study_id]. cbv zeta. etrans; [|apply IH].
  destruct (PyStr.truthy _); [|lia].
  destruct (study_number _ _) as [num|]; [|lia].
  destruct is_hc; [destruct (_ <? _)%Z|destruct (_ <=? _)%Z]; lia.
Qed.

Lemma max_study_id_mono is_hc records a b :
  a <= b -> max_study_id is_hc records a <= max_study_id is_hc records b.
Proof.
  revert a b. induction records as [|r rest IH]; intros a b Hab; [done|].
  cbn [max_study_id]. cbv zeta. apply IH.
  destruct (PyStr.truthy _); [|lia].
  destruct (study_number _ _) as [num|]; [|lia].
  destruct is_hc; [destruct (_ <? _)%Z|destruct (_ <=? _)%Z]; lia.
Qed.

Lemma max_study_id_hc_lt records max_id :
  max_id < 10000 -> max_study_id true records max_id < 10000.
Proof.
  revert max_id. induction records as [|r rest IH]; intros max_id Hlt; [done|].
  cbn [max_study_id]. cbv zeta. apply IH.
  destruct (PyStr.truthy _); [|lia].
  destruct (study_number _ _) as [num|]; [|lia].
  destruct (Z.ltb_spec num 10000); lia.
Qed.

Lemma max_study_id_In (is_hc : bool) records max_id r num :
  In r records ->
  study_number (if is_hc then "HC-" else "MDD-") (record_get r "study_id" "")
  = Some num ->
  (if is_hc then num <? 10000 else 10000 <=? num)%Z = true ->
  num <= max_study_id is_hc records max_id.
Proof.
  revert max_id. induction records as [|r0 rest IH]; intros max_id; [done|].
  intros [->|Hin] Hnum Hside.
  - cbn [max_study_id]. cbv zeta. etrans; [|apply max_study_id_ge].
    destruct (PyStr.truthy (record_get r "study_id" "")) eqn:Ht.
    + rewrite Hnum, Hside. lia.
    + destruct (record_get r "study_id" ""); [|done].
      destruct is_hc; discriminate.
  - cbn [max_study_id]. by apply IH.
Qed.

(** X30: [get_next_id] has no upper limit check.  For healthy controls
    it returns a number from 3466 to 10000 that is above every
    identifier below 10000 in the records; with 9999 assigned it returns
    10000, outside the numbers below 10000 that it reads as healthy
    controls.  For MDD participants it returns a number of at least
    10926 that is above every identifier from 10000 on. *)
Theorem get_next_id_bounds (records : list (gmap string string)) :
  3466 <= get_next_id true records <= 10000
  /\ 10926 <= get_next_id false records
  /\ (forall r num,
        In r records ->
        study_number "HC-" (record_get r "study_id" "") = Some num ->
        num < 10000 -> num < get_next_id true records)
  /\ (forall r num,
        In r records ->
        study_number "MDD-" (record_get r "study_id" "") = Some num ->
        10000 <= num -> num < get_next_id false records)
  /\ (forall r,
        In r records -> record_get r "study_id" "" = "9999" ->
        get_next_id true records = 10000).
Proof.
  unfold get_next_id.
  pose proof (max_study_id_ge true records 3465) as Hge.
  pose proof (max_study_id_hc_lt records 3465 ltac:(lia)) as Hlt.
  pose proof (max_study_id_ge false records 10925) as Hmdd.
  split; [lia|]. split; [lia|]. split; [|split].
  - intros r num Hin Hnum Hside.
    pose proof (max_study_id_In true records 3465 r num Hin Hnum) as Hle.
    cbv beta iota in Hle. specialize (Hle (proj2 (Z.ltb_lt _ _) Hside)). lia.
  - intros r num Hin Hnum Hside.
    pose proof (max_study_id_In false records 10925 r num Hin Hnum) as Hle.
    cbv beta iota in Hle. specialize (Hle (proj2 (Z.leb_le _ _) Hside)). lia.
  - intros r Hin Hsid.
    pose proof (max_study_id_In true records 3465 r 9999 Hin) as Hle.
    rewrite Hsid in Hle. specialize (Hle eq_refl eq_refl). lia.
Qed.
